(** * Simulador de cenários (Auditor Fiscal, SEF/MG): the projection engine
      and the scenario collection of [simulador_auditor_sef_mg_react.jsx].

    The file embeds [projectScenario] (lines 53-99), the constants it reads
    (lines 37-44), [removeScenario] (lines 170-174) and the guard of the
    "Remover" button (lines 262-269); then the rest of the component: the
    level table, [pickColor], the initial state, [addScenario],
    [updateScenario], the selected scenario, [detail], [chartData], the
    handlers of the rows and of the form, and the saving of the collection
    to [localStorage] and its loading (lines 106-111 and 138-140).

    JavaScript numbers are embedded through an interface, [Number], written
    once and read twice:
    - [Binary64] reads them as IEEE-754 doubles (the kernel's primitive
      floats), with [Math.pow] left to the host; the properties of the
      amounts are stated and proved there, rounding, overflow and NaN
      included, from the kernel's specification of its floats;
    - [ExactNumber] reads them as exact rationals ([Q]); the worked example
      of the specification is evaluated in both readings. What does not
      depend on the arithmetic (the shape of the result, the labels, the
      collection) is proved for any reading. *)

From Stdlib Require Import ZArith QArith Qminmax Qpower List String Bool Lia Lqa.
From Stdlib Require Import DecimalString.
From Stdlib Require DecimalZ.
From Corelib Require Import Floats.PrimFloat.
From Corelib Require Floats.SpecFloat Floats.FloatOps Floats.FloatAxioms.
Import ListNotations.

Set Implicit Arguments.
Local Open Scope Z_scope.

(** ** Numbers *)

(** What [projectScenario] asks of a JavaScript number.  [Math_pow] takes its
    exponent as an integer: the only call site passes the loop counter [t]. *)
Class Number (num : Type) : Type := {
  lit : Q -> num;            (* a numeric literal of the source text *)
  of_Z : Z -> num;           (* an integer-valued number (the counter [t]) *)
  add : num -> num -> num;
  sub : num -> num -> num;
  mul : num -> num -> num;
  div : num -> num -> num;
  Math_pow : num -> Z -> num;
  Math_max : num -> num -> num
}.

Declare Scope num_scope.
Delimit Scope num_scope with num.
Infix "+" := add : num_scope.
Infix "-" := sub : num_scope.
Infix "*" := mul : num_scope.
Infix "/" := div : num_scope.

(** Exact reading: the rationals. *)
#[export] Instance ExactNumber : Number Q := {
  lit q := q;
  of_Z z := inject_Z z;
  add := Qplus;
  sub := Qminus;
  mul := Qmult;
  div := Qdiv;
  Math_pow := Qpower;
  Math_max := Qmax
}.

(** IEEE-754 reading.  An integer below 2^53 converts exactly; a decimal
    literal [n/d] with [n] and [d] below 2^53 is the correctly rounded
    quotient of two exact integers, that is, the double nearest to the
    literal. *)
Fixpoint float_of_pos (p : positive) : float :=
  match p with
  | xH => PrimFloat.one
  | xO p' => PrimFloat.mul PrimFloat.two (float_of_pos p')
  | xI p' => PrimFloat.add (PrimFloat.mul PrimFloat.two (float_of_pos p')) PrimFloat.one
  end.

Definition float_of_Z (z : Z) : float :=
  match z with
  | Z0 => PrimFloat.zero
  | Zpos p => float_of_pos p
  | Zneg p => PrimFloat.opp (float_of_pos p)
  end.

Definition float_of_literal (q : Q) : float :=
  PrimFloat.div (float_of_Z (Qnum q)) (float_of_pos (Qden q)).

(** [Math.max] on doubles: NaN if either argument is NaN, else the larger,
    with [+0] above [-0]. *)
Definition float_max (x y : float) : float :=
  if PrimFloat.eqb x x then
    if PrimFloat.eqb y y then
      if PrimFloat.ltb x y then y
      else if PrimFloat.ltb y x then x
      else if PrimFloat.eqb x PrimFloat.zero then PrimFloat.add x y
      else x
    else y
  else x.

Section Binary64.
(** The host's [Math.pow] on doubles. *)
Variable host_pow : float -> Z -> float.

Definition Binary64 : Number float := {|
  lit := float_of_literal;
  of_Z := float_of_Z;
  add := PrimFloat.add;
  sub := PrimFloat.sub;
  mul := PrimFloat.mul;
  div := PrimFloat.div;
  Math_pow := host_pow;
  Math_max := float_max
|}.
End Binary64.

(** A [Math.pow] by repeated multiplication, one admissible host. *)
Definition pow_by_mul (b : float) (e : Z) : float :=
  match e with
  | Z0 => PrimFloat.one
  | Zpos p => Pos.iter (PrimFloat.mul b) PrimFloat.one p
  | Zneg p => PrimFloat.div PrimFloat.one (Pos.iter (PrimFloat.mul b) PrimFloat.one p)
  end.

(** ** Constants (lines 37-44) *)

Definition DEFAULT_YEARS : Z := 30.

Section Engine.
Context {num : Type} {N : Number num}.
Local Open Scope num_scope.

Definition DEFAULT_HELP_DAYS : num := lit 20.
Definition DEPENDENT_DEDUCTION : num := lit 189.59.
Definition PREVID_PERCENT : num := lit 0.14.
Definition IR_FLAT_PERCENT : num := lit 0.15.

(** [thisYear = new Date().getFullYear()]: read once from the wall clock. *)
Variable thisYear : Z.

(** [String(year)] of an integer-valued number. *)
Definition String_of (year : Z) : string := NilZero.string_of_int (Z.to_int year).

(** ** The argument of [projectScenario] (lines 53-64)

    The object pattern gives four properties a default, used when the
    property is absent ([None]). *)
Record Args : Type := {
  baseSalary : num;
  gepiPointValue : num;
  gepiPoints : num;
  viPerHelpDay : num;
  helpDays : num;
  dependents : num;
  basicAnnualPctReaj : option num;
  gepiCentsAnnual : option num;
  viReajAnnual : option num;
  years : option Z
}.

Definition or_default {A} (o : option A) (d : A) : A :=
  match o with Some a => a | None => d end.

Definition basicAnnualPctReaj_of (p : Args) : num := or_default (basicAnnualPctReaj p) (lit 0).
Definition gepiCentsAnnual_of (p : Args) : num := or_default (gepiCentsAnnual p) (lit 0).
Definition viReajAnnual_of (p : Args) : num := or_default (viReajAnnual p) (lit 0).
Definition years_of (p : Args) : Z := or_default (years p) DEFAULT_YEARS.

(** ** The constants of one iteration (lines 70-92), as functions of [t] *)

Definition basicYear (p : Args) (t : Z) : num :=
  baseSalary p * Math_pow (lit 1 + basicAnnualPctReaj_of p / lit 100) t.

Definition gepiPointYear (p : Args) (t : Z) : num :=
  gepiPointValue p + gepiCentsAnnual_of p * of_Z t.

Definition gepiTotalYear (p : Args) (t : Z) : num :=
  gepiPointYear p t * gepiPoints p.

Definition viYear (p : Args) (t : Z) : num :=
  viPerHelpDay p * helpDays p + viReajAnnual_of p * of_Z t.

Definition grossMonthly (p : Args) (t : Z) : num :=
  basicYear p t + gepiTotalYear p t + viYear p t.

Definition grossAnnual (p : Args) (t : Z) : num :=
  grossMonthly p t * lit 12.

Definition previd (p : Args) (t : Z) : num :=
  grossAnnual p t * PREVID_PERCENT.

Definition deductionDependents (p : Args) : num :=
  dependents p * DEPENDENT_DEDUCTION * lit 12.

Definition taxable (p : Args) (t : Z) : num :=
  Math_max (lit 0) (grossAnnual p t - previd p t - deductionDependents p).

Definition ir (p : Args) (t : Z) : num :=
  taxable p t * IR_FLAT_PERCENT.

Definition netAnnual (p : Args) (t : Z) : num :=
  grossAnnual p t - previd p t - ir p t.

(** ** The loop (lines 65-98) *)

Record Projection : Type := {
  labels : list string;
  grossSeries : list num;
  netSeries : list num
}.

Definition push {A} (arr : list A) (x : A) : list A := arr ++ [x].

Definition empty_projection : Projection :=
  {| labels := []; grossSeries := []; netSeries := [] |}.

(** One pass through the body: three pushes. *)
Definition body (p : Args) (t : Z) (acc : Projection) : Projection :=
  let year := (thisYear + t)%Z in
  {| labels := push (labels acc) (String_of year);
     grossSeries := push (grossSeries acc) (grossAnnual p t);
     netSeries := push (netSeries acc) (netAnnual p t) |}.

(** [for (let t = 0; t <= years; t++)], from counter [t] on.  [None] is
    "fuel exhausted before the guard failed". *)
Fixpoint for_loop (fuel : nat) (p : Args) (t : Z) (acc : Projection)
  : option Projection :=
  match fuel with
  | O => None
  | S fuel' =>
      if (t <=? years_of p)%Z
      then for_loop fuel' p (t + 1)%Z (body p t acc)
      else Some acc
  end.

(** Fuel for the whole run: one guard test more than iterations. *)
Definition fuel_of (p : Args) : nat := S (Z.to_nat (years_of p + 1)).

Definition projectScenario (p : Args) : option Projection :=
  for_loop (fuel_of p) p 0%Z empty_projection.

(** *** Reading the loop as a list

    Devices of the proofs below: the offsets the counter runs through and
    the arrays after the body ran at each of them. *)

(** The offsets [t, t+1, ..., t+n-1]. *)
Fixpoint offsets (t : Z) (n : nat) : list Z :=
  match n with
  | O => []
  | S n' => t :: offsets (t + 1)%Z n'
  end.

Definition pushed (p : Args) (acc : Projection) (ts : list Z) : Projection :=
  {| labels := labels acc ++ map (fun t => String_of (thisYear + t)%Z) ts;
     grossSeries := grossSeries acc ++ map (grossAnnual p) ts;
     netSeries := netSeries acc ++ map (netAnnual p) ts |}.

(** The number of iterations of a whole run. *)
Definition iterations (p : Args) : nat := Z.to_nat (years_of p + 1).

End Engine.

Arguments Args num : clear implicits.
Arguments Projection num : clear implicits.

(** [arr[t]] for an integer [t]: absent outside [0 .. length-1]. *)
Definition at_index {A} (arr : list A) (t : Z) : option A :=
  if t <? 0 then None else nth_error arr (Z.to_nat t).

(** ** The scenario collection (lines 104-174, 243-272) *)

Section Collection.
Context {num : Type} {N : Number num}.

(** A stored scenario: its identity and display properties, and the
    properties [projectScenario] reads, which [{...sc}] spreads into the
    argument object. *)
Record Scenario : Type := {
  id : string;
  name : string;
  levelId : string;
  color : string;
  inputs : Args num
}.

(** The scenario the state starts from when storage gives nothing
    (lines 113-132). *)
Definition defaultScenario : Scenario := {|
  id := "atual";
  name := "Cenário Atual";
  levelId := "A1";
  color := "#1f77b4";
  inputs := {|
    dependents := lit 0;
    helpDays := DEFAULT_HELP_DAYS;
    baseSalary := lit 9000;
    gepiPointValue := lit 20.0;
    gepiPoints := lit 100;
    viPerHelpDay := lit 15.0;
    basicAnnualPctReaj := Some (lit 0);
    gepiCentsAnnual := Some (lit 0);
    viReajAnnual := Some (lit 0);
    years := Some DEFAULT_YEARS
  |}
|}.

(** The two pieces of component state [removeScenario] touches:
    [scenarios] and [selectedId] ([null] is [None]). *)
Record AppState : Type := {
  scenarios : list Scenario;
  selectedId : option string
}.

(** [selectedId === id]. *)
Definition selected_is (st : AppState) (id0 : string) : bool :=
  match selectedId st with
  | Some s => String.eqb s id0
  | None => false
  end.

(** [removeScenario(id)] (lines 170-174):
    [next = scenarios.filter(s => s.id !== id)], [setScenarios(next)], and
    [setSelectedId(next[0]?.id ?? null)] when the removed one was selected. *)
Definition removeScenario (st : AppState) (id0 : string) : AppState :=
  let next := filter (fun s => negb (String.eqb (id s) id0)) (scenarios st) in
  {| scenarios := next;
     selectedId := if selected_is st id0
                   then option_map id (hd_error next)
                   else selectedId st |}.

(** The "Remover" button of a row (lines 262-269): rendered only when
    [sc.id !== "atual"], with [onClick = () => removeScenario(sc.id)]. *)
Definition removerOnClick (sc : Scenario) : option (AppState -> AppState) :=
  if negb (String.eqb (id sc) "atual")
  then Some (fun st => removeScenario st (id sc))
  else None.

(** A request to remove the row [sc]: the click handler runs when the
    button exists; otherwise there is nothing to click and the state stays. *)
Definition clickRemover (st : AppState) (sc : Scenario) : AppState :=
  match removerOnClick sc with
  | Some onClick => onClick st
  | None => st
  end.

End Collection.

Arguments Scenario num : clear implicits.
Arguments AppState num : clear implicits.

(** ** Inputs used in the statements *)

(** The worked example of the specification: the default scenario's numbers
    with a horizon of one year. *)
Definition example_args {num : Type} {N : Number num} : Args num := {|
  baseSalary := lit 9000;
  gepiPointValue := lit 20.0;
  gepiPoints := lit 100;
  viPerHelpDay := lit 15.0;
  helpDays := lit 20;
  dependents := lit 0;
  basicAnnualPctReaj := Some (lit 0);
  gepiCentsAnnual := Some (lit 0);
  viReajAnnual := Some (lit 0);
  years := Some 1
|}.

(** The same with a per-diem increment of R$ 1 a year. *)
Definition example_vi_growth {num : Type} {N : Number num} : Args num := {|
  baseSalary := lit 9000;
  gepiPointValue := lit 20.0;
  gepiPoints := lit 100;
  viPerHelpDay := lit 15.0;
  helpDays := lit 20;
  dependents := lit 0;
  basicAnnualPctReaj := Some (lit 0);
  gepiCentsAnnual := Some (lit 0);
  viReajAnnual := Some (lit 1);
  years := Some 1
|}.

(** A second stored scenario, as [addScenario] would have made it. *)
Definition added_scenario {num : Type} {N : Number num} : Scenario num := {|
  id := "c_1700000000000";
  name := "Cenário 2";
  levelId := "A1";
  color := "#ff7f0e";
  inputs := example_args
|}.

(** ** The allowance, as the specification words it *)

(** The allowance as the specification words it: the increment inside the
    rate, multiplied by the day count, and once more as a flat term. *)
Definition viYear_as_specified {num : Type} {N : Number num} (p : Args num) (t : Z) : num :=
  ((viPerHelpDay p + viReajAnnual_of p * of_Z t) * helpDays p
   + viReajAnnual_of p * of_Z t)%num.

(** ** The rest of the component

    The level table (lines 29-34), [pickColor] (lines 582-594), the
    initial state (lines 106-135), [addScenario] (lines 143-164),
    [updateScenario] (lines 166-168), the chart data (lines 177-207), the
    selected scenario and its detail (lines 210-216) and the handlers of
    the rows and of the form (lines 254-269, 275-280, 356-493). *)

Module Level.
Record t (num : Type) : Type := {
  id : string;
  label : string;
  baseSalary : num;
  gepiPoints : num
}.
End Level.

(** A partial object [patch], as [updateScenario] receives it: a property
    is present ([Some]) or not. *)
Module Patch.
Record t (num : Type) : Type := {
  id : option string;
  name : option string;
  levelId : option string;
  color : option string;
  baseSalary : option num;
  gepiPointValue : option num;
  gepiPoints : option num;
  viPerHelpDay : option num;
  helpDays : option num;
  dependents : option num;
  basicAnnualPctReaj : option num;
  gepiCentsAnnual : option num;
  viReajAnnual : option num;
  years : option Z
}.
End Patch.

(** One series of the chart (lines 197-203). *)
Module Dataset.
Record t (num : Type) : Type := {
  label : string;
  data : list num;
  borderColor : string;
  backgroundColor : string;
  tension : num
}.
End Dataset.

(** The value of [chartData] (line 206). *)
Module ChartData.
Record t (num : Type) : Type := {
  labels : list string;
  datasets : list (Dataset.t num)
}.
End ChartData.

Section Component.
Context {num : Type} {N : Number num}.
Variable thisYear : Z.

Definition LEVELS : list (Level.t num) := [
  {| Level.id := "A1"; Level.label := "Nível A1";
     Level.baseSalary := lit 9000; Level.gepiPoints := lit 100 |};
  {| Level.id := "A2"; Level.label := "Nível A2";
     Level.baseSalary := lit 11000; Level.gepiPoints := lit 120 |};
  {| Level.id := "B1"; Level.label := "Nível B1";
     Level.baseSalary := lit 13000; Level.gepiPoints := lit 140 |};
  {| Level.id := "B2"; Level.label := "Nível B2";
     Level.baseSalary := lit 16000; Level.gepiPoints := lit 165 |}
].

Definition palette : list string := [
  "#1f77b4"; "#ff7f0e"; "#2ca02c"; "#d62728";
  "#9467bd"; "#8c564b"; "#e377c2"; "#7f7f7f"
]%string.

(** [pickColor(i)] (lines 582-594), for the array length its one caller
    passes: [palette[i % palette.length]]. *)
Definition pickColor (i : nat) : string :=
  nth (i mod List.length palette) palette ""%string.

(** The initial state (lines 106-135). [loaded] is what the [try] block
    returned: the parsed collection, or nothing when the stored text is
    absent, empty, or does not parse. *)
Definition initialState (loaded : option (list (Scenario num))) : AppState num :=
  let scenarios0 := or_default loaded [defaultScenario] in
  {| scenarios := scenarios0;
     selectedId := option_map id (hd_error scenarios0) |}.

(** [addScenario()] (lines 143-164), with the two readings it takes from
    outside: [yearsGlobal] and [Date.now()]. [None] is the TypeError of
    [defaultLevel.id] on an empty table. *)
Definition addScenario (yearsGlobal now : Z) (st : AppState num)
  : option (AppState num) :=
  let id0 := ("c_" ++ String_of now)%string in
  match nth_error LEVELS 0 with
  | None => None
  | Some defaultLevel =>
      let sc := {|
        id := id0;
        name := ("Cenário " ++ String_of (Z.of_nat (List.length (scenarios st)) + 1))%string;
        levelId := Level.id defaultLevel;
        color := pickColor (List.length (scenarios st));
        inputs := {|
          dependents := lit 0;
          helpDays := DEFAULT_HELP_DAYS;
          baseSalary := Level.baseSalary defaultLevel;
          gepiPointValue := lit 20;
          gepiPoints := Level.gepiPoints defaultLevel;
          viPerHelpDay := lit 15;
          basicAnnualPctReaj := Some (lit 0);
          gepiCentsAnnual := Some (lit 0);
          viReajAnnual := Some (lit 0);
          years := Some yearsGlobal
        |}
      |} in
      Some {| scenarios := scenarios st ++ [sc];
              selectedId := Some id0 |}
  end.

(** [patch.k] if present, else the old value. *)
Definition patched {A} (old : A) (new : option A) : A :=
  match new with Some a => a | None => old end.

(** The same for a property that may be absent from the scenario. *)
Definition patched_opt {A} (old : option A) (new : option A) : option A :=
  match new with Some a => Some a | None => old end.

(** [{ ...it, ...patch }]. *)
Definition spread (it : Scenario num) (patch : Patch.t num) : Scenario num := {|
  id := patched (id it) (Patch.id patch);
  name := patched (name it) (Patch.name patch);
  levelId := patched (levelId it) (Patch.levelId patch);
  color := patched (color it) (Patch.color patch);
  inputs := {|
    baseSalary := patched (baseSalary (inputs it)) (Patch.baseSalary patch);
    gepiPointValue := patched (gepiPointValue (inputs it)) (Patch.gepiPointValue patch);
    gepiPoints := patched (gepiPoints (inputs it)) (Patch.gepiPoints patch);
    viPerHelpDay := patched (viPerHelpDay (inputs it)) (Patch.viPerHelpDay patch);
    helpDays := patched (helpDays (inputs it)) (Patch.helpDays patch);
    dependents := patched (dependents (inputs it)) (Patch.dependents patch);
    basicAnnualPctReaj :=
      patched_opt (basicAnnualPctReaj (inputs it)) (Patch.basicAnnualPctReaj patch);
    gepiCentsAnnual :=
      patched_opt (gepiCentsAnnual (inputs it)) (Patch.gepiCentsAnnual patch);
    viReajAnnual := patched_opt (viReajAnnual (inputs it)) (Patch.viReajAnnual patch);
    years := patched_opt (years (inputs it)) (Patch.years patch)
  |}
|}.

(** [updateScenario(id, patch)] (lines 166-168). *)
Definition updateScenario (st : AppState num) (id0 : string) (patch : Patch.t num)
  : AppState num :=
  {| scenarios :=
       map (fun it => if String.eqb (id it) id0 then spread it patch else it)
           (scenarios st);
     selectedId := selectedId st |}.

(** [scenarios.find((s) => s.id === selectedId) ?? scenarios[0]] (line 210);
    no identifier is [=== null]. *)
Definition selectedScenario (st : AppState num) : option (Scenario num) :=
  let found :=
    match selectedId st with
    | Some sid => find (fun s => String.eqb (id s) sid) (scenarios st)
    | None => None
    end in
  match found with
  | Some s => Some s
  | None => hd_error (scenarios st)
  end.

(** [{ ...sc, years: y }]. *)
Definition with_years (p : Args num) (y : Z) : Args num := {|
  baseSalary := baseSalary p;
  gepiPointValue := gepiPointValue p;
  gepiPoints := gepiPoints p;
  viPerHelpDay := viPerHelpDay p;
  helpDays := helpDays p;
  dependents := dependents p;
  basicAnnualPctReaj := basicAnnualPctReaj p;
  gepiCentsAnnual := gepiCentsAnnual p;
  viReajAnnual := viReajAnnual p;
  years := Some y
|}.

(** [detail] (lines 211-216): [null] ([None]) without a selected scenario;
    else the projection over [selectedScenario.years ?? yearsGlobal]. *)
Definition detail (yearsGlobal : Z) (st : AppState num)
  : option (option (Projection num)) :=
  match selectedScenario st with
  | Some sc =>
      Some (projectScenario thisYear
              (with_years (inputs sc) (or_default (years (inputs sc)) yearsGlobal)))
  | None => None
  end.

(** The label loop of [chartData] (lines 179-180). *)
Fixpoint chart_labels (fuel : nat) (years0 t : Z) (acc : list string)
  : option (list string) :=
  match fuel with
  | O => None
  | S fuel' =>
      if t <=? years0
      then chart_labels fuel' years0 (t + 1) (push acc (String_of (thisYear + t)))
      else Some acc
  end.

(** One dataset (lines 182-204): the net series of the scenario projected
    over the global horizon. *)
Definition dataset_of (yearsGlobal : Z) (sc : Scenario num) : option (Dataset.t num) :=
  match projectScenario thisYear (with_years (inputs sc) yearsGlobal) with
  | Some r =>
      Some {| Dataset.label := name sc;
              Dataset.data := netSeries r;
              Dataset.borderColor := color sc;
              Dataset.backgroundColor := color sc;
              Dataset.tension := lit 0.2 |}
  | None => None
  end.

(** The same dataset read off the per-year values: a device of the proofs. *)
Definition dataset_from (yearsGlobal : Z) (sc : Scenario num) : Dataset.t num :=
  {| Dataset.label := name sc;
     Dataset.data := map (netAnnual (inputs sc)) (offsets 0 (Z.to_nat (yearsGlobal + 1)));
     Dataset.borderColor := color sc;
     Dataset.backgroundColor := color sc;
     Dataset.tension := lit 0.2 |}.

(** [arr.map(f)] for an [f] that may run out of fuel. *)
Fixpoint map_all {A B} (f : A -> option B) (l : list A) : option (list B) :=
  match l with
  | [] => Some []
  | a :: l' =>
      match f a, map_all f l' with
      | Some b, Some bs => Some (b :: bs)
      | _, _ => None
      end
  end.

(** [chartData] (lines 177-207). *)
Definition chartData (yearsGlobal : Z) (st : AppState num) : option (ChartData.t num) :=
  match chart_labels (S (Z.to_nat (yearsGlobal + 1))) yearsGlobal 0 [],
        map_all (dataset_of yearsGlobal) (scenarios st) with
  | Some labels0, Some datasets0 =>
      Some {| ChartData.labels := labels0; ChartData.datasets := datasets0 |}
  | _, _ => None
  end.

(** The [onChange] of the level select (lines 366-373), in the form of the
    scenario [selected]. [None] is the TypeError of [lvl.id] when no level
    carries the value. *)
Definition onLevelChange (selected : Scenario num) (value : string) (st : AppState num)
  : option (AppState num) :=
  match find (fun l => String.eqb (Level.id l) value) LEVELS with
  | Some lvl =>
      Some (updateScenario st (id selected)
              {| Patch.id := None; Patch.name := None;
                 Patch.levelId := Some (Level.id lvl); Patch.color := None;
                 Patch.baseSalary := Some (Level.baseSalary lvl);
                 Patch.gepiPointValue := None;
                 Patch.gepiPoints := Some (Level.gepiPoints lvl);
                 Patch.viPerHelpDay := None; Patch.helpDays := None;
                 Patch.dependents := None; Patch.basicAnnualPctReaj := None;
                 Patch.gepiCentsAnnual := None; Patch.viReajAnnual := None;
                 Patch.years := None |})
  | None => None
  end.

(** The other inputs of the form (lines 356-493), each with the value its
    [onChange] passes on. *)
Inductive Edit : Type :=
| EditName (v : string)
| EditDependents (v : num)
| EditHelpDays (v : num)
| EditBaseSalary (v : num)
| EditGepiPointValue (v : num)
| EditGepiPoints (v : num)
| EditViPerHelpDay (v : num)
| EditBasicAnnualPctReaj (v : num)
| EditGepiCentsAnnual (v : num)
| EditViReajAnnual (v : num)
| EditYears (v : Z).

(** The object literal each [onChange] hands to [updateScenario]: one
    property, never [id]. *)
Definition patch_of (e : Edit) : Patch.t num := {|
  Patch.id := None;
  Patch.name := match e with EditName v => Some v | _ => None end;
  Patch.levelId := None;
  Patch.color := None;
  Patch.baseSalary := match e with EditBaseSalary v => Some v | _ => None end;
  Patch.gepiPointValue := match e with EditGepiPointValue v => Some v | _ => None end;
  Patch.gepiPoints := match e with EditGepiPoints v => Some v | _ => None end;
  Patch.viPerHelpDay := match e with EditViPerHelpDay v => Some v | _ => None end;
  Patch.helpDays := match e with EditHelpDays v => Some v | _ => None end;
  Patch.dependents := match e with EditDependents v => Some v | _ => None end;
  Patch.basicAnnualPctReaj :=
    match e with EditBasicAnnualPctReaj v => Some v | _ => None end;
  Patch.gepiCentsAnnual := match e with EditGepiCentsAnnual v => Some v | _ => None end;
  Patch.viReajAnnual := match e with EditViReajAnnual v => Some v | _ => None end;
  Patch.years := match e with EditYears v => Some v | _ => None end
|}.

(** What the user can do to the collection. A row is the position of its
    scenario in [scenarios]; the form belongs to the selected scenario. *)
Inductive Event : Type :=
| EvSelect (row : nat)                 (* the name button of a row, line 256 *)
| EvRemover (row : nat)                (* the "Remover" button of a row, line 265 *)
| EvAdd (yearsGlobal now : Z)          (* "+ Adicionar cenário", line 277 *)
| EvEdit (e : Edit)                    (* an input of the form *)
| EvLevel (value : string).            (* the level select *)

(** The state after an event. [None]: the control is not on the page (no
    such row, no button in the row, no form), or its handler throws. *)
Definition handle (st : AppState num) (ev : Event) : option (AppState num) :=
  match ev with
  | EvSelect row =>
      match nth_error (scenarios st) row with
      | Some sc => Some {| scenarios := scenarios st; selectedId := Some (id sc) |}
      | None => None
      end
  | EvRemover row =>
      match nth_error (scenarios st) row with
      | Some sc =>
          match removerOnClick sc with
          | Some onClick => Some (onClick st)
          | None => None
          end
      | None => None
      end
  | EvAdd yearsGlobal now => addScenario yearsGlobal now st
  | EvEdit e =>
      match selectedScenario st with
      | Some sc => Some (updateScenario st (id sc) (patch_of e))
      | None => None
      end
  | EvLevel value =>
      match selectedScenario st with
      | Some sc => onLevelChange sc value st
      | None => None
      end
  end.

(** A session: the events one after the other. An event that finds no
    control, or whose handler throws before it sets any state, leaves the
    state as it is. *)
Fixpoint run (st : AppState num) (evs : list Event) : AppState num :=
  match evs with
  | [] => st
  | ev :: evs' =>
      match handle st ev with
      | Some st' => run st' evs'
      | None => run st evs'
      end
  end.

(** The collection holds a scenario with the protected identifier. *)
Definition has_atual (st : AppState num) : Prop :=
  exists sc, In sc (scenarios st) /\ id sc = "atual"%string.

(** The selection names a scenario of the collection; there is none only
    when the collection is empty. *)
Definition selection_valid (st : AppState num) : Prop :=
  match selectedId st with
  | Some sid => exists sc, In sc (scenarios st) /\ id sc = sid
  | None => scenarios st = []
  end.

(** [p] with another number of dependents. *)
Definition with_dependents (p : Args num) (d : num) : Args num := {|
  baseSalary := baseSalary p;
  gepiPointValue := gepiPointValue p;
  gepiPoints := gepiPoints p;
  viPerHelpDay := viPerHelpDay p;
  helpDays := helpDays p;
  dependents := d;
  basicAnnualPctReaj := basicAnnualPctReaj p;
  gepiCentsAnnual := gepiCentsAnnual p;
  viReajAnnual := viReajAnnual p;
  years := years p
|}.

End Component.

Arguments Edit num : clear implicits.
Arguments Event num : clear implicits.

Set Warnings "-inexact-float".

(** ** Zero growth, in doubles *)

(** [x === 0]: the doubles [+0] and [-0]. *)
Definition is_zero64 (x : float) : Prop :=
  x = PrimFloat.zero \/ x = PrimFloat.neg_zero.

(** A growth parameter that is absent (it defaults to 0) or [=== 0]. *)
Definition zero_or_absent (o : option float) : Prop :=
  match o with
  | Some x => is_zero64 x
  | None => True
  end.

Definition growth_zero64 (p : Args float) : Prop :=
  zero_or_absent (basicAnnualPctReaj p) /\
  zero_or_absent (gepiCentsAnnual p) /\
  zero_or_absent (viReajAnnual p).

(** [Number.MAX_SAFE_INTEGER], [2^53 - 1]: up to it the counter [t] of the
    loop is a double and [t++] advances it; at [2^53] the sum [t + 1]
    rounds back to [t]. *)
Definition MAX_SAFE_INTEGER : Z := 9007199254740991.

(** The example of the specification with a base salary of 1e308. *)
Definition example_overflow : Args float := {|
  baseSalary := 1e308%float;
  gepiPointValue := 20%float;
  gepiPoints := 100%float;
  viPerHelpDay := 15%float;
  helpDays := 20%float;
  dependents := 0%float;
  basicAnnualPctReaj := Some 0%float;
  gepiCentsAnnual := Some 0%float;
  viReajAnnual := Some 0%float;
  years := Some 1
|}.

(** ** Persistence (lines 106-111 and 138-140)

    The collection is kept in [localStorage] as JSON text. The host's
    [JSON.stringify], [JSON.parse] and [Storage] are modelled from
    ECMA-262 (25.5, "The JSON Object") and the Web Storage standard.
    A text is a sequence of tokens: the spelling of a literal is left to
    the host, so that a number token stands for the digits
    [Number::toString] prints for a finite double, which read back as the
    same double (ECMA-262, 6.1.6.1.20, note), and a string token for the
    quoted form of a string. The empty text is the empty string. *)

(** The JavaScript values that JSON can meet. *)
#[warnings="-register-all"]
Inductive jsval : Type :=
| JUndefined
| JNull
| JBool (b : bool)
| JNum (x : float)
| JStr (s : string)
| JArr (elements : list jsval)
| JObj (properties : list (string * jsval)).

Inductive token : Type :=
| TLBracket | TRBracket | TLBrace | TRBrace | TColon | TComma
| TNull | TTrue | TFalse
| TNumber (x : float)
| TString (s : string)
| TOther (s : string).          (* anything that is not JSON *)

Definition text : Type := list token.

(** [SerializeJSONProperty] for a number: a finite number prints its
    digits, [-0] as [0]; NaN and the infinities print [null]. *)
Definition number_token (x : float) : token :=
  if PrimFloat.is_finite x
  then if PrimFloat.Leibniz.eqb x PrimFloat.neg_zero
       then TNumber PrimFloat.zero
       else TNumber x
  else TNull.

(** The parts of a list, separated by commas. *)
Fixpoint join (parts : list text) : text :=
  match parts with
  | [] => []
  | [part] => part
  | part :: rest => part ++ TComma :: join rest
  end.

(** [JSON.stringify(value)]: [None] is [undefined]. In an array a value
    without a JSON form is written [null]; in an object its property is
    left out. *)
Fixpoint JSON_stringify (v : jsval) : option text :=
  match v with
  | JUndefined => None
  | JNull => Some [TNull]
  | JBool b => Some [if b then TTrue else TFalse]
  | JNum x => Some [number_token x]
  | JStr s => Some [TString s]
  | JArr elements =>
      Some (TLBracket ::
            join (map (fun e => match JSON_stringify e with
                                | Some t => t
                                | None => [TNull]
                                end) elements)
            ++ [TRBracket])
  | JObj properties =>
      Some (TLBrace ::
            join (flat_map (fun kv => match JSON_stringify (snd kv) with
                                      | Some t => [TString (fst kv) :: TColon :: t]
                                      | None => []
                                      end) properties)
            ++ [TRBrace])
  end.

(** [CreateDataProperty]: a repeated key keeps its place and takes the
    new value. *)
Fixpoint set_property (k : string) (v : jsval) (ps : list (string * jsval))
  : list (string * jsval) :=
  match ps with
  | [] => [(k, v)]
  | (k', v') :: ps' =>
      if String.eqb k' k then (k, v) :: ps' else (k', v') :: set_property k v ps'
  end.

(** The JSON grammar over tokens. [None] is a SyntaxError (or, for the
    fuel, a text longer than the fuel). No JSON text spells NaN or an
    infinity. *)
Fixpoint parse_value (fuel : nat) (ts : text) : option (jsval * text) :=
  match fuel with
  | O => None
  | S fuel' =>
      match ts with
      | TNull :: rest => Some (JNull, rest)
      | TTrue :: rest => Some (JBool true, rest)
      | TFalse :: rest => Some (JBool false, rest)
      | TNumber x :: rest =>
          if PrimFloat.is_finite x then Some (JNum x, rest) else None
      | TString s :: rest => Some (JStr s, rest)
      | TLBracket :: TRBracket :: rest => Some (JArr [], rest)
      | TLBracket :: rest => parse_elements fuel' rest []
      | TLBrace :: TRBrace :: rest => Some (JObj [], rest)
      | TLBrace :: rest => parse_members fuel' rest []
      | _ => None
      end
  end
with parse_elements (fuel : nat) (ts : text) (acc : list jsval)
  : option (jsval * text) :=
  match fuel with
  | O => None
  | S fuel' =>
      match parse_value fuel' ts with
      | Some (v, TComma :: rest) => parse_elements fuel' rest (acc ++ [v])
      | Some (v, TRBracket :: rest) => Some (JArr (acc ++ [v]), rest)
      | _ => None
      end
  end
with parse_members (fuel : nat) (ts : text) (acc : list (string * jsval))
  : option (jsval * text) :=
  match fuel with
  | O => None
  | S fuel' =>
      match ts with
      | TString k :: TColon :: ts' =>
          match parse_value fuel' ts' with
          | Some (v, TComma :: rest) => parse_members fuel' rest (set_property k v acc)
          | Some (v, TRBrace :: rest) => Some (JObj (set_property k v acc), rest)
          | _ => None
          end
      | _ => None
      end
  end.

(** [JSON.parse(text)]: the whole text is one value. *)
Definition JSON_parse (t : text) : option jsval :=
  match parse_value (S (List.length t)) t with
  | Some (v, []) => Some v
  | _ => None
  end.

(** [localStorage]: the text kept under each key, if any. *)
Definition Storage : Type := string -> option text.

Definition getItem (storage : Storage) (key : string) : option text := storage key.

Definition setItem (storage : Storage) (key : string) (value : text) : Storage :=
  fun k => if String.eqb k key then Some value else storage k.

(** A stored scenario as the JavaScript object it is, its properties in
    the order the object literals of lines 114-131 and 146-161 give them;
    a property the scenario lacks is not there. *)
Definition scenario_properties (sc : Scenario float) : list (string * jsval) :=
  let number (k : string) (x : float) := [(k, JNum x)] in
  let optional (k : string) (o : option float) :=
    match o with Some x => [(k, JNum x)] | None => [] end in
  [("id", JStr (id sc)); ("name", JStr (name sc));
   ("levelId", JStr (levelId sc))]%string
  ++ number "dependents"%string (dependents (inputs sc))
  ++ number "helpDays"%string (helpDays (inputs sc))
  ++ number "baseSalary"%string (baseSalary (inputs sc))
  ++ number "gepiPointValue"%string (gepiPointValue (inputs sc))
  ++ number "gepiPoints"%string (gepiPoints (inputs sc))
  ++ number "viPerHelpDay"%string (viPerHelpDay (inputs sc))
  ++ optional "basicAnnualPctReaj"%string (basicAnnualPctReaj (inputs sc))
  ++ optional "gepiCentsAnnual"%string (gepiCentsAnnual (inputs sc))
  ++ optional "viReajAnnual"%string (viReajAnnual (inputs sc))
  ++ optional "years"%string (option_map float_of_Z (years (inputs sc)))
  ++ [("color"%string, JStr (color sc))].

Definition js_of_scenario (sc : Scenario float) : jsval :=
  JObj (scenario_properties sc).

Definition js_of_scenarios (l : list (Scenario float)) : jsval :=
  JArr (map js_of_scenario l).

Section Persistence.
(** The host's [Math.pow], for the default scenario's number reading. *)
Variable host_pow : float -> Z -> float.

Definition STORAGE_KEY : string := "sim_scenarios_v1".

(** The text [String(undefined)], which [setItem] would store if
    [JSON.stringify] returned [undefined]. *)
Definition undefined_text : text := [TOther "undefined"].

(** The effect of lines 138-140:
    [localStorage.setItem("sim_scenarios_v1", JSON.stringify(scenarios))]. *)
Definition persist (storage : Storage) (l : list (Scenario float)) : Storage :=
  setItem storage STORAGE_KEY
          (match JSON_stringify (js_of_scenarios l) with
           | Some t => t
           | None => undefined_text
           end).

(** [if (raw)]: a string is truthy unless it is empty; [null] is not. *)
Definition truthy (raw : option text) : bool :=
  match raw with
  | Some (_ :: _) => true
  | _ => false
  end.

(** What the [try] block of lines 107-110 returns: the parsed text when
    there is one and it parses; nothing when the key is absent, the text
    is empty, or [JSON.parse] throws (the SyntaxError is caught). *)
Definition loaded_scenarios (storage : Storage) : option jsval :=
  let raw := getItem storage STORAGE_KEY in
  if truthy raw then
    match raw with
    | Some t => JSON_parse t
    | None => None
    end
  else None.

(** The initializer of lines 106-133: the loaded collection, else the
    default one. *)
Definition initial_scenarios (storage : Storage) : jsval :=
  or_default (loaded_scenarios storage)
             (js_of_scenarios [defaultScenario (N := Binary64 host_pow)]).

End Persistence.

(** A number JSON writes and reads back as itself: finite, and not [-0]. *)
Definition storable_number (x : float) : Prop :=
  PrimFloat.is_finite x = true /\ x <> PrimFloat.neg_zero.

Definition storable_option (o : option float) : Prop :=
  match o with Some x => storable_number x | None => True end.

(** Every numeric property of the scenario is such a number. *)
Definition storable (sc : Scenario float) : Prop :=
  storable_number (dependents (inputs sc)) /\
  storable_number (helpDays (inputs sc)) /\
  storable_number (baseSalary (inputs sc)) /\
  storable_number (gepiPointValue (inputs sc)) /\
  storable_number (gepiPoints (inputs sc)) /\
  storable_number (viPerHelpDay (inputs sc)) /\
  storable_option (basicAnnualPctReaj (inputs sc)) /\
  storable_option (gepiCentsAnnual (inputs sc)) /\
  storable_option (viReajAnnual (inputs sc)) /\
  storable_option (option_map float_of_Z (years (inputs sc))).

(** Devices of the proofs: a string or a storable number, its token, and
    the text of a property. *)
Definition is_primitive (v : jsval) : Prop :=
  match v with
  | JStr _ => True
  | JNum x => storable_number x
  | _ => False
  end.

Definition primitive_token (v : jsval) : token :=
  match v with
  | JStr s => TString s
  | JNum x => TNumber x
  | _ => TNull
  end.

Definition member_text (kv : string * jsval) : text :=
  [TString (fst kv); TColon; primitive_token (snd kv)].

Definition object_text (ps : list (string * jsval)) : text :=
  TLBrace :: join (map member_text ps) ++ [TRBrace].

(** [value[i]] and [value.key]; [undefined] when there is none. *)
Definition element (i : nat) (v : jsval) : jsval :=
  match v with
  | JArr elements => nth i elements JUndefined
  | _ => JUndefined
  end.

Definition field (key : string) (v : jsval) : jsval :=
  match v with
  | JObj properties =>
      match find (fun kv => String.eqb (fst kv) key) properties with
      | Some kv => snd kv
      | None => JUndefined
      end
  | _ => JUndefined
  end.

(** An empty storage. *)
Definition no_storage : Storage := fun _ => None.

(** The default scenario with a base salary of Infinity, a number that is
    not negative. *)
Definition scenario_unbounded : Scenario float := {|
  id := "atual";
  name := "Cenário Atual";
  levelId := "A1";
  color := "#1f77b4";
  inputs := {|
    dependents := 0%float;
    helpDays := 20%float;
    baseSalary := PrimFloat.infinity;
    gepiPointValue := 20%float;
    gepiPoints := 100%float;
    viPerHelpDay := 15%float;
    basicAnnualPctReaj := Some 0%float;
    gepiCentsAnnual := Some 0%float;
    viReajAnnual := Some 0%float;
    years := Some 30
  |}
|}.

(** ** The order of the doubles

    The comparisons and the arithmetic of IEEE-754 doubles are read off
    the kernel's specification of its primitive floats ([SpecFloat],
    [FloatAxioms]). A double that is not NaN is counted in units of
    [2^-2148]: every finite double, and every exact sum and product of
    two of them, is a whole number of units, and an operation is the
    exact one followed by rounding to nearest, ties to even. *)

(** [q] is [m / P] rounded to the nearest integer, ties to even (as a
    relation: what [round_div] below computes). *)
Definition nearest_even (m P q : Z) : Prop :=
  exists F rem, m = F * P + rem /\ 0 <= rem < P /\
    ((2 * rem < P /\ q = F) \/
     (2 * rem = P /\ q = (if Z.even F then F else F + 1)) \/
     (2 * rem > P /\ q = F + 1)).

(** The exponent of the unit the doubles are counted in: the square of the
    least positive double, so that the exact product of two doubles is a
    whole number of units. *)
Definition UNIT_EXPONENT : Z := 2 * SpecFloat.emin FloatOps.prec FloatOps.emax.

(** Infinity, in units. *)
Definition INFINITY_UNITS : Z := 2 ^ (FloatOps.emax - UNIT_EXPONENT).

Definition signed (s : bool) (v : Z) : Z := if s then - v else v.

(** A double that is not NaN, in units; the two zeros are the same. *)
Definition units_of_spec (x : SpecFloat.spec_float) : option Z :=
  match x with
  | SpecFloat.S754_nan => None
  | SpecFloat.S754_zero _ => Some 0
  | SpecFloat.S754_infinity s => Some (signed s INFINITY_UNITS)
  | SpecFloat.S754_finite s m e => Some (signed s (Zpos m * 2 ^ (e - UNIT_EXPONENT)))
  end.

Definition units (x : float) : option Z := units_of_spec (FloatOps.Prim2SF x).

(** [m / P] rounded to the nearest integer, ties to even. *)
Definition round_div (m P : Z) : Z :=
  let F := m / P in
  let rem := m mod P in
  if 2 * rem <? P then F
  else if 2 * rem =? P then (if Z.even F then F else F + 1)
  else F + 1.

(** Rounding to the nearest double, ties to even, of a whole number of
    units: the value is rounded at the exponent of its binade, and what
    reaches infinity is infinity. *)
Definition round_units (V : Z) : Z :=
  let rounded (v : positive) :=
    let e' := SpecFloat.fexp FloatOps.prec FloatOps.emax
                (Zpos (SpecFloat.digits2_pos v) + UNIT_EXPONENT) in
    let P := 2 ^ (e' - UNIT_EXPONENT) in
    Z.min (round_div (Zpos v) P * P) INFINITY_UNITS in
  match V with
  | Z0 => 0
  | Zpos v => rounded v
  | Zneg v => - rounded v
  end.

(** [r] is the double nearest to [m * 2^e], in units. *)
Definition rounded (m : positive) (e : Z) (r : Z) : Prop :=
  let e' := SpecFloat.fexp FloatOps.prec FloatOps.emax
              (Zpos (SpecFloat.digits2_pos m) + e) in
  e <= e' /\
  exists q, nearest_even (Zpos m) (2 ^ (e' - e)) q /\
            r = Z.min (q * 2 ^ (e' - UNIT_EXPONENT)) INFINITY_UNITS.

(** The sum, the difference and the product of two doubles that are not
    NaN, in units; [None] is NaN. *)
Definition add_units (a b : Z) : option Z :=
  if a =? INFINITY_UNITS then
    if b =? - INFINITY_UNITS then None else Some INFINITY_UNITS
  else if a =? - INFINITY_UNITS then
    if b =? INFINITY_UNITS then None else Some (- INFINITY_UNITS)
  else if b =? INFINITY_UNITS then Some INFINITY_UNITS
  else if b =? - INFINITY_UNITS then Some (- INFINITY_UNITS)
  else Some (round_units (a + b)).

Definition sub_units (a b : Z) : option Z := add_units a (- b).

Definition mul_units (a b : Z) : option Z :=
  if (Z.abs a =? INFINITY_UNITS) || (Z.abs b =? INFINITY_UNITS) then
    if (a =? 0) || (b =? 0) then None
    else Some (Z.sgn a * Z.sgn b * INFINITY_UNITS)
  else Some (round_units (a * b / 2 ^ (- UNIT_EXPONENT))).

(** ** Amounts in doubles: the inputs of the statements *)

(** Inputs that are not negative, with a basic salary that falls by 200%
    a year. *)
Definition example_negative_growth : Args float := {|
  baseSalary := 100%float;
  gepiPointValue := 0%float;
  gepiPoints := 0%float;
  viPerHelpDay := 0%float;
  helpDays := 0%float;
  dependents := 0%float;
  basicAnnualPctReaj := Some (-200)%float;
  gepiCentsAnnual := None;
  viReajAnnual := None;
  years := Some 1
|}.

(** The monetary and count inputs are numbers that are not negative
    ([0 <= x] is false of NaN). *)
Definition inputs_nonneg64 (p : Args float) : Prop :=
  PrimFloat.leb 0 (baseSalary p) = true /\
  PrimFloat.leb 0 (gepiPointValue p) = true /\
  PrimFloat.leb 0 (gepiPoints p) = true /\
  PrimFloat.leb 0 (viPerHelpDay p) = true /\
  PrimFloat.leb 0 (helpDays p) = true /\
  PrimFloat.leb 0 (dependents p) = true.

(** The three growth parameters are numbers that are not negative. *)
Definition growth_nonneg64 (p : Args float) : Prop :=
  PrimFloat.leb 0 (or_default (basicAnnualPctReaj p) 0%float) = true /\
  PrimFloat.leb 0 (or_default (gepiCentsAnnual p) 0%float) = true /\
  PrimFloat.leb 0 (or_default (viReajAnnual p) 0%float) = true.

(** Of two doubles neither is NaN, the first is not negative and the
    second is not less. *)
Definition nonneg_le (x y : float) : Prop :=
  exists a b, units x = Some a /\ units y = Some b /\ 0 <= a <= b.

(** A base salary of zero under a growth rate the doubles cannot raise
    to the second power. *)
Definition example_nan_growth : Args float := {|
  baseSalary := 0%float;
  gepiPointValue := 20%float;
  gepiPoints := 100%float;
  viPerHelpDay := 15%float;
  helpDays := 20%float;
  dependents := 0%float;
  basicAnnualPctReaj := Some 1e308%float;
  gepiCentsAnnual := Some 0%float;
  viReajAnnual := Some 0%float;
  years := Some 2
|}.

(** * Properties *)

(** ** What the loop computes *)

Section Loop.
Context {num : Type} {N : Number num}.
Variable thisYear : Z.

Lemma offsets_length (t : Z) (n : nat) : List.length (offsets t n) = n.
Proof.
  revert t; induction n as [|n IH]; intros t; simpl; [reflexivity|].
  now rewrite IH.
Qed.

Lemma offsets_nth (n : nat) : forall (t : Z) (k : nat),
  (k < n)%nat -> nth_error (offsets t n) k = Some (t + Z.of_nat k).
Proof.
  induction n as [|n IH]; intros t k Hk; [lia|].
  destruct k as [|k]; simpl.
  - f_equal; lia.
  - rewrite IH by lia. f_equal; lia.
Qed.

Lemma pushed_nil (p : Args num) (acc : Projection num) :
  pushed thisYear p acc [] = acc.
Proof.
  destruct acc; unfold pushed; simpl. now rewrite !app_nil_r.
Qed.

Lemma pushed_cons (p : Args num) (acc : Projection num) (t : Z) (ts : list Z) :
  pushed thisYear p acc (t :: ts) = pushed thisYear p (body thisYear p t acc) ts.
Proof.
  unfold pushed, body, push; simpl. now rewrite <- !app_assoc.
Qed.

(** With one unit of fuel more than the iterations left, the loop leaves
    through its guard, having run the body at every remaining offset. *)
Lemma for_loop_runs (p : Args num) :
  forall (fuel : nat) (t : Z) (acc : Projection num),
  (Z.to_nat (years_of p + 1 - t) < fuel)%nat ->
  for_loop thisYear fuel p t acc
  = Some (pushed thisYear p acc (offsets t (Z.to_nat (years_of p + 1 - t)))).
Proof.
  induction fuel as [|fuel IH]; intros t acc Hfuel; [lia|].
  simpl. destruct (Z.leb_spec t (years_of p)) as [Hle|Hgt].
  - rewrite IH by lia.
    replace (Z.to_nat (years_of p + 1 - t))
      with (S (Z.to_nat (years_of p + 1 - (t + 1)))) by lia.
    simpl offsets. now rewrite pushed_cons.
  - replace (Z.to_nat (years_of p + 1 - t)) with O by lia.
    simpl. now rewrite pushed_nil.
Qed.

(** More fuel never changes a result. *)
Lemma for_loop_more_fuel (p : Args num) :
  forall (fuel fuel' : nat) (t : Z) (acc r : Projection num),
  for_loop thisYear fuel p t acc = Some r -> (fuel <= fuel')%nat ->
  for_loop thisYear fuel' p t acc = Some r.
Proof.
  induction fuel as [|fuel IH]; intros fuel' t acc r H Hle; [discriminate|].
  destruct fuel' as [|fuel']; [lia|].
  simpl in *. destruct (t <=? years_of p); [|exact H].
  apply IH with (1 := H); lia.
Qed.

(** [projectScenario] always returns, and its arrays hold the per-year
    values at the offsets [0 .. years]. *)
Lemma projectScenario_returns (p : Args num) :
  projectScenario thisYear p
  = Some {| labels := map (fun t => String_of (thisYear + t)) (offsets 0 (iterations p));
            grossSeries := map (grossAnnual p) (offsets 0 (iterations p));
            netSeries := map (netAnnual p) (offsets 0 (iterations p)) |}.
Proof.
  unfold projectScenario, fuel_of.
  rewrite for_loop_runs by (rewrite Z.sub_0_r; lia).
  rewrite Z.sub_0_r. reflexivity.
Qed.

Lemma at_index_map_offsets {A} (f : Z -> A) (n : nat) (t : Z) :
  0 <= t < Z.of_nat n ->
  at_index (map f (offsets 0 n)) t = Some (f t).
Proof.
  intros Ht. unfold at_index.
  destruct (Z.ltb_spec t 0) as [Hneg|_]; [lia|].
  rewrite nth_error_map, offsets_nth by lia.
  simpl. rewrite Z2Nat.id by lia. reflexivity.
Qed.

Lemma iterations_nonneg (p : Args num) :
  0 <= years_of p -> Z.of_nat (iterations p) = years_of p + 1.
Proof. unfold iterations; lia. Qed.

Lemma iterations_neg (p : Args num) : years_of p < 0 -> iterations p = O.
Proof. unfold iterations; lia. Qed.

(** The result does not depend on the fuel, once there is enough of it. *)
Lemma projectScenario_any_fuel (p : Args num) (fuel : nat) :
  (fuel_of p <= fuel)%nat ->
  for_loop thisYear fuel p 0 empty_projection = projectScenario thisYear p.
Proof.
  intros Hfuel. rewrite projectScenario_returns.
  apply for_loop_more_fuel with (fuel := fuel_of p); [|exact Hfuel].
  apply projectScenario_returns.
Qed.

End Loop.

(** Opens a statement "the call returns some [r] such that ...": the call
    returns, and [r] is the value [projectScenario_returns] gives. *)
Ltac returns_projection :=
  eexists; split; [apply projectScenario_returns|].

(** Reads the entries [arr[t]] of the returned arrays, [t] within the horizon. *)
Ltac read_entries :=
  rewrite !at_index_map_offsets by (rewrite iterations_nonneg; lia).

(** ** Shape of the result, in any reading of numbers *)

Section Shape.
Context {num : Type} {N : Number num}.
Variable thisYear : Z.

(** C3. For a horizon [years >= 0], [projectScenario] returns, and each of
    its three arrays (year labels, gross annual amounts, net annual
    amounts) has [years + 1] elements. *)
Theorem projectScenario_lengths (p : Args num) :
  0 <= years_of p ->
  exists r, projectScenario thisYear p = Some r /\
    Z.of_nat (List.length (labels r)) = years_of p + 1 /\
    Z.of_nat (List.length (grossSeries r)) = years_of p + 1 /\
    Z.of_nat (List.length (netSeries r)) = years_of p + 1.
Proof.
  intros Hy. returns_projection.
  simpl. rewrite !length_map, offsets_length.
  rewrite iterations_nonneg by assumption. auto.
Qed.

(** C4. For [years = 0] each array has exactly one element, and the one
    label is the current calendar year, [String(thisYear)]. *)
Theorem projectScenario_year_zero (p : Args num) :
  years_of p = 0 ->
  exists r, projectScenario thisYear p = Some r /\
    labels r = [String_of thisYear] /\
    grossSeries r = [grossAnnual p 0] /\
    netSeries r = [netAnnual p 0].
Proof.
  intros Hy. returns_projection.
  unfold iterations. rewrite Hy. simpl.
  rewrite Z.add_0_r. auto.
Qed.

(** C10. For a negative horizon the guard [t <= years] fails at [t = 0]:
    the call returns normally with three empty arrays. *)
Theorem projectScenario_negative_years (p : Args num) :
  years_of p < 0 ->
  exists r, projectScenario thisYear p = Some r /\
    labels r = [] /\ grossSeries r = [] /\ netSeries r = [].
Proof.
  intros Hy. returns_projection.
  rewrite iterations_neg by assumption. simpl. auto.
Qed.

(** C2, as the code has it. At every offset [t] from 0 to [years] the gross
    amount returned is twelve times basic salary plus bonus plus the
    allowance [viPerHelpDay * helpDays + viReajAnnual * t]: the annual
    increment enters once, as a flat term, and is not multiplied by the
    day count. *)
Theorem viYear_flat_increment (p : Args num) :
  viYear p = (fun t => viPerHelpDay p * helpDays p + viReajAnnual_of p * of_Z t)%num /\
  exists r, projectScenario thisYear p = Some r /\
    forall t, 0 <= t <= years_of p ->
      at_index (grossSeries r) t
      = Some ((basicYear p t + gepiTotalYear p t
               + (viPerHelpDay p * helpDays p + viReajAnnual_of p * of_Z t))
              * lit 12)%num.
Proof.
  split; [reflexivity|].
  returns_projection.
  intros t Ht. simpl.
  read_entries.
  reflexivity.
Qed.

End Shape.

(** Witnesses at the worked example, year 2026, exact reading. *)

Lemma projectScenario_lengths_witness :
  0 <= years_of (example_args (N := ExactNumber)) /\
  exists r, projectScenario 2026 (example_args (N := ExactNumber)) = Some r /\
    Z.of_nat (List.length (labels r)) = 1 + 1 /\
    Z.of_nat (List.length (grossSeries r)) = 1 + 1 /\
    Z.of_nat (List.length (netSeries r)) = 1 + 1.
Proof.
  assert (H : 0 <= years_of (example_args (N := ExactNumber))) by (unfold years_of, example_args; simpl; lia).
  split; [exact H|].
  exact (projectScenario_lengths 2026 (example_args (N := ExactNumber)) H).
Defined.

Lemma projectScenario_year_zero_witness :
  let p := {| baseSalary := 9000%Q; gepiPointValue := 20.0%Q; gepiPoints := 100%Q;
              viPerHelpDay := 15.0%Q; helpDays := 20%Q; dependents := 0%Q;
              basicAnnualPctReaj := None; gepiCentsAnnual := None;
              viReajAnnual := None; years := Some 0 |} in
  years_of p = 0 /\
  exists r, projectScenario 2026 p = Some r /\
    labels r = ["2026"%string] /\
    grossSeries r = [grossAnnual p 0] /\
    netSeries r = [netAnnual p 0].
Proof.
  intros p. split; [reflexivity|].
  exact (projectScenario_year_zero 2026 p eq_refl).
Defined.

Lemma projectScenario_negative_years_witness :
  let p := {| baseSalary := 9000%Q; gepiPointValue := 20.0%Q; gepiPoints := 100%Q;
              viPerHelpDay := 15.0%Q; helpDays := 20%Q; dependents := 0%Q;
              basicAnnualPctReaj := None; gepiCentsAnnual := None;
              viReajAnnual := None; years := Some (-3) |} in
  years_of p < 0 /\
  exists r, projectScenario 2026 p = Some r /\
    labels r = [] /\ grossSeries r = [] /\ netSeries r = [].
Proof.
  intros p. split; [reflexivity|].
  exact (projectScenario_negative_years 2026 p eq_refl).
Defined.

Lemma viYear_flat_increment_witness :
  (0 <= 1 <= years_of (example_vi_growth (N := ExactNumber))) /\
  exists r, projectScenario 2026 (example_vi_growth (N := ExactNumber)) = Some r /\
    at_index (grossSeries r) 1
    = Some ((basicYear example_vi_growth 1 + gepiTotalYear example_vi_growth 1
             + (15.0 * 20 + 1 * inject_Z 1)) * 12)%Q.
Proof.
  assert (H : 0 <= 1 <= years_of (example_vi_growth (N := ExactNumber)))
    by (unfold years_of, example_vi_growth; simpl; lia).
  split; [exact H|].
  destruct (viYear_flat_increment 2026 (example_vi_growth (N := ExactNumber)))
    as [_ [r [Hr Hall]]].
  exists r. split; [exact Hr|]. exact (Hall 1 H).
Defined.

(** C2, as the specification words it, fails: with a per-diem rate of 15,
    20 days and an increment of 1 a year, the allowance at [t = 1] is
    [15*20 + 1 = 301], not [(15+1)*20 + 1 = 321], and the gross amount
    returned for that year is [12 * (9000 + 2000 + 301) = 135612]. *)
Lemma viYear_increment_not_doubled :
  exists r g,
    projectScenario 2026 (example_vi_growth (N := ExactNumber)) = Some r /\
    (0 <= 1 <= years_of (example_vi_growth (N := ExactNumber))) /\
    (viYear example_vi_growth 1 == 301)%Q /\
    (viYear_as_specified example_vi_growth 1 == 321)%Q /\
    ~ (viYear example_vi_growth 1 == viYear_as_specified example_vi_growth 1)%Q /\
    at_index (grossSeries r) 1 = Some g /\ (g == 135612)%Q /\
    ~ (g == (basicYear example_vi_growth 1 + gepiTotalYear example_vi_growth 1
             + viYear_as_specified example_vi_growth 1) * 12)%Q.
Proof.
  eexists; eexists. split; [vm_compute; reflexivity|].
  split; [unfold years_of, example_vi_growth; simpl; lia|].
  repeat split; try (vm_compute; reflexivity); vm_compute; discriminate.
Qed.

(** ** The worked example *)

Set Warnings "-inexact-float".

(** The literals of the source, read as doubles, are the doubles the
    language's own parser picks. *)
Lemma literals_nearest_double :
  float_of_literal 0.14 = 0.14%float /\
  float_of_literal 0.15 = 0.15%float /\
  float_of_literal 189.59 = 189.59%float /\
  float_of_literal 0 = 0%float /\
  float_of_literal 1 = 1%float /\
  float_of_literal 12 = 12%float /\
  float_of_literal 100 = 100%float /\
  float_of_literal 15.0 = 15%float /\
  float_of_literal 20.0 = 20%float /\
  float_of_literal 9000 = 9000%float.
Proof. repeat split. Qed.

Section WorkedExample.
Variable thisYear : Z.
Variable host_pow : float -> Z -> float.
(** ECMAScript fixes [Math.pow(b, 0)] to 1 for every [b]. *)
Hypothesis host_pow_zero : forall b, host_pow b 0 = PrimFloat.one.

Local Abbreviation B64 := (Binary64 host_pow).
Local Abbreviation example64 := (example_args (N := B64)).
Local Abbreviation exampleQ := (example_args (N := ExactNumber)).

Lemma grossAnnual_example_binary64 :
  grossAnnual (N := B64) example64 0 = 135600%float.
Proof.
  unfold grossAnnual, grossMonthly, basicYear.
  cbn [Math_pow Binary64]. rewrite host_pow_zero. reflexivity.
Qed.

Lemma netAnnual_example_binary64 :
  netAnnual (N := B64) example64 0 = 99123.6%float.
Proof.
  unfold netAnnual, ir, taxable, previd.
  rewrite grossAnnual_example_binary64. reflexivity.
Qed.

(** C1. For base salary 9000, point value 20.0, 100 points, per-diem 15.0,
    20 days, no dependents, no growth and [years = 1], [projectScenario]
    returns series of length two whose year-0 entry has gross annual 135600
    and net annual 99123.6: in exact arithmetic, where gross monthly is
    11300, the social-contribution deduction 18984, the taxable base 116616
    and the income tax 17492.4; and in IEEE-754 doubles, where the two
    returned amounts are the doubles 135600 and 99123.6. *)
Theorem worked_example :
  (exists r g n,
     projectScenario thisYear exampleQ = Some r /\
     List.length (labels r) = 2%nat /\
     List.length (grossSeries r) = 2%nat /\
     List.length (netSeries r) = 2%nat /\
     at_index (grossSeries r) 0 = Some g /\ (g == 135600)%Q /\
     at_index (netSeries r) 0 = Some n /\ (n == 99123.6)%Q /\
     (grossMonthly exampleQ 0 == 11300)%Q /\
     (previd exampleQ 0 == 18984)%Q /\
     (taxable exampleQ 0 == 116616)%Q /\
     (ir exampleQ 0 == 17492.4)%Q) /\
  (exists r,
     projectScenario (N := B64) thisYear example64 = Some r /\
     List.length (labels r) = 2%nat /\
     List.length (grossSeries r) = 2%nat /\
     List.length (netSeries r) = 2%nat /\
     at_index (grossSeries r) 0 = Some 135600%float /\
     at_index (netSeries r) 0 = Some 99123.6%float).
Proof.
  split.
  - exists {| labels := map (fun t => String_of (thisYear + t)) [0; 1];
              grossSeries := map (grossAnnual exampleQ) [0; 1];
              netSeries := map (netAnnual exampleQ) [0; 1] |}.
    exists (grossAnnual exampleQ 0), (netAnnual exampleQ 0).
    split; [apply projectScenario_returns|].
    repeat split.
  - returns_projection.
    change (iterations example64) with 2%nat.
    cbn [offsets map labels grossSeries netSeries List.length at_index
         Z.ltb Z.compare Z.to_nat nth_error].
    rewrite grossAnnual_example_binary64, netAnnual_example_binary64.
    repeat split.
Qed.

End WorkedExample.

Lemma worked_example_witness :
  (forall b, pow_by_mul b 0 = PrimFloat.one) /\
  exists r,
    projectScenario (N := Binary64 pow_by_mul) 2026
      (example_args (N := Binary64 pow_by_mul)) = Some r /\
    at_index (labels r) 0 = Some "2026"%string /\
    at_index (grossSeries r) 0 = Some 135600%float /\
    at_index (netSeries r) 0 = Some 99123.6%float.
Proof.
  assert (H : forall b, pow_by_mul b 0 = PrimFloat.one) by (intros b; reflexivity).
  split; [exact H|].
  destruct (worked_example 2026 pow_by_mul H) as [_ [r (Hr & _ & _ & _ & Hg & Hn)]].
  exists r. split; [exact Hr|]. split; [|split; assumption].
  rewrite projectScenario_returns in Hr.
  injection Hr as <-. reflexivity.
Defined.

(** In doubles the intermediate income tax of the example is one unit in
    the last place below the double nearest to 17492.4; the net amount
    returned is not affected. *)
Remark ir_example_binary64 :
  ir (N := Binary64 pow_by_mul) (example_args (N := Binary64 pow_by_mul)) 0 = 17492.399999999998%float /\
  PrimFloat.eqb (ir (N := Binary64 pow_by_mul) (example_args (N := Binary64 pow_by_mul)) 0) 17492.4%float = false.
Proof. split; reflexivity. Qed.

(** ** Removing a scenario *)

Section Removal.
Context {num : Type} {N : Number num}.

(** [scenarios.filter(s => s.id !== id)] keeps a list that lacks [id]. *)
Lemma filter_keeps_all (l : list (Scenario num)) (id0 : string) :
  ~ In id0 (map id l) ->
  filter (fun s => negb (String.eqb (id s) id0)) l = l.
Proof.
  induction l as [|s l IH]; intros Hnot; [reflexivity|].
  simpl in *. destruct (String.eqb_spec (id s) id0) as [Heq|Hne]; simpl.
  - exfalso; apply Hnot; now left.
  - f_equal. apply IH. intros Hin; apply Hnot; now right.
Qed.

(** With distinct identifiers, the filter drops the one entry carrying the
    identifier and keeps the others in order. *)
Lemma filter_drops_one (l : list (Scenario num)) (sc : Scenario num) :
  NoDup (map id l) -> In sc l ->
  exists before after,
    l = before ++ sc :: after /\
    filter (fun s => negb (String.eqb (id s) (id sc))) l = before ++ after.
Proof.
  intros Hnodup Hin.
  destruct (in_split _ _ Hin) as (before & after & ->).
  exists before, after. split; [reflexivity|].
  rewrite map_app in Hnodup. simpl in Hnodup.
  pose proof (NoDup_remove_2 _ _ _ Hnodup) as Hfresh.
  rewrite in_app_iff in Hfresh.
  rewrite filter_app. simpl. rewrite String.eqb_refl. simpl.
  rewrite !filter_keeps_all by tauto. reflexivity.
Qed.

Lemma removeScenario_scenarios (st : AppState num) (id0 : string) :
  scenarios (removeScenario st id0)
  = filter (fun s => negb (String.eqb (id s) id0)) (scenarios st).
Proof. reflexivity. Qed.

Lemma selected_is_iff (st : AppState num) (id0 : string) :
  selected_is st id0 = true <-> selectedId st = Some id0.
Proof.
  unfold selected_is. destruct (selectedId st) as [s|]; [|split; discriminate].
  destruct (String.eqb_spec s id0); split; congruence.
Qed.

Lemma clickRemover_other (st : AppState num) (sc : Scenario num) :
  id sc <> "atual"%string -> clickRemover st sc = removeScenario st (id sc).
Proof.
  intros Hne. unfold clickRemover, removerOnClick.
  destruct (String.eqb_spec (id sc) "atual"%string); [contradiction|reflexivity].
Qed.

(** The filter keeps exactly the scenarios that do not carry the
    identifier. *)
Lemma removed_In (st : AppState num) (id0 : string) (s : Scenario num) :
  In s (scenarios (removeScenario st id0)) <-> In s (scenarios st) /\ id s <> id0.
Proof.
  unfold removeScenario. cbn [scenarios]. rewrite filter_In.
  destruct (String.eqb_spec (id s) id0); simpl; intuition congruence.
Qed.

Lemma removed_selection (st : AppState num) (id0 : string) :
  (selectedId st = Some id0 ->
   selectedId (removeScenario st id0)
   = match scenarios (removeScenario st id0) with
     | [] => None
     | first :: _ => Some (id first)
     end) /\
  (selectedId st <> Some id0 ->
   selectedId (removeScenario st id0) = selectedId st).
Proof.
  unfold removeScenario. cbn [scenarios selectedId]. split; intros Hsel.
  - apply selected_is_iff in Hsel. rewrite Hsel.
    destruct (filter _ (scenarios st)); reflexivity.
  - destruct (selected_is st id0) eqn:E; [|reflexivity].
    apply selected_is_iff in E. contradiction.
Qed.

(** C8, as the code has it. [removeScenario(id)] has no guard: it removes
    every scenario carrying [id], "atual" included, and keeps the others
    in order. The protection of "atual" is that its row renders no
    "Remover" button. The button of any other row calls
    [removeScenario(sc.id)]: with distinct identifiers that removes exactly
    the one entry of the row. If the removed identifier was the selected
    one, the selection becomes the first remaining scenario, or none when
    nothing remains; otherwise the selection stays. *)
Theorem remover_removes_by_id (st : AppState num) (sc : Scenario num) :
  (id sc = "atual"%string -> removerOnClick sc = None) /\
  (id sc <> "atual"%string ->
   removerOnClick sc = Some (fun st0 => removeScenario st0 (id sc))) /\
  (forall id0 s,
     In s (scenarios (removeScenario st id0)) <-> In s (scenarios st) /\ id s <> id0) /\
  (forall id0,
     scenarios (removeScenario st id0)
     = filter (fun s => negb (String.eqb (id s) id0)) (scenarios st)) /\
  (NoDup (map id (scenarios st)) -> In sc (scenarios st) ->
   exists before after,
     scenarios st = before ++ sc :: after /\
     scenarios (removeScenario st (id sc)) = before ++ after) /\
  (forall id0,
     (selectedId st = Some id0 ->
      selectedId (removeScenario st id0)
      = match scenarios (removeScenario st id0) with
        | [] => None
        | first :: _ => Some (id first)
        end) /\
     (selectedId st <> Some id0 ->
      selectedId (removeScenario st id0) = selectedId st)).
Proof.
  split; [|split; [|split; [|split; [|split]]]].
  - intros Hid. unfold removerOnClick. now rewrite Hid.
  - intros Hne. unfold removerOnClick.
    destruct (String.eqb_spec (id sc) "atual"); [contradiction|reflexivity].
  - intros id0 s. apply removed_In.
  - reflexivity.
  - intros Hnodup Hin.
    destruct (filter_drops_one _ _ Hnodup Hin) as (before & after & Hsplit & Hfilter).
    exists before, after. split; [exact Hsplit|exact Hfilter].
  - intros id0. apply removed_selection.
Qed.

End Removal.

(** The starting collection with one scenario added and selected. *)
Lemma remover_removes_by_id_witness :
  let st := {| scenarios := [defaultScenario (N := ExactNumber); added_scenario];
               selectedId := Some "c_1700000000000"%string |} in
  id (added_scenario (N := ExactNumber)) <> "atual"%string /\
  NoDup (map id (scenarios st)) /\ In added_scenario (scenarios st) /\
  removerOnClick (defaultScenario (N := ExactNumber)) = None /\
  removerOnClick (added_scenario (N := ExactNumber))
  = Some (fun st0 => removeScenario st0 (id (added_scenario (N := ExactNumber)))) /\
  (exists before after,
     scenarios st = before ++ added_scenario :: after /\
     scenarios (removeScenario st (id (added_scenario (N := ExactNumber))))
     = before ++ after) /\
  selectedId (removeScenario st "c_1700000000000") = Some "atual"%string.
Proof.
  intros st.
  assert (Hne : id (added_scenario (N := ExactNumber)) <> "atual"%string) by discriminate.
  assert (Hnd : NoDup (map id (scenarios st)))
    by (repeat constructor; simpl; intuition discriminate).
  assert (Hin : In added_scenario (scenarios st)) by (right; left; reflexivity).
  destruct (remover_removes_by_id st added_scenario)
    as (_ & Hbtn & _ & _ & Hone & Hsel).
  destruct (remover_removes_by_id st defaultScenario) as (Hnone & _).
  split; [exact Hne|]. split; [exact Hnd|]. split; [exact Hin|].
  split; [exact (Hnone eq_refl)|]. split; [exact (Hbtn Hne)|].
  split; [exact (Hone Hnd Hin)|].
  exact (proj1 (Hsel "c_1700000000000"%string) eq_refl).
Defined.

(** C8, as the specification words it, fails twice. Called with "atual",
    [removeScenario] empties the default collection instead of leaving it
    unchanged. And two scenarios added within one millisecond share an
    identifier, so that one click on "Remover" removes both. *)
Lemma remover_not_exactly_one :
  scenarios (removeScenario (initialState (N := ExactNumber) None) "atual") = [] /\
  exists st st',
    st = run (initialState (N := ExactNumber) None)
             [EvAdd 30 1700000000000; EvAdd 30 1700000000000] /\
    handle st (EvRemover 1) = Some st' /\
    List.length (scenarios st) = 3%nat /\
    List.length (scenarios st') = 1%nat.
Proof.
  split; [reflexivity|].
  eexists; eexists. split; [reflexivity|]. split; [reflexivity|]. split; reflexivity.
Qed.

(** [removeScenario] itself has no guard: the protection of "atual" lies
    in the rendering alone. *)
Remark removeScenario_unguarded :
  scenarios (removeScenario
               {| scenarios := [defaultScenario (N := ExactNumber)];
                  selectedId := Some "atual"%string |}
               "atual")
  = [].
Proof. reflexivity. Qed.

(** * Further properties of the engine *)

Section Labels.
Context {num : Type} {N : Number num}.
Variable thisYear : Z.

(** [String(n)] tells integers apart. *)
Lemma String_of_inj (a b : Z) : String_of a = String_of b -> a = b.
Proof.
  unfold String_of. intros H.
  assert (Hnil : forall z, Z.to_int z <> Decimal.Pos Decimal.Nil
                           /\ Z.to_int z <> Decimal.Neg Decimal.Nil).
  { intros z; split; intros E; pose proof (f_equal Z.of_int E) as E';
      rewrite DecimalZ.of_to in E'; simpl in E'; subst z; discriminate E. }
  apply DecimalZ.to_int_inj.
  assert (E : Some (Z.to_int a) = Some (Z.to_int b)).
  { rewrite <- (NilZero.isi (Z.to_int a)) by apply Hnil.
    rewrite <- (NilZero.isi (Z.to_int b)) by apply Hnil.
    now rewrite H. }
  now injection E.
Qed.

Lemma offsets_lower (n : nat) : forall t x, In x (offsets t n) -> t <= x.
Proof.
  induction n as [|n IH]; intros t x; simpl; [tauto|].
  intros [<-|Hin]; [lia|]. apply IH in Hin. lia.
Qed.

Lemma offsets_NoDup (n : nat) : forall t, NoDup (offsets t n).
Proof.
  induction n as [|n IH]; intros t; simpl; constructor; [|apply IH].
  intros Hin. apply offsets_lower in Hin. lia.
Qed.

Lemma offsets_app (n m : nat) : forall t,
  offsets t (n + m) = offsets t n ++ offsets (t + Z.of_nat n) m.
Proof.
  induction n as [|n IH]; intros t; simpl.
  - now rewrite Z.add_0_r.
  - rewrite IH. do 3 f_equal. lia.
Qed.

(** X1. The label of offset [t] is [String(thisYear + t)], and no two
    labels of a result are equal. *)
Theorem labels_consecutive_distinct (p : Args num) :
  exists r, projectScenario thisYear p = Some r /\
    (forall t, 0 <= t <= years_of p ->
       at_index (labels r) t = Some (String_of (thisYear + t))) /\
    NoDup (labels r).
Proof.
  returns_projection. simpl. split.
  - intros t Ht. read_entries. reflexivity.
  - apply NoDup_map_NoDup_ForallPairs; [|apply offsets_NoDup].
    intros a b _ _ E. apply String_of_inj in E. lia.
Qed.

(** X2. A longer horizon only appends: the entries of the shorter
    projection are the first entries of the longer one. *)
Theorem horizon_extension (p : Args num) (y y' : Z) :
  y <= y' ->
  exists r r' more,
    projectScenario thisYear (with_years p y) = Some r /\
    projectScenario thisYear (with_years p y') = Some r' /\
    labels r' = labels r ++ labels more /\
    grossSeries r' = grossSeries r ++ grossSeries more /\
    netSeries r' = netSeries r ++ netSeries more.
Proof.
  intros Hle.
  set (n := Z.to_nat (y + 1)). set (m := Z.to_nat (y' + 1)).
  assert (Hm : m = (n + (m - n))%nat) by (unfold n, m; lia).
  exists {| labels := map (fun t => String_of (thisYear + t)) (offsets 0 n);
            grossSeries := map (grossAnnual p) (offsets 0 n);
            netSeries := map (netAnnual p) (offsets 0 n) |}.
  exists {| labels := map (fun t => String_of (thisYear + t)) (offsets 0 m);
            grossSeries := map (grossAnnual p) (offsets 0 m);
            netSeries := map (netAnnual p) (offsets 0 m) |}.
  exists {| labels := map (fun t => String_of (thisYear + t))
                          (offsets (0 + Z.of_nat n) (m - n));
            grossSeries := map (grossAnnual p) (offsets (0 + Z.of_nat n) (m - n));
            netSeries := map (netAnnual p) (offsets (0 + Z.of_nat n) (m - n)) |}.
  split; [apply (projectScenario_returns thisYear (with_years p y))|].
  split; [apply (projectScenario_returns thisYear (with_years p y'))|].
  simpl. rewrite <- !map_app, <- offsets_app, <- Hm. auto.
Qed.

End Labels.

Lemma horizon_extension_witness :
  1 <= 3 /\
  exists r r' more,
    projectScenario 2026 (with_years (example_vi_growth (N := ExactNumber)) 1) = Some r /\
    projectScenario 2026 (with_years (example_vi_growth (N := ExactNumber)) 3) = Some r' /\
    labels r' = labels r ++ labels more /\
    grossSeries r' = grossSeries r ++ grossSeries more /\
    netSeries r' = netSeries r ++ netSeries more.
Proof.
  assert (H : 1 <= 3) by lia.
  split; [exact H|].
  exact (horizon_extension 2026 (example_vi_growth (N := ExactNumber)) H).
Defined.

(** * Properties of the scenario collection *)

Section CollectionProperties.
Context {num : Type} {N : Number num}.

(** X6. [pickColor] never leaves the palette, repeats with period 8, and
    gives two counts the same colour only if they agree modulo 8. *)
Theorem pickColor_cycles (i : nat) :
  In (pickColor i) palette /\
  pickColor (i + 8) = pickColor i /\
  forall j, pickColor i = pickColor j -> (i mod 8 = j mod 8)%nat.
Proof.
  unfold pickColor. change (List.length palette) with 8%nat.
  assert (Hi : (i mod 8 < 8)%nat) by (apply Nat.mod_upper_bound; discriminate).
  split; [apply nth_In; exact Hi|]. split.
  - replace (i + 8)%nat with (i + 1 * 8)%nat by lia.
    now rewrite Nat.Div0.mod_add.
  - intros j Hj.
    assert (Hnd : NoDup palette)
      by (repeat constructor; simpl; intuition discriminate).
    rewrite NoDup_nth in Hnd. apply (Hnd _ _ Hi); [|exact Hj].
    apply Nat.mod_upper_bound; discriminate.
Qed.

Lemma added_id_not_atual (now : Z) :
  ("c_" ++ String_of now)%string <> "atual"%string.
Proof. simpl. discriminate. Qed.

Lemma find_fresh (l : list (Scenario num)) (sid : string) :
  ~ In sid (map id l) -> find (fun s => String.eqb (id s) sid) l = None.
Proof.
  induction l as [|s l IH]; intros Hnot; [reflexivity|].
  simpl in *. destruct (String.eqb_spec (id s) sid) as [Heq|Hne].
  - exfalso; apply Hnot; now left.
  - apply IH. intros Hin; apply Hnot; now right.
Qed.

Lemma find_app_fresh (l : list (Scenario num)) (sc : Scenario num) :
  ~ In (id sc) (map id l) ->
  find (fun s => String.eqb (id s) (id sc)) (l ++ [sc]) = Some sc.
Proof.
  induction l as [|s l IH]; intros Hnot; simpl in *.
  - now rewrite String.eqb_refl.
  - destruct (String.eqb_spec (id s) (id sc)) as [Heq|Hne].
    + exfalso; apply Hnot; now left.
    + apply IH. intros Hin; apply Hnot; now right.
Qed.

(** What [addScenario] returns. *)
Lemma addScenario_result (yearsGlobal now : Z) (st : AppState num) :
  exists sc,
    addScenario yearsGlobal now st
    = Some {| scenarios := scenarios st ++ [sc]; selectedId := Some (id sc) |} /\
    id sc = ("c_" ++ String_of now)%string /\
    years (inputs sc) = Some yearsGlobal /\
    color sc = pickColor (List.length (scenarios st)).
Proof.
  unfold addScenario. simpl nth_error. cbv zeta.
  eexists. split; [do 2 f_equal; reflexivity|]. repeat split.
Qed.

Lemma added_row_has_button (sc : Scenario num) (now : Z) :
  id sc = ("c_" ++ String_of now)%string ->
  removerOnClick sc = Some (fun st => removeScenario st (id sc)).
Proof.
  intros Hid. unfold removerOnClick. rewrite Hid.
  destruct (String.eqb_spec ("c_" ++ String_of now) "atual") as [E|_];
    [now apply added_id_not_atual in E|reflexivity].
Qed.

(** X7. [addScenario] always succeeds: it appends one scenario, keeps the
    others in place, and selects the new one by an identifier made of the
    clock reading. The new row has a "Remover" button, and the form shows
    the new scenario provided no older scenario carries its identifier. *)
Theorem addScenario_appends (yearsGlobal now : Z) (st : AppState num) :
  exists sc st',
    addScenario yearsGlobal now st = Some st' /\
    scenarios st' = scenarios st ++ [sc] /\
    selectedId st' = Some (id sc) /\
    id sc = ("c_" ++ String_of now)%string /\
    years (inputs sc) = Some yearsGlobal /\
    color sc = pickColor (List.length (scenarios st)) /\
    removerOnClick sc <> None /\
    (~ In (id sc) (map id (scenarios st)) -> selectedScenario st' = Some sc).
Proof.
  destruct (addScenario_result yearsGlobal now st) as (sc & Hadd & Hid & Hy & Hc).
  exists sc. eexists. split; [exact Hadd|]. cbn [scenarios selectedId].
  repeat (split; [first [reflexivity|assumption]|]). split.
  - rewrite (added_row_has_button sc now Hid). discriminate.
  - intros Hfresh. unfold selectedScenario. cbn [selectedId scenarios].
    now rewrite (find_app_fresh _ sc Hfresh).
Qed.

(** X8. Adding a scenario and clicking "Remover" in its row gives back
    the collection as it was, with the first scenario (or none) selected,
    provided no older scenario carries the identifier of the added one. *)
Theorem add_then_remove (yearsGlobal now : Z) (st : AppState num) :
  ~ In ("c_" ++ String_of now)%string (map id (scenarios st)) ->
  exists st' st'',
    addScenario yearsGlobal now st = Some st' /\
    handle st' (EvRemover (List.length (scenarios st))) = Some st'' /\
    scenarios st'' = scenarios st /\
    selectedId st'' = option_map id (hd_error (scenarios st)).
Proof.
  intros Hfresh.
  destruct (addScenario_result yearsGlobal now st) as (sc & Hadd & Hid & _).
  eexists; eexists. split; [exact Hadd|].
  unfold handle. cbn [scenarios selectedId].
  rewrite nth_error_app2, Nat.sub_diag by lia. simpl nth_error. cbv iota beta.
  rewrite (added_row_has_button sc now Hid).
  split; [reflexivity|].
  assert (Hfilter : filter (fun s => negb (String.eqb (id s) (id sc)))
                           (scenarios st ++ [sc]) = scenarios st).
  { rewrite filter_app. simpl. rewrite String.eqb_refl. simpl.
    rewrite app_nil_r. apply filter_keeps_all. now rewrite Hid. }
  unfold removeScenario, selected_is. cbn [scenarios selectedId].
  rewrite Hfilter, String.eqb_refl. auto.
Qed.

Lemma spread_keeps_id (it : Scenario num) (patch : Patch.t num) :
  Patch.id patch = None -> id (spread it patch) = id it.
Proof. intros H. unfold spread. cbn [id]. now rewrite H. Qed.

Lemma updated_id (id0 : string) (patch : Patch.t num) (it : Scenario num) :
  Patch.id patch = None ->
  id (if String.eqb (id it) id0 then spread it patch else it) = id it.
Proof.
  intros H. destruct (String.eqb (id it) id0); [now apply spread_keeps_id|reflexivity].
Qed.

Lemma updated_ids (st : AppState num) (id0 : string) (patch : Patch.t num) :
  Patch.id patch = None ->
  map id (scenarios (updateScenario st id0 patch)) = map id (scenarios st).
Proof.
  intros Hid. unfold updateScenario. cbn [scenarios].
  rewrite map_map. apply map_ext. intros it. now apply updated_id.
Qed.

(** X9. [updateScenario] with a patch that carries no [id] keeps the
    identifiers, their order and the selection; it replaces every scenario
    carrying the identifier by its patched copy and leaves the others. *)
Theorem updateScenario_keeps_shape (st : AppState num) (id0 : string)
    (patch : Patch.t num) :
  Patch.id patch = None ->
  map id (scenarios (updateScenario st id0 patch)) = map id (scenarios st) /\
  selectedId (updateScenario st id0 patch) = selectedId st /\
  forall row sc, nth_error (scenarios st) row = Some sc ->
    nth_error (scenarios (updateScenario st id0 patch)) row
    = Some (if String.eqb (id sc) id0 then spread sc patch else sc).
Proof.
  intros Hid.
  split; [now apply updated_ids|]. split; [reflexivity|].
  intros row sc Hrow. unfold updateScenario. cbn [scenarios].
  rewrite nth_error_map, Hrow. reflexivity.
Qed.

(** X10. [updateScenario] for an identifier that no scenario carries
    changes nothing. *)
Theorem updateScenario_unknown_id (st : AppState num) (id0 : string)
    (patch : Patch.t num) :
  ~ In id0 (map id (scenarios st)) -> updateScenario st id0 patch = st.
Proof.
  intros Hnot. destruct st as [l sel]. unfold updateScenario. cbn [scenarios selectedId] in *.
  f_equal. induction l as [|s l IH]; [reflexivity|].
  simpl in *. destruct (String.eqb_spec (id s) id0) as [Heq|Hne].
  - exfalso; apply Hnot; now left.
  - f_equal. apply IH. intros Hin; apply Hnot; now right.
Qed.

End CollectionProperties.

(** ** The selected scenario and what a session keeps *)

Section Session.
Context {num : Type} {N : Number num}.

Lemma selectedScenario_cases (st : AppState num) :
  (selectedScenario st = None <-> scenarios st = []) /\
  forall sc, selectedScenario st = Some sc ->
    In sc (scenarios st) /\
    (selectedId st = Some (id sc) \/
     (hd_error (scenarios st) = Some sc /\
      forall s, In s (scenarios st) -> selectedId st <> Some (id s))).
Proof.
  unfold selectedScenario.
  destruct (selectedId st) as [sid|] eqn:Esel.
  - destruct (find (fun s => String.eqb (id s) sid) (scenarios st)) as [s|] eqn:Efind.
    + apply find_some in Efind. destruct Efind as [Hin Heq].
      apply String.eqb_eq in Heq. split.
      * split; [discriminate|]. intros E. rewrite E in Hin. contradiction.
      * intros sc [= <-]. split; [exact Hin|]. left. now rewrite Heq.
    + split.
      * destruct (scenarios st); simpl; split; congruence.
      * intros sc Hhd. split.
        -- destruct (scenarios st) as [|s l]; [discriminate|].
           injection Hhd as <-. now left.
        -- right. split; [exact Hhd|].
           intros s Hin [= E]. pose proof (find_none _ _ Efind s Hin) as Hs.
           simpl in Hs. rewrite E, String.eqb_refl in Hs. discriminate.
  - split.
    + destruct (scenarios st); simpl; split; congruence.
    + intros sc Hhd. split.
      * destruct (scenarios st) as [|s l]; [discriminate|].
        injection Hhd as <-. now left.
      * right. split; [exact Hhd|]. intros s _. discriminate.
Qed.

Lemma find_first {A} (f : A -> bool) (l : list A) (x : A) :
  find f l = Some x ->
  exists before after,
    l = before ++ x :: after /\ f x = true /\
    forall y, In y before -> f y = false.
Proof.
  induction l as [|a l IH]; simpl; [discriminate|].
  destruct (f a) eqn:Ea.
  - intros [= <-]. exists [], l. split; [reflexivity|]. split; [exact Ea|].
    intros y [].
  - intros H. destruct (IH H) as (before & after & -> & Hx & Hall).
    exists (a :: before), after. split; [reflexivity|]. split; [exact Hx|].
    intros y [<-|Hy]; [exact Ea|now apply Hall].
Qed.

(** X11. [selectedScenario] is absent exactly when the collection is
    empty. Otherwise it is a scenario of the collection: the first one
    carrying [selectedId] (no scenario before it in the list carries it),
    or, when none does, the first scenario. *)
Theorem selectedScenario_fallback (st : AppState num) :
  (selectedScenario st = None <-> scenarios st = []) /\
  forall sc, selectedScenario st = Some sc ->
    (exists before after,
       scenarios st = before ++ sc :: after /\
       selectedId st = Some (id sc) /\
       forall s, In s before -> id s <> id sc) \/
    (hd_error (scenarios st) = Some sc /\
     forall s, In s (scenarios st) -> selectedId st <> Some (id s)).
Proof.
  split; [exact (proj1 (selectedScenario_cases st))|].
  intros sc Hsc. unfold selectedScenario in Hsc.
  destruct (selectedId st) as [sid|] eqn:Esel.
  - destruct (find (fun s => String.eqb (id s) sid) (scenarios st)) as [s|] eqn:Efind.
    + injection Hsc as <-. left.
      destruct (find_first _ _ Efind) as (before & after & Hl & Hs & Hall).
      apply String.eqb_eq in Hs.
      exists before, after. split; [exact Hl|]. split; [now rewrite Hs|].
      intros y Hy E. apply Hall in Hy. rewrite E, Hs, String.eqb_refl in Hy.
      discriminate.
    + right. split; [exact Hsc|].
      intros s Hin [= E]. pose proof (find_none _ _ Efind s Hin) as Hs.
      simpl in Hs. rewrite E, String.eqb_refl in Hs. discriminate.
  - right. split; [exact Hsc|]. intros s _. discriminate.
Qed.

Lemma selection_valid_selected (st : AppState num) :
  selection_valid st -> scenarios st <> [] ->
  exists sc, selectedScenario st = Some sc /\ selectedId st = Some (id sc).
Proof.
  intros Hvalid Hne. unfold selection_valid in Hvalid.
  destruct (selectedScenario_cases st) as [Hnone Hsome].
  destruct (selectedScenario st) as [sc|] eqn:E.
  - exists sc. split; [reflexivity|].
    destruct (Hsome sc eq_refl) as [_ [Hsel|[_ Hno]]]; [exact Hsel|].
    destruct (selectedId st) as [sid|]; [|contradiction].
    destruct Hvalid as (s & Hin & <-). now apply Hno in Hin.
  - exfalso. apply Hne. now apply Hnone.
Qed.

Lemma updated_has_atual (st : AppState num) (id0 : string) (patch : Patch.t num) :
  Patch.id patch = None -> has_atual st -> has_atual (updateScenario st id0 patch).
Proof.
  intros Hid (sc & Hin & Hsc).
  exists (if String.eqb (id sc) id0 then spread sc patch else sc). split.
  - unfold updateScenario. cbn [scenarios].
    apply (in_map (fun it => if String.eqb (id it) id0 then spread it patch else it)).
    exact Hin.
  - now rewrite updated_id.
Qed.

Lemma updated_selection_valid (st : AppState num) (id0 : string) (patch : Patch.t num) :
  Patch.id patch = None -> selection_valid st ->
  selection_valid (updateScenario st id0 patch).
Proof.
  intros Hid. unfold selection_valid, updateScenario. cbn [scenarios selectedId].
  destruct (selectedId st) as [sid|].
  - intros (sc & Hin & Hsc).
    exists (if String.eqb (id sc) id0 then spread sc patch else sc). split.
    + apply (in_map (fun it => if String.eqb (id it) id0 then spread it patch else it)).
      exact Hin.
    + now rewrite updated_id.
  - intros ->. reflexivity.
Qed.

Lemma removed_has_atual (st : AppState num) (id0 : string) :
  id0 <> "atual"%string -> has_atual st -> has_atual (removeScenario st id0).
Proof.
  intros Hne (sc & Hin & Hsc). exists sc. split; [|exact Hsc].
  unfold removeScenario. cbn [scenarios]. apply filter_In. split; [exact Hin|].
  rewrite Hsc. destruct (String.eqb_spec "atual" id0); [congruence|reflexivity].
Qed.

Lemma removed_selection_valid (st : AppState num) (id0 : string) :
  selection_valid st -> selection_valid (removeScenario st id0).
Proof.
  unfold selection_valid, removeScenario, selected_is. cbn [scenarios selectedId].
  destruct (selectedId st) as [sid|].
  - intros (sc & Hin & Hsc).
    destruct (String.eqb_spec sid id0) as [Heq|Hne].
    + destruct (filter _ (scenarios st)) as [|first rest] eqn:E; [reflexivity|].
      simpl. exists first. split; [now left|reflexivity].
    + exists sc. split; [|exact Hsc]. apply filter_In. split; [exact Hin|].
      rewrite Hsc. destruct (String.eqb_spec sid id0); [contradiction|reflexivity].
  - intros ->. reflexivity.
Qed.

Lemma level_patch_keeps_id (sel : Scenario num) (value : string)
    (st st' : AppState num) :
  onLevelChange sel value st = Some st' ->
  exists patch, Patch.id patch = None /\ st' = updateScenario st (id sel) patch.
Proof.
  unfold onLevelChange.
  destruct (find _ LEVELS) as [lvl|]; [|discriminate].
  intros [= <-]. eexists; split; [|reflexivity]. reflexivity.
Qed.

(** One event keeps both properties. *)
Lemma handle_keeps (st st' : AppState num) (ev : Event num) :
  handle st ev = Some st' ->
  (has_atual st -> has_atual st') /\ (selection_valid st -> selection_valid st').
Proof.
  destruct ev as [row|row|yearsGlobal now|e|value]; simpl.
  - destruct (nth_error (scenarios st) row) as [sc|] eqn:Erow; [|discriminate].
    intros [= <-]. split; [auto|]. intros _.
    exists sc. split; [eapply nth_error_In; exact Erow|reflexivity].
  - destruct (nth_error (scenarios st) row) as [sc|]; [|discriminate].
    unfold removerOnClick.
    destruct (String.eqb_spec (id sc) "atual") as [_|Hne]; [discriminate|].
    simpl. intros [= <-]. split.
    + now apply removed_has_atual.
    + apply removed_selection_valid.
  - destruct (addScenario_result yearsGlobal now st) as (sc & Hadd & _).
    rewrite Hadd. intros [= <-]. split.
    + intros (s & Hin & Hs). exists s. split; [|exact Hs].
      cbn [scenarios]. apply in_or_app. now left.
    + intros _. unfold selection_valid. cbn [scenarios selectedId].
      exists sc. split; [apply in_or_app; right; now left|reflexivity].
  - destruct (selectedScenario st) as [sc|]; [|discriminate].
    intros [= <-]. split.
    + now apply updated_has_atual.
    + now apply updated_selection_valid.
  - destruct (selectedScenario st) as [sc|]; [|discriminate].
    intros H. apply level_patch_keeps_id in H. destruct H as (patch & Hid & ->).
    split.
    + now apply updated_has_atual.
    + now apply updated_selection_valid.
Qed.

Lemma run_keeps (evs : list (Event num)) : forall (st : AppState num),
  (has_atual st -> has_atual (run st evs)) /\
  (selection_valid st -> selection_valid (run st evs)).
Proof.
  induction evs as [|ev evs IH]; intros st; simpl; [auto|].
  destruct (handle st ev) as [st1|] eqn:Eh; [|apply IH].
  destruct (handle_keeps _ _ Eh) as [H1 H2].
  destruct (IH st1) as [H3 H4]. auto.
Qed.

Lemma initialState_valid (loaded : option (list (Scenario num))) :
  selection_valid (initialState loaded).
Proof.
  unfold selection_valid, initialState. cbn [scenarios selectedId].
  destruct (or_default loaded [defaultScenario]) as [|first rest]; [reflexivity|].
  simpl. exists first. split; [now left|reflexivity].
Qed.

(** X12. Whatever the storage held at start, after any session the
    selection names a scenario of the collection (it is absent only when
    the collection is empty). When the session started from the default
    collection, the scenario "atual" is still there, so the collection is
    not empty and the form has a scenario to show. *)
Theorem session_invariant (loaded : option (list (Scenario num)))
    (evs : list (Event num)) :
  selection_valid (run (initialState loaded) evs) /\
  (loaded = None ->
   has_atual (run (initialState loaded) evs) /\
   scenarios (run (initialState loaded) evs) <> [] /\
   exists sc,
     selectedScenario (run (initialState loaded) evs) = Some sc /\
     selectedId (run (initialState loaded) evs) = Some (id sc)).
Proof.
  destruct (run_keeps evs (initialState loaded)) as [Hatual Hvalid].
  pose proof (Hvalid (initialState_valid loaded)) as Hv.
  split; [exact Hv|]. intros ->.
  assert (Ha : has_atual (run (initialState None) evs)).
  { apply Hatual. exists defaultScenario. split; [now left|reflexivity]. }
  assert (Hne : scenarios (run (initialState None) evs) <> []).
  { destruct Ha as (sc & Hin & _). intros E. rewrite E in Hin. contradiction. }
  split; [exact Ha|]. split; [exact Hne|].
  now apply selection_valid_selected.
Qed.

Lemma filter_keeps_distinct (l : list (Scenario num)) (id0 : string) :
  NoDup (map id l) ->
  NoDup (map id (filter (fun s => negb (String.eqb (id s) id0)) l)).
Proof.
  induction l as [|s l IH]; simpl; intros Hnd; [constructor|].
  inversion Hnd as [|? ? Hnot Hnd']; subst.
  destruct (negb (String.eqb (id s) id0)); [|now apply IH].
  simpl. constructor; [|now apply IH].
  intros Hin. apply Hnot. apply in_map_iff in Hin.
  destruct Hin as (x & Hx & Hin). apply filter_In in Hin.
  apply in_map_iff. exists x. tauto.
Qed.

(** X13. Identifiers stay distinct through an event, provided an added
    scenario gets an identifier that is not in use. *)
Theorem handle_keeps_ids_distinct (st st' : AppState num) (ev : Event num) :
  NoDup (map id (scenarios st)) ->
  (forall yearsGlobal now, ev = EvAdd yearsGlobal now ->
     ~ In ("c_" ++ String_of now)%string (map id (scenarios st))) ->
  handle st ev = Some st' ->
  NoDup (map id (scenarios st')).
Proof.
  intros Hnd Hfresh.
  destruct ev as [row|row|yearsGlobal now|e|value]; simpl.
  - destruct (nth_error (scenarios st) row); [|discriminate]. now intros [= <-].
  - destruct (nth_error (scenarios st) row) as [sc|]; [|discriminate].
    unfold removerOnClick. destruct (negb (String.eqb (id sc) "atual")); [|discriminate].
    intros [= <-]. now apply filter_keeps_distinct.
  - destruct (addScenario_result yearsGlobal now st) as (sc & Hadd & Hid & _).
    rewrite Hadd. intros [= <-]. cbn [scenarios]. rewrite map_app. simpl.
    apply NoDup_app; [exact Hnd|repeat constructor; simpl; tauto|].
    intros x Hx [<-|[]]. rewrite Hid in Hx. exact (Hfresh _ _ eq_refl Hx).
  - destruct (selectedScenario st) as [sc|]; [|discriminate].
    intros [= <-]. now rewrite updated_ids.
  - destruct (selectedScenario st) as [sc|]; [|discriminate].
    intros H. apply level_patch_keeps_id in H. destruct H as (patch & Hid & ->).
    now rewrite updated_ids.
Qed.

End Session.

(** ** The chart, the detail table and the level select *)

Section Views.
Context {num : Type} {N : Number num}.
Variable thisYear : Z.

Lemma chart_labels_runs (y : Z) : forall (fuel : nat) (t : Z) (acc : list string),
  (Z.to_nat (y + 1 - t) < fuel)%nat ->
  chart_labels thisYear fuel y t acc
  = Some (acc ++ map (fun t => String_of (thisYear + t))
                     (offsets t (Z.to_nat (y + 1 - t)))).
Proof.
  induction fuel as [|fuel IH]; intros t acc Hfuel; [lia|].
  simpl. destruct (Z.leb_spec t y) as [Hle|Hgt].
  - rewrite IH by lia.
    replace (Z.to_nat (y + 1 - t)) with (S (Z.to_nat (y + 1 - (t + 1)))) by lia.
    simpl. unfold push. now rewrite <- app_assoc.
  - replace (Z.to_nat (y + 1 - t)) with O by lia.
    simpl. now rewrite app_nil_r.
Qed.

Lemma map_all_total {A B} (f : A -> option B) (g : A -> B) (l : list A) :
  (forall a, f a = Some (g a)) -> map_all f l = Some (map g l).
Proof.
  intros H. induction l as [|a l IH]; simpl; [reflexivity|].
  now rewrite H, IH.
Qed.

Lemma dataset_of_returns (yearsGlobal : Z) (sc : Scenario num) :
  dataset_of thisYear yearsGlobal sc = Some (dataset_from yearsGlobal sc).
Proof.
  unfold dataset_of.
  now rewrite (projectScenario_returns thisYear (with_years (inputs sc) yearsGlobal)).
Qed.

Lemma chartData_returns (yearsGlobal : Z) (st : AppState num) :
  chartData thisYear yearsGlobal st
  = Some {| ChartData.labels :=
              map (fun t => String_of (thisYear + t))
                  (offsets 0 (Z.to_nat (yearsGlobal + 1)));
            ChartData.datasets := map (dataset_from yearsGlobal) (scenarios st) |}.
Proof.
  unfold chartData.
  rewrite chart_labels_runs by (rewrite Z.sub_0_r; lia).
  rewrite (map_all_total _ (dataset_from yearsGlobal)) by apply dataset_of_returns.
  now rewrite Z.sub_0_r.
Qed.

(** X14. [chartData] always has a value: one dataset per scenario, in the
    order of the collection, named and coloured after its scenario. Its
    data are the net series of that scenario projected over the global
    horizon (whatever the scenario's own), and the axis labels are the
    labels of that projection, so every series has one point per label. *)
Theorem chartData_aligned (yearsGlobal : Z) (st : AppState num) :
  exists c, chartData thisYear yearsGlobal st = Some c /\
    Forall2 (fun sc d =>
               Dataset.label d = name sc /\
               Dataset.borderColor d = color sc /\
               Dataset.backgroundColor d = color sc /\
               exists r,
                 projectScenario thisYear (with_years (inputs sc) yearsGlobal) = Some r /\
                 Dataset.data d = netSeries r /\
                 ChartData.labels c = labels r)
            (scenarios st) (ChartData.datasets c) /\
    Forall (fun d => List.length (Dataset.data d) = List.length (ChartData.labels c))
           (ChartData.datasets c).
Proof.
  eexists. split; [apply chartData_returns|].
  cbn [ChartData.labels ChartData.datasets]. split.
  - induction (scenarios st) as [|sc l IH]; simpl; constructor; [|exact IH].
    repeat (split; [reflexivity|]).
    eexists. split;
      [apply (projectScenario_returns thisYear (with_years (inputs sc) yearsGlobal))|].
    split; reflexivity.
  - apply Forall_forall. intros d Hd. apply in_map_iff in Hd.
    destruct Hd as (sc & <- & _). simpl. now rewrite !length_map.
Qed.

(** X15. [detail] is null exactly when the collection is empty. Otherwise
    it is the projection of the selected scenario over its own horizon,
    or over the global one when it has none: [h + 1] rows for a horizon
    [h >= 0], no row for a negative one. When that horizon is the global
    one, the net column of the table is the scenario's series in the
    chart. *)
Theorem detail_horizon (yearsGlobal : Z) (st : AppState num) :
  (detail thisYear yearsGlobal st = None <-> scenarios st = []) /\
  forall sc, selectedScenario st = Some sc ->
    exists r,
      detail thisYear yearsGlobal st = Some (Some r) /\
      List.length (labels r)
      = Z.to_nat (or_default (years (inputs sc)) yearsGlobal + 1) /\
      List.length (grossSeries r) = List.length (labels r) /\
      List.length (netSeries r) = List.length (labels r) /\
      (or_default (years (inputs sc)) yearsGlobal = yearsGlobal ->
       exists c d,
         chartData thisYear yearsGlobal st = Some c /\
         In d (ChartData.datasets c) /\
         Dataset.label d = name sc /\
         Dataset.data d = netSeries r /\
         ChartData.labels c = labels r).
Proof.
  unfold detail. destruct (selectedScenario_cases st) as [Hnone Hsome]. split.
  - destruct (selectedScenario st); [|tauto].
    split; [discriminate|]. intros E. apply Hnone in E. discriminate.
  - intros sc Hsc. rewrite Hsc.
    set (h := or_default (years (inputs sc)) yearsGlobal).
    eexists. split;
      [f_equal; apply (projectScenario_returns thisYear (with_years (inputs sc) h))|].
    cbn [labels grossSeries netSeries].
    rewrite !length_map, offsets_length.
    repeat (split; [reflexivity|]).
    intros Hh. eexists. exists (dataset_from yearsGlobal sc).
    split; [apply chartData_returns|]. cbn [ChartData.labels ChartData.datasets].
    split; [apply in_map; apply (Hsome sc Hsc)|].
    unfold iterations, years_of. cbn [years with_years or_default]. rewrite Hh.
    repeat split.
Qed.

(** X16. The level select succeeds exactly for the identifiers of the
    table ("A1", "A2", "B1", "B2") and throws for any other value. When it
    succeeds, every scenario carrying the selected identifier gets that
    level with the base salary and the points of its row; its identifier,
    name, colour and other inputs stay, and so do the other scenarios and
    the selection. *)
Theorem onLevelChange_table (selected : Scenario num) (value : string)
    (st : AppState num) :
  (onLevelChange selected value st = None <->
   ~ In value ["A1"; "A2"; "B1"; "B2"]%string) /\
  forall st', onLevelChange selected value st = Some st' ->
    exists lvl,
      In lvl LEVELS /\ Level.id lvl = value /\
      selectedId st' = selectedId st /\
      map id (scenarios st') = map id (scenarios st) /\
      forall row sc, nth_error (scenarios st) row = Some sc ->
        exists sc',
          nth_error (scenarios st') row = Some sc' /\
          (id sc <> id selected -> sc' = sc) /\
          (id sc = id selected ->
           levelId sc' = value /\
           baseSalary (inputs sc') = Level.baseSalary lvl /\
           gepiPoints (inputs sc') = Level.gepiPoints lvl /\
           name sc' = name sc /\ color sc' = color sc /\
           gepiPointValue (inputs sc') = gepiPointValue (inputs sc) /\
           viPerHelpDay (inputs sc') = viPerHelpDay (inputs sc) /\
           helpDays (inputs sc') = helpDays (inputs sc) /\
           dependents (inputs sc') = dependents (inputs sc) /\
           basicAnnualPctReaj (inputs sc') = basicAnnualPctReaj (inputs sc) /\
           gepiCentsAnnual (inputs sc') = gepiCentsAnnual (inputs sc) /\
           viReajAnnual (inputs sc') = viReajAnnual (inputs sc) /\
           years (inputs sc') = years (inputs sc)).
Proof.
  unfold onLevelChange.
  destruct (find (fun l => String.eqb (Level.id l) value) LEVELS) as [lvl|] eqn:Efind.
  - apply find_some in Efind. destruct Efind as [Hin Heq].
    apply String.eqb_eq in Heq. split.
    + split; [discriminate|]. intros Hnot. exfalso. apply Hnot.
      rewrite <- Heq. simpl in Hin.
      destruct Hin as [<-|[<-|[<-|[<-|[]]]]]; simpl; auto.
    + intros st' [= <-]. exists lvl.
      split; [exact Hin|]. split; [exact Heq|]. split; [reflexivity|].
      split; [now apply updated_ids|].
      intros row sc Hrow. unfold updateScenario. cbn [scenarios].
      rewrite nth_error_map, Hrow. simpl. eexists. split; [reflexivity|].
      destruct (String.eqb_spec (id sc) (id selected)) as [E|E]; split;
        try contradiction; try reflexivity.
      intros _. rewrite <- Heq. repeat split.
  - split; [|discriminate]. split; [|reflexivity].
    intros _ Hin. simpl in Hin.
    destruct Hin as [<-|[<-|[<-|[<-|[]]]]]; simpl in Efind; discriminate.
Qed.

End Views.

(** ** Witnesses: the default collection in 2026, exact reading *)

Lemma labels_consecutive_distinct_witness :
  0 <= 1 <= years_of (example_args (N := ExactNumber)) /\
  exists r, projectScenario 2026 (example_args (N := ExactNumber)) = Some r /\
    at_index (labels r) 1 = Some "2027"%string /\ NoDup (labels r).
Proof.
  assert (H : 0 <= 1 <= years_of (example_args (N := ExactNumber)))
    by (unfold years_of, example_args; simpl; lia).
  split; [exact H|].
  destruct (labels_consecutive_distinct 2026 (example_args (N := ExactNumber)))
    as (r & Hr & Hall & Hnd).
  exists r. split; [exact Hr|]. split; [exact (Hall 1 H)|exact Hnd].
Defined.

Lemma fresh_in_default (now : Z) :
  ~ In ("c_" ++ String_of now)%string
       (map id (scenarios (initialState (N := ExactNumber) None))).
Proof. simpl. intros [H|[]]. discriminate H. Defined.

Lemma addScenario_appends_witness :
  exists sc st',
    ~ In (id sc) (map id (scenarios (initialState (N := ExactNumber) None))) /\
    addScenario 30 1700000000000 (initialState None) = Some st' /\
    scenarios st' = [defaultScenario; sc] /\
    id sc = "c_1700000000000"%string /\
    selectedScenario st' = Some sc.
Proof.
  destruct (addScenario_appends 30 1700000000000 (initialState (N := ExactNumber) None))
    as (sc & st' & Hadd & Hsc & _ & Hid & _ & _ & _ & Hshow).
  assert (Hfresh : ~ In (id sc) (map id (scenarios (initialState (N := ExactNumber) None))))
    by (rewrite Hid; apply fresh_in_default).
  exists sc, st'. split; [exact Hfresh|]. split; [exact Hadd|].
  split; [exact Hsc|]. split; [exact Hid|]. exact (Hshow Hfresh).
Defined.

Lemma add_then_remove_witness :
  ~ In ("c_" ++ String_of 1700000000000)%string
       (map id (scenarios (initialState (N := ExactNumber) None))) /\
  exists st' st'',
    addScenario 30 1700000000000 (initialState (N := ExactNumber) None) = Some st' /\
    handle st' (EvRemover 1) = Some st'' /\
    scenarios st'' = [defaultScenario] /\
    selectedId st'' = Some "atual"%string.
Proof.
  split; [apply fresh_in_default|].
  exact (add_then_remove 30 1700000000000 (initialState (N := ExactNumber) None)
           (fresh_in_default 1700000000000)).
Defined.

Lemma updateScenario_keeps_shape_witness :
  let st := initialState (N := ExactNumber) None in
  let patch := patch_of (EditBaseSalary 12000%Q) in
  Patch.id patch = None /\
  map id (scenarios (updateScenario st "atual" patch)) = ["atual"%string] /\
  selectedId (updateScenario st "atual" patch) = Some "atual"%string /\
  forall row sc, nth_error (scenarios st) row = Some sc ->
    nth_error (scenarios (updateScenario st "atual" patch)) row
    = Some (if String.eqb (id sc) "atual" then spread sc patch else sc).
Proof.
  intros st patch. split; [reflexivity|].
  exact (updateScenario_keeps_shape st "atual" patch eq_refl).
Defined.

Lemma updateScenario_unknown_id_witness :
  let st := initialState (N := ExactNumber) None in
  ~ In "c_1"%string (map id (scenarios st)) /\
  updateScenario st "c_1" (patch_of (EditBaseSalary 12000%Q)) = st.
Proof.
  intros st.
  assert (H : ~ In "c_1"%string (map id (scenarios st)))
    by (simpl; intros [E|[]]; discriminate E).
  split; [exact H|].
  exact (@updateScenario_unknown_id _ st "c_1"%string
           (patch_of (EditBaseSalary 12000%Q)) H).
Defined.

Lemma selectedScenario_fallback_witness :
  let dup := {| id := "c_1700000000000"; name := "Outro"; levelId := "B2";
                color := "#2ca02c"; inputs := example_vi_growth |} in
  let st := {| scenarios := [defaultScenario (N := ExactNumber); added_scenario; dup];
               selectedId := Some "c_1700000000000"%string |} in
  selectedScenario st = Some added_scenario /\
  ((exists before after,
      scenarios st = before ++ added_scenario :: after /\
      selectedId st = Some (id (added_scenario (N := ExactNumber))) /\
      forall s, In s before -> id s <> id (added_scenario (N := ExactNumber))) \/
   (hd_error (scenarios st) = Some added_scenario /\
    forall s, In s (scenarios st) -> selectedId st <> Some (id s))).
Proof.
  intros dup st. split; [reflexivity|].
  exact (proj2 (selectedScenario_fallback st) added_scenario eq_refl).
Defined.

Lemma session_invariant_witness :
  let evs := [EvAdd 30 1700000000000; EvEdit (EditBaseSalary 12000%Q);
              EvRemover 0; EvLevel "B2"; EvRemover 1] in
  selection_valid (run (initialState (N := ExactNumber) None) evs) /\
  has_atual (run (initialState (N := ExactNumber) None) evs) /\
  scenarios (run (initialState (N := ExactNumber) None) evs) <> [].
Proof.
  intros evs.
  destruct (session_invariant (N := ExactNumber) None evs) as [Hv H].
  destruct (H eq_refl) as (Ha & Hne & _).
  split; [exact Hv|]. split; [exact Ha|exact Hne].
Defined.

Lemma handle_keeps_ids_distinct_witness :
  let st := initialState (N := ExactNumber) None in
  NoDup (map id (scenarios st)) /\
  exists st', handle st (EvAdd 30 1700000000000) = Some st' /\
    NoDup (map id (scenarios st')).
Proof.
  intros st.
  assert (Hnd : NoDup (map id (scenarios st)))
    by (simpl; repeat constructor; simpl; tauto).
  split; [exact Hnd|].
  eexists. split; [reflexivity|].
  apply (@handle_keeps_ids_distinct Q ExactNumber st _ (EvAdd 30 1700000000000) Hnd).
  - intros yearsGlobal now [= _ <-]. apply fresh_in_default.
  - reflexivity.
Defined.

Lemma detail_horizon_witness :
  let st := initialState (N := ExactNumber) None in
  selectedScenario st = Some defaultScenario /\
  exists r,
    detail 2026 5 st = Some (Some r) /\
    List.length (labels r) = 31%nat /\
    List.length (grossSeries r) = List.length (labels r) /\
    List.length (netSeries r) = List.length (labels r).
Proof.
  intros st. split; [reflexivity|].
  destruct (proj2 (detail_horizon 2026 5 st) defaultScenario eq_refl)
    as (r & Hd & Hl & Hg & Hn & _).
  exists r. split; [exact Hd|]. split; [exact Hl|]. split; [exact Hg|exact Hn].
Defined.

Lemma onLevelChange_table_witness :
  let st := initialState (N := ExactNumber) None in
  exists st' lvl,
    onLevelChange defaultScenario "B2" st = Some st' /\
    In lvl LEVELS /\ Level.id lvl = "B2"%string /\
    map id (scenarios st') = map id (scenarios st).
Proof.
  intros st. eexists.
  destruct (proj2 (onLevelChange_table defaultScenario "B2" st) _ eq_refl)
    as (lvl & Hin & Hid & _ & Hids & _).
  exists lvl. split; [reflexivity|]. split; [exact Hin|]. split; [exact Hid|exact Hids].
Defined.

(** ** Removing what is not there *)

Section MissingId.
Context {num : Type} {N : Number num}.

(** X17. [removeScenario] for an identifier that no scenario carries keeps
    the collection. The selection stays too, unless it was that very
    identifier: a selection naming no scenario is reset to the first
    scenario, or to none. *)
Theorem removeScenario_missing_id (st : AppState num) (id0 : string) :
  ~ In id0 (map id (scenarios st)) ->
  scenarios (removeScenario st id0) = scenarios st /\
  (selectedId st <> Some id0 -> removeScenario st id0 = st) /\
  (selectedId st = Some id0 ->
   selectedId (removeScenario st id0) = option_map id (hd_error (scenarios st))).
Proof.
  intros Hnot. unfold removeScenario. cbn [scenarios selectedId].
  rewrite (filter_keeps_all _ _ Hnot).
  split; [reflexivity|]. split.
  - intros Hsel. destruct (selected_is st id0) eqn:E.
    + apply selected_is_iff in E. contradiction.
    + now destruct st.
  - intros Hsel. apply selected_is_iff in Hsel. now rewrite Hsel.
Qed.

End MissingId.

Lemma removeScenario_missing_id_witness :
  let st := initialState (N := ExactNumber) None in
  ~ In "c_1"%string (map id (scenarios st)) /\
  scenarios (removeScenario st "c_1") = scenarios st /\
  removeScenario st "c_1" = st.
Proof.
  intros st.
  assert (H : ~ In "c_1"%string (map id (scenarios st)))
    by (simpl; intros [E|[]]; discriminate E).
  split; [exact H|].
  destruct (@removeScenario_missing_id _ st "c_1"%string H) as (Hs & Hsame & _).
  split; [exact Hs|]. apply Hsame. discriminate.
Defined.

Lemma pickColor_cycles_witness :
  pickColor 11 = pickColor 3 /\ (11 mod 8 = 3 mod 8)%nat /\
  In (pickColor 11) palette.
Proof.
  destruct (pickColor_cycles 11) as (Hin & _ & Hinj).
  assert (H : pickColor 11 = pickColor 3) by reflexivity.
  split; [exact H|]. split; [exact (Hinj 3%nat H)|exact Hin].
Defined.

(** ** Saving and reloading the collection *)

Lemma number_token_storable (x : float) :
  storable_number x -> number_token x = TNumber x.
Proof.
  intros [Hfin Hneq]. unfold number_token. rewrite Hfin.
  destruct (PrimFloat.Leibniz.eqb x PrimFloat.neg_zero) eqn:E; [|reflexivity].
  apply FloatAxioms.Leibniz.eqb_spec in E. contradiction.
Qed.

Lemma stringify_primitive (v : jsval) :
  is_primitive v -> JSON_stringify v = Some [primitive_token v].
Proof.
  destruct v; simpl; try contradiction; [|reflexivity].
  intros H. now rewrite number_token_storable.
Qed.

Lemma parse_primitive (v : jsval) (fuel : nat) (rest : text) :
  is_primitive v ->
  parse_value (S fuel) (primitive_token v :: rest) = Some (v, rest).
Proof.
  destruct v; simpl; try contradiction; [|reflexivity].
  intros [Hfin _]. now rewrite Hfin.
Qed.

Lemma members_flat (ps : list (string * jsval)) :
  Forall is_primitive (map snd ps) ->
  flat_map (fun kv => match JSON_stringify (snd kv) with
                      | Some t => [TString (fst kv) :: TColon :: t]
                      | None => []
                      end) ps
  = map member_text ps.
Proof.
  induction ps as [|[k v] ps IH]; intros Hps; [reflexivity|].
  inversion Hps as [|? ? Hv Hrest]; subst.
  cbn [flat_map map snd fst]. rewrite (stringify_primitive _ Hv).
  rewrite (IH Hrest). reflexivity.
Qed.

Lemma stringify_flat_object (ps : list (string * jsval)) :
  Forall is_primitive (map snd ps) ->
  JSON_stringify (JObj ps) = Some (object_text ps).
Proof.
  intros Hps. cbn [JSON_stringify]. now rewrite (members_flat _ Hps).
Qed.

Lemma set_property_fresh (k : string) (v : jsval) (acc : list (string * jsval)) :
  ~ In k (map fst acc) -> set_property k v acc = acc ++ [(k, v)].
Proof.
  induction acc as [|[k' v'] acc IH]; simpl; intros Hnot; [reflexivity|].
  destruct (String.eqb_spec k' k) as [->|Hne]; [exfalso; apply Hnot; now left|].
  f_equal. apply IH. intros Hin. apply Hnot. now right.
Qed.

Lemma parse_members_step (k : string) (v : jsval) (fuel : nat) (rest : text)
    (acc : list (string * jsval)) :
  is_primitive v ->
  parse_members (S (S fuel))
    (TString k :: TColon :: primitive_token v :: TComma :: rest) acc
  = parse_members (S fuel) rest (set_property k v acc).
Proof.
  intros Hv.
  change (parse_members (S (S fuel))
            (TString k :: TColon :: primitive_token v :: TComma :: rest) acc)
    with (match parse_value (S fuel) (primitive_token v :: TComma :: rest) with
          | Some (v0, TComma :: rest0) =>
              parse_members (S fuel) rest0 (set_property k v0 acc)
          | Some (v0, TRBrace :: rest0) => Some (JObj (set_property k v0 acc), rest0)
          | _ => None
          end).
  now rewrite (@parse_primitive v fuel (TComma :: rest) Hv).
Qed.

Lemma parse_members_last (k : string) (v : jsval) (fuel : nat) (rest : text)
    (acc : list (string * jsval)) :
  is_primitive v ->
  parse_members (S (S fuel))
    (TString k :: TColon :: primitive_token v :: TRBrace :: rest) acc
  = Some (JObj (set_property k v acc), rest).
Proof.
  intros Hv. cbn [parse_members].
  now rewrite (@parse_primitive v fuel (TRBrace :: rest) Hv).
Qed.

(** The members of an object with distinct keys parse back, one by one. *)
Lemma parse_members_flat : forall (ps acc : list (string * jsval))
    (fuel : nat) (rest : text),
  ps <> [] ->
  Forall is_primitive (map snd ps) ->
  NoDup (map fst (acc ++ ps)) ->
  (List.length (join (map member_text ps)) < fuel)%nat ->
  parse_members fuel (join (map member_text ps) ++ TRBrace :: rest) acc
  = Some (JObj (acc ++ ps), rest).
Proof.
  induction ps as [|[k v] ps IH]; intros acc fuel rest Hne Hprim Hnd Hfuel;
    [congruence|].
  inversion Hprim as [|? ? Hv Hrest]; subst.
  assert (Hfresh : ~ In k (map fst acc)).
  { intros Hin. rewrite map_app in Hnd. simpl in Hnd.
    apply NoDup_remove_2 in Hnd. apply Hnd. apply in_or_app. now left. }
  destruct ps as [|p ps].
  - simpl in *. destruct fuel as [|[|fuel]]; [lia|lia|].
    rewrite (@parse_members_last k v fuel rest acc Hv).
    now rewrite (@set_property_fresh k v acc Hfresh).
  - change (join (map member_text ((k, v) :: p :: ps)))
      with (member_text (k, v) ++ TComma :: join (map member_text (p :: ps))) in *.
    unfold member_text at 1. cbn [fst snd app].
    unfold member_text at 1 in Hfuel. cbn [fst snd app List.length] in Hfuel.
    destruct fuel as [|[|fuel]]; [lia|lia|].
    rewrite (@parse_members_step k v fuel _ acc Hv).
    rewrite (@set_property_fresh k v acc Hfresh).
    rewrite IH; [|discriminate|exact Hrest| |lia].
    + now rewrite <- app_assoc.
    + now rewrite <- app_assoc.
Qed.

Lemma join_members_first (k : string) (v : jsval) (ps : list (string * jsval)) :
  exists tl, join (map member_text ((k, v) :: ps)) = TString k :: tl.
Proof. destruct ps; simpl; eexists; reflexivity. Qed.

Lemma parse_flat_object (ps : list (string * jsval)) (fuel : nat) (rest : text) :
  ps <> [] ->
  Forall is_primitive (map snd ps) ->
  NoDup (map fst ps) ->
  (List.length (object_text ps) < fuel)%nat ->
  parse_value fuel (object_text ps ++ rest) = Some (JObj ps, rest).
Proof.
  intros Hne Hprim Hnd Hfuel. unfold object_text in *.
  destruct fuel as [|fuel]; [simpl in Hfuel; lia|].
  cbn [List.length] in Hfuel. rewrite length_app in Hfuel. simpl in Hfuel.
  cbn [app]. rewrite <- app_assoc. cbn [app].
  transitivity (parse_members fuel
                  (join (map member_text ps) ++ TRBrace :: rest) []).
  - destruct ps as [|[k v] ps]; [congruence|].
    destruct (join_members_first k v ps) as (tl & ->). reflexivity.
  - apply (@parse_members_flat ps [] fuel rest Hne Hprim); [exact Hnd|lia].
Qed.

Lemma scenario_properties_nonempty (sc : Scenario float) :
  scenario_properties sc <> [].
Proof. unfold scenario_properties. discriminate. Qed.

Lemma scenario_properties_distinct (sc : Scenario float) :
  NoDup (map fst (scenario_properties sc)).
Proof.
  unfold scenario_properties.
  destruct (basicAnnualPctReaj (inputs sc)), (gepiCentsAnnual (inputs sc)),
    (viReajAnnual (inputs sc)), (years (inputs sc));
    cbn [option_map app map fst];
    repeat (apply NoDup_cons; [cbn [In]; intuition discriminate|]);
    apply NoDup_nil.
Qed.

Lemma scenario_properties_primitive (sc : Scenario float) :
  storable sc -> Forall is_primitive (map snd (scenario_properties sc)).
Proof.
  unfold storable, scenario_properties.
  intros (H1 & H2 & H3 & H4 & H5 & H6 & H7 & H8 & H9 & H10).
  destruct (basicAnnualPctReaj (inputs sc)), (gepiCentsAnnual (inputs sc)),
    (viReajAnnual (inputs sc)), (years (inputs sc));
    cbn [option_map app map snd storable_option] in *;
    repeat (apply Forall_cons; [first [exact I | assumption]|]);
    apply Forall_nil.
Qed.

Lemma stringify_scenarios (l : list (Scenario float)) :
  Forall storable l ->
  JSON_stringify (js_of_scenarios l)
  = Some (TLBracket ::
          join (map (fun sc => object_text (scenario_properties sc)) l)
          ++ [TRBracket]).
Proof.
  intros Hl. unfold js_of_scenarios. cbn [JSON_stringify].
  rewrite map_map.
  rewrite (map_ext_in _ (fun sc => object_text (scenario_properties sc)));
    [reflexivity|].
  intros sc Hin. rewrite Forall_forall in Hl. unfold js_of_scenario.
  now rewrite (@stringify_flat_object _ (scenario_properties_primitive (Hl sc Hin))).
Qed.

Lemma object_text_first (ps : list (string * jsval)) :
  exists tl, object_text ps = TLBrace :: tl.
Proof. unfold object_text. eexists; reflexivity. Qed.

Lemma join_objects_first (sc : Scenario float) (l : list (Scenario float)) :
  exists tl,
    join (map (fun sc => object_text (scenario_properties sc)) (sc :: l))
    = TLBrace :: tl.
Proof. destruct l; simpl; eexists; reflexivity. Qed.

Lemma parse_elements_scenarios : forall (l : list (Scenario float))
    (acc : list jsval) (fuel : nat) (rest : text),
  l <> [] ->
  Forall storable l ->
  (S (List.length
        (join (map (fun sc => object_text (scenario_properties sc)) l))) < fuel)%nat ->
  parse_elements fuel
    (join (map (fun sc => object_text (scenario_properties sc)) l)
     ++ TRBracket :: rest) acc
  = Some (JArr (acc ++ map js_of_scenario l), rest).
Proof.
  induction l as [|sc l IH]; intros acc fuel rest Hne Hl Hfuel; [congruence|].
  inversion Hl as [|? ? Hsc Hrest]; subst.
  pose proof (@scenario_properties_nonempty sc) as Hn.
  pose proof (scenario_properties_distinct sc) as Hd.
  pose proof (@scenario_properties_primitive sc Hsc) as Hp.
  destruct fuel as [|fuel]; [lia|].
  destruct l as [|sc' l].
  - cbn [map join] in *. cbn [parse_elements].
    rewrite (@parse_flat_object (scenario_properties sc) fuel (TRBracket :: rest)
               Hn Hp Hd); [reflexivity|lia].
  - change (join (map (fun sc => object_text (scenario_properties sc))
                      (sc :: sc' :: l)))
      with (object_text (scenario_properties sc) ++ TComma ::
            join (map (fun sc => object_text (scenario_properties sc)) (sc' :: l)))
      in *.
    rewrite length_app in Hfuel. cbn [List.length] in Hfuel.
    rewrite <- app_assoc. cbn [app parse_elements].
    rewrite (@parse_flat_object (scenario_properties sc) fuel _ Hn Hp Hd); [|lia].
    rewrite IH; [|discriminate|exact Hrest|].
    + now rewrite <- app_assoc.
    + pose proof (object_text_first (scenario_properties sc)) as (tl & Htl).
      rewrite Htl in Hfuel. cbn [List.length] in Hfuel. lia.
Qed.

Lemma parse_scenarios (l : list (Scenario float)) :
  Forall storable l ->
  JSON_parse (TLBracket ::
              join (map (fun sc => object_text (scenario_properties sc)) l)
              ++ [TRBracket])
  = Some (js_of_scenarios l).
Proof.
  intros Hl. unfold JSON_parse, js_of_scenarios.
  destruct l as [|sc l]; [reflexivity|].
  set (J := join (map (fun sc => object_text (scenario_properties sc)) (sc :: l))).
  assert (Hstep : parse_value (S (List.length (TLBracket :: J ++ [TRBracket])))
                    (TLBracket :: J ++ [TRBracket])
                  = parse_elements (List.length (TLBracket :: J ++ [TRBracket]))
                      (J ++ [TRBracket]) []).
  { destruct (join_objects_first sc l) as (tl & Htl). fold J in Htl.
    rewrite Htl. reflexivity. }
  rewrite Hstep. unfold J.
  rewrite (@parse_elements_scenarios (sc :: l) [] _ []); [reflexivity|discriminate|exact Hl|].
  cbn [List.length]. rewrite length_app. simpl. lia.
Qed.

Lemma persist_other_keys (storage : Storage) (l : list (Scenario float))
    (key : string) :
  key <> STORAGE_KEY -> getItem (persist storage l) key = getItem storage key.
Proof.
  intros Hne. unfold getItem, persist, setItem.
  destruct (String.eqb_spec key STORAGE_KEY); [contradiction|reflexivity].
Qed.

Section Reload.
Variable host_pow : float -> Z -> float.

(** C9, as the code has it. Saving a collection and loading it again
    gives the collection that was saved, property for property, whenever
    every number in it is finite and not [-0]: the effect of line 139 stores
    under "sim_scenarios_v1" the text [JSON.stringify] gives for the
    array; that text is a non-empty string, so the guard of line 109
    passes; [JSON.parse] of it is the array saved, with the same objects
    in the same order, each with the same properties in the same order
    and the same values; so the initializer of lines 106-133 returns it,
    and the state starts from the saved list. The other keys of the
    storage are untouched. *)
Theorem saved_collection_reloads (storage : Storage) (l : list (Scenario float)) :
  Forall storable l ->
  exists t,
    JSON_stringify (js_of_scenarios l) = Some t /\
    getItem (persist storage l) STORAGE_KEY = Some t /\
    truthy (Some t) = true /\
    JSON_parse t = Some (js_of_scenarios l) /\
    loaded_scenarios (persist storage l) = Some (js_of_scenarios l) /\
    initial_scenarios host_pow (persist storage l)
    = js_of_scenarios (scenarios (initialState (N := Binary64 host_pow) (Some l))) /\
    forall key, key <> STORAGE_KEY ->
      getItem (persist storage l) key = getItem storage key.
Proof.
  intros Hl.
  pose proof (stringify_scenarios Hl) as Hs.
  pose proof (parse_scenarios Hl) as Hp.
  set (t := TLBracket ::
            join (map (fun sc => object_text (scenario_properties sc)) l)
            ++ [TRBracket]) in *.
  assert (Hget : getItem (persist storage l) STORAGE_KEY = Some t).
  { unfold getItem, persist, setItem. now rewrite Hs, String.eqb_refl. }
  assert (Hload : loaded_scenarios (persist storage l) = Some (js_of_scenarios l)).
  { unfold loaded_scenarios. rewrite Hget. exact Hp. }
  exists t. repeat split; try assumption.
  - unfold initial_scenarios. now rewrite Hload.
  - intros key Hne. now apply persist_other_keys.
Qed.

End Reload.

Lemma example_storable : Forall storable [defaultScenario (N := Binary64 pow_by_mul)].
Proof.
  repeat constructor; try reflexivity;
    intros H; apply FloatAxioms.Leibniz.eqb_spec in H; discriminate H.
Defined.

Lemma saved_collection_reloads_witness :
  Forall storable [defaultScenario (N := Binary64 pow_by_mul)] /\
  loaded_scenarios (persist no_storage [defaultScenario (N := Binary64 pow_by_mul)])
  = Some (js_of_scenarios [defaultScenario (N := Binary64 pow_by_mul)]).
Proof.
  split; [exact example_storable|].
  destruct (saved_collection_reloads pow_by_mul no_storage example_storable)
    as (t & _ & _ & _ & _ & Hload & _).
  exact Hload.
Defined.

(** C9, as the specification words it, fails on a collection with a number JSON cannot
    write: a base salary of Infinity is stored as [null], and [null] is
    what the reloaded scenario holds; NaN and minus Infinity fare the
    same, and [-0] is stored as [0]. *)
Lemma infinity_not_reloaded :
  PrimFloat.leb 0 (baseSalary (inputs scenario_unbounded)) = true /\
  exists loaded,
    loaded_scenarios (persist no_storage [scenario_unbounded]) = Some loaded /\
    initial_scenarios pow_by_mul (persist no_storage [scenario_unbounded]) = loaded /\
    field "baseSalary" (element 0 (js_of_scenarios [scenario_unbounded]))
    = JNum PrimFloat.infinity /\
    field "baseSalary" (element 0 loaded) = JNull /\
    loaded <> js_of_scenarios [scenario_unbounded] /\
    number_token PrimFloat.nan = TNull /\
    number_token PrimFloat.neg_infinity = TNull /\
    number_token PrimFloat.neg_zero = TNumber PrimFloat.zero.
Proof.
  split; [reflexivity|].
  eexists. split; [vm_compute; reflexivity|].
  repeat split; try (vm_compute; reflexivity).
  intros H. apply (f_equal (fun v => field "baseSalary" (element 0 v))) in H.
  vm_compute in H. discriminate H.
Qed.

(** * Amounts in doubles *)

Local Abbreviation prec := FloatOps.prec.
Local Abbreviation emax := FloatOps.emax.
Local Abbreviation emin := (SpecFloat.emin FloatOps.prec FloatOps.emax).
Local Abbreviation fexp := (SpecFloat.fexp FloatOps.prec FloatOps.emax).
Local Abbreviation digits := SpecFloat.digits2_pos.

(** ** Rounding to nearest, ties to even *)

Lemma digits2_size (p : positive) : SpecFloat.digits2_pos p = Pos.size p.
Proof. induction p; simpl; congruence. Qed.

Lemma digits2_bounds (p : positive) :
  2 ^ (Zpos (SpecFloat.digits2_pos p) - 1) <= Zpos p
  < 2 ^ Zpos (SpecFloat.digits2_pos p).
Proof.
  rewrite digits2_size. split.
  - pose proof (Pos.size_le p) as H.
    assert (H' : (2 ^ Zpos (Pos.size p) <= 2 * Zpos p)).
    { change 2 with (Zpos 2) at 1. rewrite <- Pos2Z.inj_pow.
      change (2 * Zpos p) with (Zpos p~0). exact H. }
    replace (Zpos (Pos.size p)) with (Zpos (Pos.size p) - 1 + 1) in H' by lia.
    rewrite Z.pow_add_r in H' by lia. change (2 ^ 1) with 2 in H'. lia.
  - pose proof (Pos.size_gt p) as H.
    change 2 with (Zpos 2). rewrite <- Pos2Z.inj_pow. exact H.
Qed.

Lemma pow2_pos (n : Z) : 0 <= n -> 0 < 2 ^ n.
Proof. intros H. apply Z.pow_pos_nonneg; lia. Qed.

Lemma pow2_split (a b : Z) : 0 <= a -> 0 <= b -> 2 ^ (a + b) = 2 ^ a * 2 ^ b.
Proof. intros. now apply Z.pow_add_r. Qed.

Lemma pow2_le (a b : Z) : a <= b -> 2 ^ a <= 2 ^ b.
Proof. intros. apply Z.pow_le_mono_r; lia. Qed.

Lemma pow2_lt (a b : Z) : 0 <= b -> a < b -> 2 ^ a < 2 ^ b.
Proof. intros. apply Z.pow_lt_mono_r; lia. Qed.

(** Comparing powers of two gives back their exponents. *)
Lemma pow2_lt_inv (a b : Z) : 0 <= a -> 2 ^ a < 2 ^ b -> a < b.
Proof.
  intros Ha H. destruct (Z_lt_le_dec a b) as [|Hle]; [assumption|].
  pose proof (pow2_le Hle). lia.
Qed.

Lemma nearest_even_mono (m1 m2 P q1 q2 : Z) :
  0 < P -> nearest_even m1 P q1 -> nearest_even m2 P q2 ->
  m1 <= m2 -> q1 <= q2.
Proof.
  intros HP (F1 & r1 & E1 & B1 & C1) (F2 & r2 & E2 & B2 & C2) Hle.
  assert (HF : F1 <= F2) by nia.
  destruct (Z.eq_dec F1 F2) as [->|Hne].
  - assert (r1 <= r2) by lia.
    destruct (Z.even F2);
      destruct C1 as [[? ->]|[[? ->]|[? ->]]];
      destruct C2 as [[? ->]|[[? ->]|[? ->]]]; lia.
  - assert (F1 + 1 <= F2) by lia.
    destruct (Z.even F1); destruct (Z.even F2);
      destruct C1 as [[? ->]|[[? ->]|[? ->]]];
      destruct C2 as [[? ->]|[[? ->]|[? ->]]]; lia.
Qed.

Lemma nearest_even_scale (m P q c : Z) :
  0 < c -> nearest_even m P q -> nearest_even (m * c) (P * c) q.
Proof.
  intros Hc (F & r & E & B & C).
  exists F, (r * c). split; [subst m; ring|]. split; [nia|].
  destruct C as [[? ->]|[[? ->]|[? ->]]].
  - left. split; [nia|reflexivity].
  - right; left. split; [nia|reflexivity].
  - right; right. split; [nia|reflexivity].
Qed.

Lemma nearest_even_lower (m P q A : Z) :
  0 < P -> nearest_even m P q -> A * P <= m -> A <= q.
Proof.
  intros HP (F & r & E & B & C) H.
  assert (A <= F) by nia.
  destruct (Z.even F); destruct C as [[? ->]|[[? ->]|[? ->]]]; lia.
Qed.

Lemma nearest_even_upper (m P q B : Z) :
  0 < P -> nearest_even m P q -> m <= B * P -> q <= B.
Proof.
  intros HP (F & r & E & Br & C) H.
  assert (HF : F <= B) by nia.
  destruct (Z.eq_dec F B) as [->|Hne].
  - assert (r = 0) by nia. subst r.
    destruct C as [[? ->]|[[? ->]|[? ->]]]; lia.
  - destruct (Z.even F); destruct C as [[? ->]|[[? ->]|[? ->]]]; lia.
Qed.

Lemma nearest_even_unit (m : Z) : nearest_even m 1 m.
Proof. exists m, 0. split; [ring|]. split; [lia|]. left. split; [lia|reflexivity]. Qed.

Lemma nearest_even_fun (m P q1 q2 : Z) :
  0 < P -> nearest_even m P q1 -> nearest_even m P q2 -> q1 = q2.
Proof.
  intros HP H1 H2.
  pose proof (nearest_even_mono HP H1 H2 (Z.le_refl m)).
  pose proof (nearest_even_mono HP H2 H1 (Z.le_refl m)). lia.
Qed.

(** ** The shifts of [SpecFloat] *)

Lemma iter_pos_nat {A} (f : A -> A) (p : positive) : forall x,
  SpecFloat.iter_pos f p x = Nat.iter (Pos.to_nat p) f x.
Proof.
  induction p as [p IH|p IH|]; intros x; cbn [SpecFloat.iter_pos].
  - rewrite !IH, Pos2Nat.inj_xI.
    replace (S (2 * Pos.to_nat p))%nat with (Pos.to_nat p + S (Pos.to_nat p))%nat by lia.
    rewrite Nat.iter_add, Nat.iter_succ_r. reflexivity.
  - rewrite !IH, Pos2Nat.inj_xO.
    replace (2 * Pos.to_nat p)%nat with (Pos.to_nat p + Pos.to_nat p)%nat by lia.
    now rewrite Nat.iter_add.
  - reflexivity.
Qed.

(** One shift: the mantissa is halved, its low bit becomes the round bit,
    the old round bit joins the sticky bit. *)
Lemma shr_1_spec (M : Z) (r s : bool) :
  0 <= M ->
  SpecFloat.shr_1 (SpecFloat.Build_shr_record M r s)
  = SpecFloat.Build_shr_record (M / 2) (Z.odd M) (r || s).
Proof.
  intros HM. destruct M as [|p|p]; [reflexivity| |lia].
  destruct p as [p|p|]; simpl SpecFloat.shr_1.
  - replace (Zpos p~1 / 2) with (Zpos p); [reflexivity|].
    change (Zpos p~1) with (2 * Zpos p + 1). apply Z.div_unique with 1; lia.
  - replace (Zpos p~0 / 2) with (Zpos p); [reflexivity|].
    change (Zpos p~0) with (2 * Zpos p). apply Z.div_unique with 0; lia.
  - reflexivity.
Qed.

(** After [k >= 1] shifts of [m]: what is left, the round bit and the
    sticky bit. *)
Lemma shr_iter_spec (m : Z) (k : nat) :
  0 <= m ->
  exists M r s t,
    Nat.iter (S k) SpecFloat.shr_1 (SpecFloat.Build_shr_record m false false)
    = SpecFloat.Build_shr_record M r s /\
    0 <= M /\
    0 <= t < 2 ^ Z.of_nat k /\
    m = M * 2 ^ (Z.of_nat k + 1) + Z.b2z r * 2 ^ Z.of_nat k + t /\
    s = negb (t =? 0).
Proof.
  intros Hm. induction k as [|k IH].
  - exists (m / 2), (Z.odd m), false, 0.
    change (Nat.iter 1 SpecFloat.shr_1 (SpecFloat.Build_shr_record m false false))
      with (SpecFloat.shr_1 (SpecFloat.Build_shr_record m false false)).
    rewrite shr_1_spec by assumption. split; [reflexivity|].
    split; [apply Z.div_pos; lia|]. split; [simpl; lia|].
    split; [|reflexivity].
    change (2 ^ (Z.of_nat 0 + 1)) with 2. change (2 ^ Z.of_nat 0) with 1.
    pose proof (Z.div2_odd m) as H. rewrite Z.div2_div in H. lia.
  - destruct IH as (M & r & s & t & Hit & HM & Ht & Hdec & Hs).
    rewrite Nat.iter_succ, Hit, shr_1_spec by assumption.
    exists (M / 2), (Z.odd M), (r || s), (Z.b2z r * 2 ^ Z.of_nat k + t).
    split; [reflexivity|]. split; [apply Z.div_pos; lia|].
    assert (Hp : 0 < 2 ^ Z.of_nat k) by (apply pow2_pos; lia).
    assert (E1 : 2 ^ Z.of_nat (S k) = 2 * 2 ^ Z.of_nat k).
    { rewrite Nat2Z.inj_succ, <- Z.add_1_r, pow2_split by lia. change (2 ^ 1) with 2. lia. }
    assert (E2 : 2 ^ (Z.of_nat (S k) + 1) = 2 * 2 ^ Z.of_nat (S k)).
    { rewrite pow2_split by lia. change (2 ^ 1) with 2. lia. }
    assert (E3 : 2 ^ (Z.of_nat k + 1) = 2 * 2 ^ Z.of_nat k).
    { rewrite pow2_split by lia. change (2 ^ 1) with 2. lia. }
    split; [destruct r; simpl Z.b2z; lia|].
    split.
    + rewrite E2, E1. rewrite E3 in Hdec.
      pose proof (Z.div2_odd M) as H. rewrite Z.div2_div in H.
      set (Q := M / 2) in *. set (b := Z.b2z (Z.odd M)) in *.
      rewrite Hdec. rewrite H at 1. ring.
    + subst s. destruct r; cbn [Z.b2z orb].
      * symmetry. apply negb_true_iff, Z.eqb_neq. lia.
      * rewrite Z.mul_0_l, Z.add_0_l. reflexivity.
Qed.

(** The first half of [binary_round_aux]: shifting [m] by [n >= 0] places
    and rounding what is left to nearest, ties to even. *)
Lemma shr_round_spec (m : positive) (e n : Z) :
  0 <= n ->
  exists mrs q,
    SpecFloat.shr (SpecFloat.shr_record_of_loc (Zpos m) SpecFloat.loc_Exact) e n
    = (mrs, e + n) /\
    SpecFloat.round_nearest_even (SpecFloat.shr_m mrs)
      (SpecFloat.loc_of_shr_record mrs) = q /\
    nearest_even (Zpos m) (2 ^ n) q /\ 0 <= q.
Proof.
  intros Hn. destruct n as [|p|p]; [| |lia].
  - exists (SpecFloat.Build_shr_record (Zpos m) false false), (Zpos m).
    simpl. rewrite Z.add_0_r. repeat split; [apply nearest_even_unit|lia].
  - unfold SpecFloat.shr. rewrite iter_pos_nat.
    destruct (Pos2Nat.is_succ p) as (k & Hk). rewrite Hk.
    destruct (@shr_iter_spec (Zpos m) k ltac:(lia))
      as (M & r & s & t & Hit & HM & Ht & Hdec & Hs).
    simpl SpecFloat.shr_record_of_loc. rewrite Hit.
    assert (Hpk : Zpos p = Z.of_nat k + 1) by lia.
    assert (Hp : 0 < 2 ^ Z.of_nat k) by (apply pow2_pos; lia).
    assert (E3 : 2 ^ (Z.of_nat k + 1) = 2 * 2 ^ Z.of_nat k).
    { rewrite pow2_split by lia. change (2 ^ 1) with 2. lia. }
    eexists; eexists. split; [reflexivity|]. split; [reflexivity|].
    rewrite Hpk. simpl SpecFloat.shr_m.
    split.
    + exists M, (Z.b2z r * 2 ^ Z.of_nat k + t). split; [lia|].
      split; [destruct r; simpl Z.b2z; lia|].
      rewrite E3.
      destruct r, s; simpl Z.b2z; simpl SpecFloat.loc_of_shr_record;
        simpl SpecFloat.round_nearest_even;
        symmetry in Hs; try apply negb_true_iff in Hs; try apply negb_false_iff in Hs;
        try apply Z.eqb_neq in Hs; try apply Z.eqb_eq in Hs.
      * right; right. split; [lia|reflexivity].
      * right; left. split; [lia|reflexivity].
      * left. split; [lia|reflexivity].
      * left. split; [lia|reflexivity].
    + destruct r, s; simpl; try lia; destruct (Z.even M); lia.
Qed.

(** ** [binary_round_aux], in units *)

Lemma fexp_spec (x : Z) : fexp x = Z.max (x - 53) (-1074).
Proof. reflexivity. Qed.

Lemma unit_exponent_value : UNIT_EXPONENT = -2148.
Proof. reflexivity. Qed.

Lemma infinity_units_value : INFINITY_UNITS = 2 ^ 3172.
Proof. reflexivity. Qed.

Lemma Zdigits2_bound (q : Z) (k : Z) :
  0 < q -> 0 <= k -> q < 2 ^ k -> SpecFloat.Zdigits2 q <= k.
Proof.
  intros Hq Hk Hlt. destruct q as [|p|p]; try lia.
  simpl SpecFloat.Zdigits2.
  pose proof (digits2_bounds p) as [Hlo _].
  assert (H : 2 ^ (Zpos (digits p) - 1) < 2 ^ k) by lia.
  apply pow2_lt_inv in H; lia.
Qed.

(** [binary_round_aux] on a mantissa with digits enough: the result, in
    units, is the mantissa rounded at the exponent of its binade, or
    infinity. *)
Lemma binary_round_aux_units (s : bool) (m : positive) (e : Z) :
  e <= fexp (Zpos (digits m) + e) ->
  exists q,
    nearest_even (Zpos m) (2 ^ (fexp (Zpos (digits m) + e) - e)) q /\
    0 <= q /\
    units_of_spec
      (SpecFloat.binary_round_aux prec emax s (Zpos m) e SpecFloat.loc_Exact)
    = Some (signed s
              (Z.min (q * 2 ^ (fexp (Zpos (digits m) + e) - UNIT_EXPONENT))
                     INFINITY_UNITS)).
Proof.
  intros Hal.
  set (e' := fexp (Zpos (digits m) + e)) in *.
  assert (He' : e' = Z.max (Zpos (digits m) + e - 53) (-1074)) by apply fexp_spec.
  destruct (@shr_round_spec m e (e' - e) ltac:(lia))
    as (mrs & q & Hshr & Hq & Hne & Hq0).
  exists q. split; [exact Hne|]. split; [exact Hq0|].
  unfold SpecFloat.binary_round_aux, SpecFloat.shr_fexp.
  cbn [SpecFloat.Zdigits2]. fold e'. rewrite Hshr. cbv iota beta. rewrite Hq.
  replace (e + (e' - e)) with e' by lia.
  pose proof (digits2_bounds m) as [Hmlo Hmhi].
  assert (HP : 0 < 2 ^ (e' - e)) by (apply pow2_pos; lia).
  assert (Hqhi : q <= 2 ^ 53).
  { apply (@nearest_even_upper _ _ _ (2 ^ 53) HP Hne).
    rewrite <- pow2_split by lia.
    assert (2 ^ Zpos (digits m) <= 2 ^ (53 + (e' - e))) by (apply pow2_le; lia).
    lia. }
  assert (Hqlo : -1074 < e' -> 2 ^ 52 <= q).
  { intros Hn. apply (@nearest_even_lower _ _ _ (2 ^ 52) HP Hne).
    rewrite <- pow2_split by lia.
    replace (52 + (e' - e)) with (Zpos (digits m) - 1) by lia. exact Hmlo. }
  rewrite unit_exponent_value, infinity_units_value.
  assert (Hsplit : forall a b, 0 <= a -> 0 <= b -> 2 ^ (a + b) = 2 ^ a * 2 ^ b)
    by (intros; now apply pow2_split).
  destruct (Z.eq_dec q 0) as [->|Hq0'].
  { simpl SpecFloat.shr_record_of_loc. simpl SpecFloat.Zdigits2.
    assert (Hn : fexp (0 + e') - e' <= 0) by (rewrite fexp_spec; lia).
    unfold SpecFloat.shr. destruct (fexp (0 + e') - e') as [|p|p] eqn:En; try lia;
      cbn [SpecFloat.shr_m units_of_spec]; f_equal;
      rewrite Z.mul_0_l, Z.min_l by (apply Z.lt_le_incl, pow2_pos; lia);
      destruct s; reflexivity. }
  destruct (Z.eq_dec q (2 ^ 53)) as [->|Hq53].
  { assert (Hn : fexp (SpecFloat.Zdigits2 (2 ^ 53) + e') - e' = 1).
    { change (SpecFloat.Zdigits2 (2 ^ 53)) with 54. rewrite fexp_spec. lia. }
    rewrite Hn. cbn [SpecFloat.shr SpecFloat.iter_pos SpecFloat.shr_record_of_loc].
    change (SpecFloat.shr_1 (SpecFloat.Build_shr_record (2 ^ 53) false false))
      with (SpecFloat.Build_shr_record (2 ^ 52) false false).
    cbn [SpecFloat.shr_m]. change (2 ^ 52) with (Zpos (2 ^ 52)%positive) at 1.
    cbv iota beta.
    assert (Hv : Zpos (2 ^ 52)%positive * 2 ^ (e' + 1 - -2148) = 2 ^ 53 * 2 ^ (e' - -2148)).
    { replace (e' + 1 - -2148) with (1 + (e' - -2148)) by lia.
      rewrite Hsplit by lia. change (Zpos (2 ^ 52)%positive) with (2 ^ 52).
      change (2 ^ 53) with (2 ^ 52 * 2 ^ 1). ring. }
    assert (Hv2 : 2 ^ 53 * 2 ^ (e' - -2148) = 2 ^ (53 + e' + 2148)).
    { replace (53 + e' + 2148) with (53 + (e' - -2148)) by lia.
      now rewrite Hsplit by lia. }
    destruct (Z.leb_spec (e' + 1) (emax - prec)) as [Hle|Hgt];
      cbn [units_of_spec]; rewrite ?unit_exponent_value, ?infinity_units_value;
      f_equal; f_equal.
    - rewrite Hv. rewrite Z.min_l; [reflexivity|].
      rewrite Hv2. apply pow2_le. change (emax - prec) with 971 in Hle. lia.
    - rewrite Z.min_r; [reflexivity|].
      rewrite Hv2. apply pow2_le. change (emax - prec) with 971 in Hgt. lia. }
  assert (Hq_pos : 0 < q) by lia.
  assert (Hn : fexp (SpecFloat.Zdigits2 q + e') - e' <= 0).
  { pose proof (@Zdigits2_bound q 53 Hq_pos ltac:(lia) ltac:(lia)).
    rewrite fexp_spec. lia. }
  assert (Hshr2 : SpecFloat.shr (SpecFloat.shr_record_of_loc q SpecFloat.loc_Exact) e'
                    (fexp (SpecFloat.Zdigits2 q + e') - e')
                  = (SpecFloat.Build_shr_record q false false, e')).
  { unfold SpecFloat.shr.
    destruct (fexp (SpecFloat.Zdigits2 q + e') - e') as [|p|p]; try lia; reflexivity. }
  rewrite Hshr2. cbv iota beta. cbn [SpecFloat.shr_m].
  destruct q as [|p|p]; try lia.
  destruct (Z.leb_spec e' (emax - prec)) as [Hle|Hgt];
    cbn [units_of_spec]; rewrite ?unit_exponent_value, ?infinity_units_value;
    f_equal; f_equal.
  - rewrite Z.min_l; [reflexivity|].
    change (emax - prec) with 971 in Hle.
    assert (2 ^ (e' - -2148) <= 2 ^ (971 + 2148)) by (apply pow2_le; lia).
    assert (0 < 2 ^ (e' - -2148)) by (apply pow2_pos; lia).
    change (2 ^ 3172) with (2 ^ 53 * 2 ^ (971 + 2148)).
    apply Z.mul_le_mono_nonneg; lia.
  - rewrite Z.min_r; [reflexivity|].
    change (emax - prec) with 971 in Hgt.
    specialize (Hqlo ltac:(lia)).
    assert (2 ^ (972 + 2148) <= 2 ^ (e' - -2148)) by (apply pow2_le; lia).
    change (2 ^ 3172) with (2 ^ 52 * 2 ^ (972 + 2148)).
    apply Z.mul_le_mono_nonneg; lia.
Qed.

(** ** Rounding is monotone *)

Lemma round_div_spec (m P : Z) : 0 < P -> nearest_even m P (round_div m P).
Proof.
  intros HP. exists (m / P), (m mod P).
  pose proof (Z.div_mod m P ltac:(lia)) as Hdm.
  pose proof (Z.mod_pos_bound m P HP) as Hb.
  split; [lia|]. split; [exact Hb|].
  unfold round_div.
  destruct (Z.ltb_spec (2 * (m mod P)) P) as [H1|H1]; [left; split; [lia|reflexivity]|].
  destruct (Z.eqb_spec (2 * (m mod P)) P) as [H2|H2].
  - right; left. split; [lia|reflexivity].
  - right; right. split; [lia|reflexivity].
Qed.

Lemma rounded_quotient_upper (m : positive) (e q : Z) :
  e <= fexp (Zpos (digits m) + e) ->
  nearest_even (Zpos m) (2 ^ (fexp (Zpos (digits m) + e) - e)) q -> q <= 2 ^ 53.
Proof.
  intros Hal Hne.
  set (e' := fexp (Zpos (digits m) + e)) in *.
  assert (He' : e' = Z.max (Zpos (digits m) + e - 53) (-1074)) by apply fexp_spec.
  pose proof (digits2_bounds m) as [Hmlo Hmhi].
  assert (HP : 0 < 2 ^ (e' - e)) by (apply pow2_pos; lia).
  apply (@nearest_even_upper _ _ _ (2 ^ 53) HP Hne).
  rewrite <- pow2_split by lia.
  assert (2 ^ Zpos (digits m) <= 2 ^ (53 + (e' - e))) by (apply pow2_le; lia).
  lia.
Qed.

Lemma rounded_quotient_lower (m : positive) (e q : Z) :
  e <= fexp (Zpos (digits m) + e) ->
  nearest_even (Zpos m) (2 ^ (fexp (Zpos (digits m) + e) - e)) q ->
  -1074 < fexp (Zpos (digits m) + e) -> 2 ^ 52 <= q.
Proof.
  intros Hal Hne Hn.
  set (e' := fexp (Zpos (digits m) + e)) in *.
  assert (He' : e' = Z.max (Zpos (digits m) + e - 53) (-1074)) by apply fexp_spec.
  pose proof (digits2_bounds m) as [Hmlo Hmhi].
  assert (HP : 0 < 2 ^ (e' - e)) by (apply pow2_pos; lia).
  apply (@nearest_even_lower _ _ _ (2 ^ 52) HP Hne).
  rewrite <- pow2_split by lia.
  replace (52 + (e' - e)) with (Zpos (digits m) - 1) by lia. exact Hmlo.
Qed.

Lemma rounded_nonneg (m : positive) (e r : Z) : rounded m e r -> 0 <= r.
Proof.
  intros (Hal & q & Hne & ->).
  assert (HP : 0 < 2 ^ (fexp (Zpos (digits m) + e) - e)) by (apply pow2_pos; lia).
  assert (0 <= q) by (apply (@nearest_even_lower _ _ _ 0 HP Hne); lia).
  rewrite infinity_units_value.
  assert (0 <= 2 ^ (fexp (Z.pos (digits m) + e) - UNIT_EXPONENT))
    by (apply Z.pow_nonneg; lia).
  assert (0 < 2 ^ 3172) by (apply pow2_pos; lia).
  apply Z.min_glb; nia.
Qed.

Lemma rounded_le_infinity (m : positive) (e r : Z) :
  rounded m e r -> r <= INFINITY_UNITS.
Proof. intros (Hal & q & Hne & ->). apply Z.le_min_r. Qed.

(** Rounding is monotone: of two values, the lesser rounds to the lesser
    double. *)
Lemma rounded_mono (m1 m2 : positive) (e1 e2 r1 r2 : Z) :
  rounded m1 e1 r1 -> rounded m2 e2 r2 ->
  UNIT_EXPONENT <= e1 -> UNIT_EXPONENT <= e2 ->
  Zpos m1 * 2 ^ (e1 - UNIT_EXPONENT) <= Zpos m2 * 2 ^ (e2 - UNIT_EXPONENT) ->
  r1 <= r2.
Proof.
  intros (Hal1 & q1 & Hne1 & ->) (Hal2 & q2 & Hne2 & ->) Hu1 Hu2 Hle.
  pose proof (rounded_quotient_upper Hal1 Hne1) as Hq1.
  pose proof (@rounded_quotient_lower m2 e2 q2 Hal2 Hne2) as Hq2.
  set (e1' := fexp (Zpos (digits m1) + e1)) in *.
  set (e2' := fexp (Zpos (digits m2) + e2)) in *.
  assert (He1 : e1' = Z.max (Zpos (digits m1) + e1 - 53) (-1074)) by apply fexp_spec.
  assert (He2 : e2' = Z.max (Zpos (digits m2) + e2 - 53) (-1074)) by apply fexp_spec.
  rewrite unit_exponent_value in *.
  pose proof (digits2_bounds m1) as [Hlo1 _].
  pose proof (digits2_bounds m2) as [_ Hhi2].
  assert (Hpos1 : 0 < 2 ^ (e1 - -2148)) by (apply pow2_pos; lia).
  assert (Hpos2 : 0 < 2 ^ (e2 - -2148)) by (apply pow2_pos; lia).
  assert (Hmag : Zpos (digits m1) + e1 <= Zpos (digits m2) + e2).
  { assert (H : 2 ^ (Zpos (digits m1) - 1 + (e1 - -2148))
                < 2 ^ (Zpos (digits m2) + (e2 - -2148))).
    { rewrite !pow2_split by lia.
      assert (2 ^ (Zpos (digits m1) - 1) * 2 ^ (e1 - -2148)
              <= Zpos m1 * 2 ^ (e1 - -2148)) by nia.
      assert (Zpos m2 * 2 ^ (e2 - -2148)
              < 2 ^ Zpos (digits m2) * 2 ^ (e2 - -2148)) by nia.
      lia. }
    apply pow2_lt_inv in H; lia. }
  assert (Hee : e1' <= e2') by lia.
  apply Z.min_le_compat_r.
  destruct (Z.eq_dec e1' e2') as [Heq|Hneq].
  - rewrite <- Heq in *. clear Heq He2.
    set (k := Z.min e1 e2).
    assert (Hk1 : nearest_even (Zpos m1 * 2 ^ (e1 - k)) (2 ^ (e1' - k)) q1).
    { replace (e1' - k) with ((e1' - e1) + (e1 - k)) by lia.
      rewrite pow2_split by lia.
      apply nearest_even_scale; [apply pow2_pos; lia|exact Hne1]. }
    assert (Hk2 : nearest_even (Zpos m2 * 2 ^ (e2 - k)) (2 ^ (e1' - k)) q2).
    { replace (e1' - k) with ((e1' - e2) + (e2 - k)) by lia.
      rewrite pow2_split by lia.
      apply nearest_even_scale; [apply pow2_pos; lia|exact Hne2]. }
    assert (Hv : Zpos m1 * 2 ^ (e1 - k) <= Zpos m2 * 2 ^ (e2 - k)).
    { replace (e1 - -2148) with ((e1 - k) + (k - -2148)) in Hle by lia.
      replace (e2 - -2148) with ((e2 - k) + (k - -2148)) in Hle by lia.
      rewrite !pow2_split in Hle by lia.
      assert (0 < 2 ^ (k - -2148)) by (apply pow2_pos; lia).
      rewrite !Z.mul_assoc in Hle.
      apply Z.mul_le_mono_pos_r in Hle; assumption. }
    assert (Hq : q1 <= q2).
    { apply (@nearest_even_mono _ _ (2 ^ (e1' - k)) _ _ ltac:(apply pow2_pos; lia) Hk1 Hk2 Hv). }
    apply Z.mul_le_mono_nonneg_r; [apply Z.pow_nonneg; lia|exact Hq].
  - specialize (Hq2 ltac:(lia)).
    assert (H1 : q1 * 2 ^ (e1' - -2148) <= 2 ^ 53 * 2 ^ (e1' - -2148)).
    { apply Z.mul_le_mono_nonneg_r; [apply Z.pow_nonneg; lia|exact Hq1]. }
    assert (H2 : 2 ^ 52 * 2 ^ (e2' - -2148) <= q2 * 2 ^ (e2' - -2148)).
    { apply Z.mul_le_mono_nonneg_r; [apply Z.pow_nonneg; lia|exact Hq2]. }
    assert (H3 : 2 ^ 53 * 2 ^ (e1' - -2148) <= 2 ^ 52 * 2 ^ (e2' - -2148)).
    { rewrite <- !pow2_split by lia. apply pow2_le. lia. }
    lia.
Qed.

Lemma rounded_fun (m1 m2 : positive) (e1 e2 r1 r2 : Z) :
  rounded m1 e1 r1 -> rounded m2 e2 r2 ->
  UNIT_EXPONENT <= e1 -> UNIT_EXPONENT <= e2 ->
  Zpos m1 * 2 ^ (e1 - UNIT_EXPONENT) = Zpos m2 * 2 ^ (e2 - UNIT_EXPONENT) ->
  r1 = r2.
Proof.
  intros H1 H2 Hu1 Hu2 Heq.
  pose proof (rounded_mono H1 H2 Hu1 Hu2 ltac:(lia)).
  pose proof (rounded_mono H2 H1 Hu2 Hu1 ltac:(lia)). lia.
Qed.

Lemma round_units_rounded (v : positive) :
  rounded v UNIT_EXPONENT (round_units (Zpos v)).
Proof.
  unfold rounded. split; [rewrite fexp_spec, unit_exponent_value; lia|].
  exists (round_div (Zpos v) (2 ^ (fexp (Zpos (digits v) + UNIT_EXPONENT) - UNIT_EXPONENT))).
  split; [|reflexivity].
  apply round_div_spec, pow2_pos. rewrite fexp_spec, unit_exponent_value. lia.
Qed.

(** What [rounded] relates a value to is [round_units] of the value. *)
Lemma rounded_round_units (m : positive) (e r : Z) :
  rounded m e r -> UNIT_EXPONENT <= e ->
  r = round_units (Zpos m * 2 ^ (e - UNIT_EXPONENT)).
Proof.
  intros Hr Hu.
  assert (Hpos : 0 < Zpos m * 2 ^ (e - UNIT_EXPONENT)).
  { apply Z.mul_pos_pos; [lia|apply pow2_pos; lia]. }
  destruct (Zpos m * 2 ^ (e - UNIT_EXPONENT)) as [|v|v] eqn:Ev; try lia.
  apply (rounded_fun Hr (round_units_rounded v) Hu (Z.le_refl _)).
  rewrite Ev, Z.sub_diag. change (2 ^ 0) with 1. lia.
Qed.

Lemma round_units_opp (V : Z) : round_units (- V) = - round_units V.
Proof. destruct V; simpl; try reflexivity. now rewrite Z.opp_involutive. Qed.

Lemma round_units_pos (V : Z) : 0 <= V -> 0 <= round_units V.
Proof.
  intros HV. destruct V as [|v|v]; [simpl; lia| |lia].
  apply (rounded_nonneg (round_units_rounded v)).
Qed.

Lemma round_units_mono (V1 V2 : Z) : V1 <= V2 -> round_units V1 <= round_units V2.
Proof.
  intros Hle.
  assert (Hpp : forall v1 v2 : positive, Zpos v1 <= Zpos v2 ->
                round_units (Zpos v1) <= round_units (Zpos v2)).
  { intros v1 v2 H.
    apply (rounded_mono (round_units_rounded v1) (round_units_rounded v2)
             (Z.le_refl _) (Z.le_refl _)).
    rewrite Z.sub_diag. change (2 ^ 0) with 1. lia. }
  destruct V1 as [|v1|v1], V2 as [|v2|v2]; try lia.
  - apply round_units_pos. lia.
  - apply Hpp, Hle.
  - change (Zneg v1) with (- Zpos v1). rewrite round_units_opp.
    pose proof (@round_units_pos (Zpos v1) ltac:(lia)). simpl round_units at 2. lia.
  - change (Zneg v1) with (- Zpos v1). rewrite round_units_opp.
    pose proof (@round_units_pos (Zpos v1) ltac:(lia)).
    pose proof (@round_units_pos (Zpos v2) ltac:(lia)). lia.
  - change (Zneg v1) with (- Zpos v1). change (Zneg v2) with (- Zpos v2).
    rewrite !round_units_opp.
    assert (round_units (Zpos v2) <= round_units (Zpos v1)) by (apply Hpp; lia). lia.
Qed.

Lemma round_units_le_infinity (V : Z) : round_units V <= INFINITY_UNITS.
Proof.
  assert (0 < INFINITY_UNITS) by (rewrite infinity_units_value; apply pow2_pos; lia).
  destruct V as [|v|v].
  - simpl. lia.
  - apply (rounded_le_infinity (round_units_rounded v)).
  - change (Zneg v) with (- Zpos v). rewrite round_units_opp.
    pose proof (@round_units_pos (Zpos v) ltac:(lia)). lia.
Qed.

Lemma round_units_ge_infinity (V : Z) : - INFINITY_UNITS <= round_units V.
Proof.
  pose proof (round_units_le_infinity (- V)) as H.
  rewrite round_units_opp in H. lia.
Qed.

(** ** Valid doubles and their order *)

Lemma some_units_inj (a b : Z) : Some a = Some b -> a = b.
Proof. congruence. Qed.

(** What [valid_binary] says of a finite double. *)
Lemma bounded_spec (m : positive) (e : Z) :
  SpecFloat.bounded prec emax m e = true ->
  fexp (Zpos (digits m) + e) = e /\ -1074 <= e <= 971 /\
  Zpos (digits m) <= 53 /\ (-1074 < e -> Zpos (digits m) = 53).
Proof.
  unfold SpecFloat.bounded, SpecFloat.canonical_mantissa.
  intros H. apply andb_true_iff in H as [Hc He].
  apply Z.eqb_eq in Hc. apply Z.leb_le in He.
  change (emax - prec) with 971 in He.
  split; [exact Hc|]. rewrite fexp_spec in Hc. lia.
Qed.

Lemma finite_units_bounds (m : positive) (e : Z) :
  SpecFloat.bounded prec emax m e = true ->
  0 < Zpos m * 2 ^ (e - UNIT_EXPONENT) < INFINITY_UNITS.
Proof.
  intros H. apply bounded_spec in H as (Hc & He & Hd & _).
  rewrite unit_exponent_value, infinity_units_value.
  pose proof (digits2_bounds m) as [_ Hhi].
  assert (Hp : 0 < 2 ^ (e - -2148)) by (apply pow2_pos; lia).
  split; [nia|].
  assert (H53 : 2 ^ Zpos (digits m) <= 2 ^ 53) by (apply pow2_le; lia).
  assert (H2 : 2 ^ (e - -2148) <= 2 ^ 3119) by (apply pow2_le; lia).
  change (2 ^ 3172) with (2 ^ 53 * 2 ^ 3119).
  assert (Zpos m * 2 ^ (e - -2148) < 2 ^ 53 * 2 ^ (e - -2148)) by nia.
  assert (2 ^ 53 * 2 ^ (e - -2148) <= 2 ^ 53 * 2 ^ 3119) by nia.
  lia.
Qed.

Lemma rounded_exact (m : positive) (e : Z) :
  SpecFloat.bounded prec emax m e = true ->
  rounded m e (Zpos m * 2 ^ (e - UNIT_EXPONENT)).
Proof.
  intros H. pose proof (finite_units_bounds _ _ H) as Hb.
  apply bounded_spec in H as (Hc & He & Hd & _).
  unfold rounded. rewrite Hc. split; [lia|].
  exists (Zpos m). rewrite Z.sub_diag. split; [apply nearest_even_unit|].
  rewrite Z.min_l; lia.
Qed.

(** A double rounds to itself. *)
Lemma round_units_exact (m : positive) (e : Z) :
  SpecFloat.bounded prec emax m e = true ->
  round_units (Zpos m * 2 ^ (e - UNIT_EXPONENT)) = Zpos m * 2 ^ (e - UNIT_EXPONENT).
Proof.
  intros H. symmetry. apply rounded_round_units; [now apply rounded_exact|].
  apply bounded_spec in H. rewrite unit_exponent_value. lia.
Qed.

Lemma infinity_units_pos : 0 < INFINITY_UNITS.
Proof. rewrite infinity_units_value. apply pow2_pos. lia. Qed.

(** Every double that is not NaN lies between the infinities, and rounds
    to itself. *)
Lemma units_of_spec_range (x : SpecFloat.spec_float) (a : Z) :
  SpecFloat.valid_binary prec emax x = true -> units_of_spec x = Some a ->
  - INFINITY_UNITS <= a <= INFINITY_UNITS.
Proof.
  pose proof infinity_units_pos.
  destruct x as [s|s| |s m e]; cbn [units_of_spec SpecFloat.valid_binary];
    intros Hv Hu; try discriminate; apply some_units_inj in Hu; subst a; try lia.
  - destruct s; cbn [signed]; lia.
  - pose proof (finite_units_bounds _ _ Hv). destruct s; cbn [signed]; lia.
Qed.

(** Settles a comparison that the signs and the bounds decide. *)
Ltac compare_units :=
  repeat match goal with s : bool |- _ => destruct s end;
  cbn [signed SpecFloat.SFcompare] in *; f_equal; symmetry;
  first [apply Z.compare_eq_iff; lia
        |apply Z.compare_lt_iff; lia
        |apply Z.compare_gt_iff; lia].

(** The order of the doubles is the order of their units. *)
Lemma SFcompare_units (x y : SpecFloat.spec_float) (a b : Z) :
  SpecFloat.valid_binary prec emax x = true ->
  SpecFloat.valid_binary prec emax y = true ->
  units_of_spec x = Some a -> units_of_spec y = Some b ->
  SpecFloat.SFcompare x y = Some (a ?= b).
Proof.
  pose proof infinity_units_pos as Hinf.
  intros Hvx Hvy Hx Hy.
  destruct x as [sx|sx| |sx mx ex], y as [sy|sy| |sy my ey];
    cbn [units_of_spec] in Hx, Hy; try discriminate;
    apply some_units_inj in Hx; apply some_units_inj in Hy; subst a b;
    cbn [SpecFloat.valid_binary] in Hvx, Hvy;
    try (pose proof (finite_units_bounds _ _ Hvx) as Hbx);
    try (pose proof (finite_units_bounds _ _ Hvy) as Hby);
    try solve [compare_units].
  pose proof (bounded_spec _ _ Hvx) as (Hcx & Hex & Hdx & Hnx).
  pose proof (bounded_spec _ _ Hvy) as (Hcy & Hey & Hdy & Hny).
  pose proof (digits2_bounds mx) as [Hlox Hhix].
  pose proof (digits2_bounds my) as [Hloy Hhiy].
  rewrite unit_exponent_value in *.
  assert (Hpx : 0 < 2 ^ (ex - -2148)) by (apply pow2_pos; lia).
  assert (Hpy : 0 < 2 ^ (ey - -2148)) by (apply pow2_pos; lia).
  assert (Hlt : forall (m1 m2 : positive) (e1 e2 : Z),
             -1074 <= e1 -> e1 < e2 -> Zpos (digits m1) <= 53 -> Zpos (digits m2) = 53 ->
             Zpos m1 * 2 ^ (e1 - -2148) < Zpos m2 * 2 ^ (e2 - -2148)).
  { intros m1 m2 e1 e2 H1 H12 Hd1 Hd2.
    pose proof (digits2_bounds m1) as [_ Hhi1].
    pose proof (digits2_bounds m2) as [Hlo2 _].
    rewrite Hd2 in Hlo2. change (2 ^ (53 - 1)) with (2 ^ 52) in Hlo2.
    assert (Zpos m1 < 2 ^ 53).
    { assert (2 ^ Zpos (digits m1) <= 2 ^ 53) by (apply pow2_le; lia). lia. }
    assert (0 < 2 ^ (e1 - -2148)) by (apply pow2_pos; lia).
    assert (2 * 2 ^ (e1 - -2148) <= 2 ^ (e2 - -2148)).
    { change 2 with (2 ^ 1) at 1. rewrite <- pow2_split by lia. apply pow2_le. lia. }
    assert (Zpos m1 * 2 ^ (e1 - -2148) < 2 ^ 53 * 2 ^ (e1 - -2148)) by nia.
    assert (2 ^ 52 * 2 ^ (e2 - -2148) <= Zpos m2 * 2 ^ (e2 - -2148)) by nia.
    change (2 ^ 53) with (2 ^ 52 * 2) in *. nia. }
  assert (Heq : forall c, 0 < c ->
             (Zpos mx * c ?= Zpos my * c) = Pos.compare_cont Eq mx my).
  { intros c Hc. change (Pos.compare_cont Eq mx my) with (Zpos mx ?= Zpos my).
    symmetry. apply Zmult_compare_compat_r. lia. }
  unfold SpecFloat.SFcompare. f_equal.
  destruct sx, sy; cbn [signed].
  + destruct (Z.compare_spec ex ey) as [E|E|E].
    * subst ey. rewrite Z.compare_opp.
      rewrite (Z.compare_antisym (Zpos mx * 2 ^ (ex - -2148))).
      now rewrite Heq by assumption.
    * symmetry. apply Z.compare_gt_iff.
      pose proof (Hlt mx my ex ey ltac:(lia) E Hdx (Hny ltac:(lia))). lia.
    * symmetry. apply Z.compare_lt_iff.
      pose proof (Hlt my mx ey ex ltac:(lia) E Hdy (Hnx ltac:(lia))). lia.
  + symmetry. apply Z.compare_lt_iff. lia.
  + symmetry. apply Z.compare_gt_iff. lia.
  + destruct (Z.compare_spec ex ey) as [E|E|E].
    * subst ey. now rewrite Heq.
    * symmetry. apply Z.compare_lt_iff.
      apply (Hlt mx my ex ey ltac:(lia) E Hdx (Hny ltac:(lia))).
    * symmetry. apply Z.compare_gt_iff.
      pose proof (Hlt my mx ey ex ltac:(lia) E Hdy (Hnx ltac:(lia))). lia.
Qed.

(** ** Aligning and normalising *)

Lemma iter_xO_value (m d : positive) :
  Zpos (Pos.iter xO m d) = Zpos m * 2 ^ Zpos d.
Proof.
  induction d as [|d IH] using Pos.peano_ind.
  - simpl Pos.iter. change (2 ^ 1) with 2. lia.
  - rewrite Pos.iter_succ, Pos2Z.inj_xO, IH, Pos2Z.inj_succ, <- Z.add_1_r.
    rewrite pow2_split by lia. change (2 ^ 1) with 2. lia.
Qed.

Lemma iter_xO_digits (m d : positive) :
  Zpos (digits (Pos.iter xO m d)) = Zpos (digits m) + Zpos d.
Proof.
  induction d as [|d IH] using Pos.peano_ind.
  - simpl Pos.iter. simpl digits. lia.
  - rewrite Pos.iter_succ. simpl digits. rewrite Pos2Z.inj_succ, IH. lia.
Qed.

(** [shl_align] keeps the value and lowers the exponent to the one asked
    for, when it is lower. *)
Lemma shl_align_spec (m : positive) (e e' : Z) :
  exists m', SpecFloat.shl_align m e e' = (m', Z.min e e') /\
    Zpos m' = Zpos m * 2 ^ (e - Z.min e e') /\
    Zpos (digits m') + Z.min e e' = Zpos (digits m) + e.
Proof.
  unfold SpecFloat.shl_align.
  destruct (e' - e) as [|d|d] eqn:Ed.
  - exists m. replace (Z.min e e') with e by lia. rewrite Z.sub_diag.
    split; [reflexivity|]. split; [change (2 ^ 0) with 1|]; lia.
  - exists m. replace (Z.min e e') with e by lia. rewrite Z.sub_diag.
    split; [reflexivity|]. split; [change (2 ^ 0) with 1|]; lia.
  - exists (Pos.iter xO m d). replace (Z.min e e') with e' by lia.
    split; [reflexivity|]. rewrite iter_xO_value, iter_xO_digits.
    replace (e - e') with (Zpos d) by lia. split; lia.
Qed.

Lemma scaled_split (m e k : Z) :
  UNIT_EXPONENT <= k -> k <= e ->
  m * 2 ^ (e - UNIT_EXPONENT) = m * 2 ^ (e - k) * 2 ^ (k - UNIT_EXPONENT).
Proof.
  intros H1 H2. replace (e - UNIT_EXPONENT) with ((e - k) + (k - UNIT_EXPONENT)) by lia.
  rewrite pow2_split by lia. ring.
Qed.

Lemma binary_round_units (s : bool) (m : positive) (e : Z) :
  UNIT_EXPONENT <= e ->
  units_of_spec (SpecFloat.binary_round prec emax s m e)
  = Some (signed s (round_units (Zpos m * 2 ^ (e - UNIT_EXPONENT)))).
Proof.
  intros Hu. unfold SpecFloat.binary_round.
  destruct (shl_align_spec m e (fexp (Zpos (digits m) + e)))
    as (m' & Hal & Hv & Hd).
  rewrite Hal.
  set (e' := Z.min e (fexp (Zpos (digits m) + e))) in *.
  assert (He' : UNIT_EXPONENT <= e' <= e).
  { unfold e'. rewrite fexp_spec. rewrite unit_exponent_value in *. lia. }
  assert (Hp : e' <= fexp (Zpos (digits m') + e')).
  { rewrite Hd. unfold e'. lia. }
  destruct (binary_round_aux_units s m' Hp) as (q & Hne & Hq0 & Hunits).
  rewrite Hunits. do 2 f_equal.
  assert (Hr : rounded m' e'
                 (Z.min (q * 2 ^ (fexp (Zpos (digits m') + e') - UNIT_EXPONENT))
                        INFINITY_UNITS)).
  { split; [exact Hp|]. exists q. split; [exact Hne|reflexivity]. }
  rewrite (rounded_round_units Hr) by lia.
  f_equal. rewrite Hv. rewrite (@scaled_split (Zpos m) e e') by lia. reflexivity.
Qed.

Lemma binary_normalize_units (M e : Z) (sz : bool) :
  UNIT_EXPONENT <= e ->
  units_of_spec (SpecFloat.binary_normalize prec emax M e sz)
  = Some (round_units (M * 2 ^ (e - UNIT_EXPONENT))).
Proof.
  intros Hu. destruct M as [|m|m]; cbn [SpecFloat.binary_normalize].
  - reflexivity.
  - now rewrite binary_round_units.
  - rewrite binary_round_units by assumption. cbn [signed].
    change (Zneg m) with (- Zpos m).
    now rewrite Z.mul_opp_l, round_units_opp.
Qed.

Lemma round_units_infinity : round_units INFINITY_UNITS = INFINITY_UNITS.
Proof. vm_compute. reflexivity. Qed.

Lemma round_units_zero : round_units 0 = 0.
Proof. reflexivity. Qed.

(** What reaches infinity rounds to infinity. *)
Lemma round_units_saturates (V : Z) :
  INFINITY_UNITS <= V -> round_units V = INFINITY_UNITS.
Proof.
  intros H. pose proof (round_units_mono H) as Hm.
  rewrite round_units_infinity in Hm.
  pose proof (round_units_le_infinity V). lia.
Qed.

(** A double that is not NaN, in units, rounds to itself. *)
Lemma round_units_of_spec (x : SpecFloat.spec_float) (a : Z) :
  SpecFloat.valid_binary prec emax x = true -> units_of_spec x = Some a ->
  round_units a = a.
Proof.
  destruct x as [s|s| |s m e]; cbn [units_of_spec SpecFloat.valid_binary];
    intros Hv Hu; try discriminate; apply some_units_inj in Hu; subst a.
  - reflexivity.
  - destruct s; cbn [signed]; [rewrite round_units_opp|]; now rewrite round_units_infinity.
  - destruct s; cbn [signed]; [rewrite round_units_opp|]; now rewrite round_units_exact.
Qed.

(** ** Sums, differences and products of [SpecFloat] *)

Lemma signed_mul (s : bool) (v c : Z) : signed s v * c = signed s (v * c).
Proof. destruct s; simpl; lia. Qed.

Lemma signed_opp (s : bool) (v : Z) : signed (negb s) v = - signed s v.
Proof. destruct s; simpl; lia. Qed.

Lemma signed_xorb (s1 s2 : bool) (v w : Z) :
  signed s1 v * signed s2 w = signed (xorb s1 s2) (v * w).
Proof. destruct s1, s2; simpl; lia. Qed.

Lemma round_units_signed (s : bool) (V : Z) :
  round_units (signed s V) = signed s (round_units V).
Proof. destruct s; simpl; [apply round_units_opp|reflexivity]. Qed.

Lemma cond_Zopp_signed (s : bool) (v : Z) : SpecFloat.cond_Zopp s v = signed s v.
Proof. reflexivity. Qed.

(** The aligned mantissa of an operand of a sum, in units. *)
Lemma aligned_units (s : bool) (m : positive) (e ez : Z) :
  UNIT_EXPONENT <= ez -> ez <= e ->
  SpecFloat.cond_Zopp s (Zpos (fst (SpecFloat.shl_align m e ez)))
  * 2 ^ (ez - UNIT_EXPONENT)
  = signed s (Zpos m * 2 ^ (e - UNIT_EXPONENT)).
Proof.
  intros Hu Hle. destruct (shl_align_spec m e ez) as (m' & Hal & Hv & _).
  rewrite Hal. cbn [fst]. rewrite cond_Zopp_signed, signed_mul. f_equal.
  rewrite Hv. replace (Z.min e ez) with ez by lia.
  now rewrite (@scaled_split (Zpos m) e ez) by lia.
Qed.

Ltac units_tests :=
  repeat match goal with
  | |- context [Z.eqb ?x ?y] => destruct (Z.eqb_spec x y); try lia
  end.

(** [SFadd] on doubles that are not NaN. *)
Lemma SFadd_units (x y : SpecFloat.spec_float) (a b : Z) :
  SpecFloat.valid_binary prec emax x = true ->
  SpecFloat.valid_binary prec emax y = true ->
  units_of_spec x = Some a -> units_of_spec y = Some b ->
  units_of_spec (SpecFloat.SFadd prec emax x y) = add_units a b.
Proof.
  pose proof infinity_units_pos as Hinf.
  intros Hvx Hvy Hx Hy.
  pose proof (round_units_of_spec _ Hvx Hx) as Hrx.
  pose proof (round_units_of_spec _ Hvy Hy) as Hry.
  destruct x as [sx|sx| |sx mx ex], y as [sy|sy| |sy my ey];
    cbn [units_of_spec] in Hx, Hy; try discriminate;
    apply some_units_inj in Hx; apply some_units_inj in Hy;
    cbn [SpecFloat.valid_binary] in Hvx, Hvy;
    try (pose proof (finite_units_bounds _ _ Hvx) as Hbx);
    try (pose proof (finite_units_bounds _ _ Hvy) as Hby);
    unfold add_units.
  - (* zero, zero *)
    subst a b. units_tests. destruct sx, sy; reflexivity.
  - (* zero, infinity *)
    subst a b. destruct sy; cbn [signed]; units_tests; reflexivity.
  - (* zero, finite *)
    subst a. rewrite Z.add_0_l, Hry. subst b.
    destruct sy; cbn [signed] in *; units_tests; reflexivity.
  - subst a b. destruct sx; cbn [signed]; units_tests; reflexivity.
  - subst a b. destruct sx, sy; cbn [signed]; units_tests; reflexivity.
  - subst a b. destruct sx, sy; cbn [signed] in *; units_tests; reflexivity.
  - subst b. rewrite Z.add_0_r, Hrx. subst a.
    destruct sx; cbn [signed] in *; units_tests; reflexivity.
  - subst a b. destruct sx, sy; cbn [signed] in *; units_tests; reflexivity.
  - (* finite, finite *)
    assert (Hfin : Z.abs a < INFINITY_UNITS /\ Z.abs b < INFINITY_UNITS).
    { subst a b. destruct sx, sy; cbn [signed]; lia. }
    units_tests.
    cbn [SpecFloat.SFadd].
    pose proof (bounded_spec _ _ Hvx) as (_ & Hex & _).
    pose proof (bounded_spec _ _ Hvy) as (_ & Hey & _).
    rewrite binary_normalize_units by (rewrite unit_exponent_value; lia).
    f_equal. f_equal. rewrite Z.mul_add_distr_r.
    rewrite !aligned_units by (rewrite ?unit_exponent_value; lia).
    now subst a b.
Qed.

Lemma SFsub_units (x y : SpecFloat.spec_float) (a b : Z) :
  SpecFloat.valid_binary prec emax x = true ->
  SpecFloat.valid_binary prec emax y = true ->
  units_of_spec x = Some a -> units_of_spec y = Some b ->
  units_of_spec (SpecFloat.SFsub prec emax x y) = sub_units a b.
Proof.
  pose proof infinity_units_pos as Hinf.
  intros Hvx Hvy Hx Hy.
  pose proof (round_units_of_spec _ Hvx Hx) as Hrx.
  pose proof (round_units_of_spec _ Hvy Hy) as Hry.
  destruct x as [sx|sx| |sx mx ex], y as [sy|sy| |sy my ey];
    cbn [units_of_spec] in Hx, Hy; try discriminate;
    apply some_units_inj in Hx; apply some_units_inj in Hy;
    cbn [SpecFloat.valid_binary] in Hvx, Hvy;
    try (pose proof (finite_units_bounds _ _ Hvx) as Hbx);
    try (pose proof (finite_units_bounds _ _ Hvy) as Hby);
    unfold sub_units, add_units.
  - subst a b. units_tests. destruct sx, sy; reflexivity.
  - subst a b. destruct sy; cbn [signed]; units_tests; reflexivity.
  - subst a. rewrite Z.add_0_l, round_units_opp, Hry. subst b.
    cbn [SpecFloat.SFsub units_of_spec]. rewrite signed_opp.
    destruct sy; cbn [signed] in *; units_tests; reflexivity.
  - subst a b. destruct sx; cbn [signed]; units_tests; reflexivity.
  - subst a b. destruct sx, sy; cbn [signed]; units_tests; reflexivity.
  - subst a b. destruct sx, sy; cbn [signed] in *; units_tests; reflexivity.
  - subst b. rewrite Z.opp_0, Z.add_0_r, Hrx. subst a.
    destruct sx; cbn [signed] in *; units_tests; reflexivity.
  - subst a b. destruct sx, sy; cbn [signed] in *; units_tests; reflexivity.
  - assert (Hfin : Z.abs a < INFINITY_UNITS /\ Z.abs b < INFINITY_UNITS).
    { subst a b. destruct sx, sy; cbn [signed]; lia. }
    units_tests.
    cbn [SpecFloat.SFsub].
    pose proof (bounded_spec _ _ Hvx) as (_ & Hex & _).
    pose proof (bounded_spec _ _ Hvy) as (_ & Hey & _).
    rewrite binary_normalize_units by (rewrite unit_exponent_value; lia).
    f_equal. f_equal. rewrite Z.mul_sub_distr_r.
    rewrite !aligned_units by (rewrite ?unit_exponent_value; lia).
    subst a b. lia.
Qed.

(** The product of two mantissas has digits enough for [binary_round_aux]. *)
Lemma product_aligned (mx my : positive) (ex ey : Z) :
  SpecFloat.bounded prec emax mx ex = true ->
  SpecFloat.bounded prec emax my ey = true ->
  ex + ey <= fexp (Zpos (digits (mx * my)) + (ex + ey)).
Proof.
  intros Hvx Hvy.
  pose proof (bounded_spec _ _ Hvx) as (Hcx & Hex & Hdx & Hnx).
  pose proof (bounded_spec _ _ Hvy) as (Hcy & Hey & Hdy & Hny).
  pose proof (digits2_bounds mx) as [Hlox _].
  pose proof (digits2_bounds my) as [Hloy _].
  pose proof (digits2_bounds (mx * my)) as [_ Hhi].
  assert (Hd : Zpos (digits mx) + Zpos (digits my) - 1 <= Zpos (digits (mx * my))).
  { assert (H : 2 ^ ((Zpos (digits mx) - 1) + (Zpos (digits my) - 1))
                < 2 ^ Zpos (digits (mx * my))).
    { rewrite pow2_split by lia. rewrite Pos2Z.inj_mul in Hhi.
      assert (0 < 2 ^ (Zpos (digits mx) - 1)) by (apply pow2_pos; lia).
      assert (0 < 2 ^ (Zpos (digits my) - 1)) by (apply pow2_pos; lia).
      nia. }
    apply pow2_lt_inv in H; lia. }
  rewrite fexp_spec. lia.
Qed.

Lemma SFmul_units (x y : SpecFloat.spec_float) (a b : Z) :
  SpecFloat.valid_binary prec emax x = true ->
  SpecFloat.valid_binary prec emax y = true ->
  units_of_spec x = Some a -> units_of_spec y = Some b ->
  units_of_spec (SpecFloat.SFmul prec emax x y) = mul_units a b.
Proof.
  pose proof infinity_units_pos as Hinf.
  intros Hvx Hvy Hx Hy.
  destruct x as [sx|sx| |sx mx ex], y as [sy|sy| |sy my ey];
    cbn [units_of_spec] in Hx, Hy; try discriminate;
    apply some_units_inj in Hx; apply some_units_inj in Hy;
    cbn [SpecFloat.valid_binary] in Hvx, Hvy;
    try (pose proof (finite_units_bounds _ _ Hvx) as Hbx);
    try (pose proof (finite_units_bounds _ _ Hvy) as Hby);
    unfold mul_units.
  - subst a b. rewrite Z.mul_0_l. units_tests. reflexivity.
  - subst a b. destruct sy; cbn [signed]; units_tests; reflexivity.
  - subst a b. destruct sy; cbn [signed] in *; units_tests;
      rewrite ?Z.mul_0_l, ?Z.mul_0_r; reflexivity.
  - subst a b. destruct sx; cbn [signed]; units_tests; reflexivity.
  - subst a b. destruct sx, sy; cbn [signed]; units_tests;
      cbn [orb SpecFloat.SFmul units_of_spec xorb signed];
      f_equal; lia.
  - subst a b. destruct sx, sy; cbn [signed] in *; units_tests;
      cbn [orb SpecFloat.SFmul units_of_spec xorb signed]; f_equal; lia.
  - subst a b. destruct sx; cbn [signed] in *; units_tests;
      rewrite ?Z.mul_0_l, ?Z.mul_0_r; reflexivity.
  - subst a b. destruct sx, sy; cbn [signed] in *; units_tests;
      cbn [orb SpecFloat.SFmul units_of_spec xorb signed]; f_equal; lia.
  - assert (Hfin : Z.abs a < INFINITY_UNITS /\ Z.abs b < INFINITY_UNITS).
    { subst a b. destruct sx, sy; cbn [signed]; lia. }
    destruct (Z.eqb_spec (Z.abs a) INFINITY_UNITS); [lia|].
    destruct (Z.eqb_spec (Z.abs b) INFINITY_UNITS); [lia|].
    cbn [orb SpecFloat.SFmul].
    pose proof (bounded_spec _ _ Hvx) as (_ & Hex & _).
    pose proof (bounded_spec _ _ Hvy) as (_ & Hey & _).
    pose proof (@product_aligned mx my ex ey Hvx Hvy) as Hp.
    destruct (binary_round_aux_units (xorb sx sy) (mx * my) Hp)
      as (q & Hne & Hq0 & Hunits).
    rewrite Hunits. f_equal.
    assert (Hr : rounded (mx * my) (ex + ey)
                   (Z.min (q * 2 ^ (fexp (Zpos (digits (mx * my)) + (ex + ey))
                                    - UNIT_EXPONENT)) INFINITY_UNITS)).
    { split; [exact Hp|]. exists q. split; [exact Hne|reflexivity]. }
    rewrite (rounded_round_units Hr) by (rewrite unit_exponent_value; lia).
    rewrite <- round_units_signed. f_equal.
    subst a b. rewrite signed_xorb.
    assert (Hv : Zpos mx * 2 ^ (ex - UNIT_EXPONENT) * (Zpos my * 2 ^ (ey - UNIT_EXPONENT))
                 = Zpos (mx * my) * 2 ^ (ex + ey - UNIT_EXPONENT) * 2 ^ (- UNIT_EXPONENT)).
    { rewrite unit_exponent_value in *. rewrite Pos2Z.inj_mul.
      replace (ex - -2148) with (ex + 2148) by lia.
      replace (ey - -2148) with (ey + 2148) by lia.
      replace (ex + ey - -2148) with ((ex + 2148) + (ey + 2148) - 2148) by lia.
      change (- -2148) with 2148.
      assert (E : 2 ^ (ex + 2148) * 2 ^ (ey + 2148)
                  = 2 ^ ((ex + 2148) + (ey + 2148) - 2148) * 2 ^ 2148).
      { rewrite <- !pow2_split by lia. f_equal. lia. }
      set (A := 2 ^ (ex + 2148)) in *. set (B := 2 ^ (ey + 2148)) in *.
      set (C := 2 ^ ((ex + 2148) + (ey + 2148) - 2148)) in *.
      set (D := 2 ^ 2148) in *.
      transitivity (Zpos mx * Zpos my * (A * B)); [ring|]. rewrite E. ring. }
    rewrite Hv.
    rewrite <- (signed_mul (xorb sx sy)
                  (Zpos (mx * my) * 2 ^ (ex + ey - UNIT_EXPONENT))
                  (2 ^ (- UNIT_EXPONENT))).
    rewrite Z.div_mul; [reflexivity|].
    rewrite unit_exponent_value. apply Z.pow_nonzero; lia.
Qed.

(** ** The operations of the doubles, in units *)

Lemma units_range (x : float) (a : Z) :
  units x = Some a -> - INFINITY_UNITS <= a <= INFINITY_UNITS.
Proof. apply units_of_spec_range, FloatAxioms.Prim2SF_valid. Qed.

Lemma units_add (x y : float) (a b : Z) :
  units x = Some a -> units y = Some b ->
  units (PrimFloat.add x y) = add_units a b.
Proof.
  intros Hx Hy. unfold units. rewrite FloatAxioms.add_spec.
  apply SFadd_units; auto using FloatAxioms.Prim2SF_valid.
Qed.

Lemma units_sub (x y : float) (a b : Z) :
  units x = Some a -> units y = Some b ->
  units (PrimFloat.sub x y) = sub_units a b.
Proof.
  intros Hx Hy. unfold units. rewrite FloatAxioms.sub_spec.
  apply SFsub_units; auto using FloatAxioms.Prim2SF_valid.
Qed.

Lemma units_mul (x y : float) (a b : Z) :
  units x = Some a -> units y = Some b ->
  units (PrimFloat.mul x y) = mul_units a b.
Proof.
  intros Hx Hy. unfold units. rewrite FloatAxioms.mul_spec.
  apply SFmul_units; auto using FloatAxioms.Prim2SF_valid.
Qed.

(** NaN operands give NaN: a result that is not NaN had none. *)
Lemma units_add_inv (x y : float) (r : Z) :
  units (PrimFloat.add x y) = Some r ->
  exists a b, units x = Some a /\ units y = Some b.
Proof.
  unfold units. rewrite FloatAxioms.add_spec.
  destruct (FloatOps.Prim2SF x) as [sx|sx| |sx mx ex],
           (FloatOps.Prim2SF y) as [sy|sy| |sy my ey];
    cbn [SpecFloat.SFadd units_of_spec]; intros H; try discriminate;
    eexists; eexists; split; reflexivity.
Qed.

Lemma units_mul_inv (x y : float) (r : Z) :
  units (PrimFloat.mul x y) = Some r ->
  exists a b, units x = Some a /\ units y = Some b.
Proof.
  unfold units. rewrite FloatAxioms.mul_spec.
  destruct (FloatOps.Prim2SF x) as [sx|sx| |sx mx ex],
           (FloatOps.Prim2SF y) as [sy|sy| |sy my ey];
    cbn [SpecFloat.SFmul units_of_spec]; intros H; try discriminate;
    eexists; eexists; split; reflexivity.
Qed.

(** The comparisons of the doubles are those of their units; with NaN
    every comparison is false. *)
Lemma units_compare (x y : float) (a b : Z) :
  units x = Some a -> units y = Some b ->
  SpecFloat.SFcompare (FloatOps.Prim2SF x) (FloatOps.Prim2SF y) = Some (a ?= b).
Proof.
  intros Hx Hy. apply SFcompare_units; auto using FloatAxioms.Prim2SF_valid.
Qed.

Lemma units_leb (x y : float) (a b : Z) :
  units x = Some a -> units y = Some b -> PrimFloat.leb x y = (a <=? b).
Proof.
  intros Hx Hy. rewrite FloatAxioms.leb_spec. unfold SpecFloat.SFleb.
  rewrite (units_compare _ _ Hx Hy). unfold Z.leb. now destruct (a ?= b).
Qed.

Lemma units_ltb (x y : float) (a b : Z) :
  units x = Some a -> units y = Some b -> PrimFloat.ltb x y = (a <? b).
Proof.
  intros Hx Hy. rewrite FloatAxioms.ltb_spec. unfold SpecFloat.SFltb.
  rewrite (units_compare _ _ Hx Hy). unfold Z.ltb. now destruct (a ?= b).
Qed.

Lemma units_eqb (x y : float) (a b : Z) :
  units x = Some a -> units y = Some b -> PrimFloat.eqb x y = (a =? b).
Proof.
  intros Hx Hy. rewrite FloatAxioms.eqb_spec. unfold SpecFloat.SFeqb.
  rewrite (units_compare _ _ Hx Hy).
  destruct (a ?= b) eqn:E.
  - apply Z.compare_eq in E. subst b. symmetry. apply Z.eqb_refl.
  - symmetry. apply Z.eqb_neq. intros ->. rewrite Z.compare_refl in E. discriminate.
  - symmetry. apply Z.eqb_neq. intros ->. rewrite Z.compare_refl in E. discriminate.
Qed.

Lemma leb_units (x y : float) :
  PrimFloat.leb x y = true ->
  exists a b, units x = Some a /\ units y = Some b /\ a <= b.
Proof.
  intros H. rewrite FloatAxioms.leb_spec in H. unfold SpecFloat.SFleb in H.
  destruct (units x) as [a|] eqn:Hx, (units y) as [b|] eqn:Hy.
  - exists a, b. repeat split.
    rewrite (units_compare _ _ Hx Hy) in H.
    destruct (Z.compare_spec a b); try lia; discriminate.
  - unfold units in Hy. destruct (FloatOps.Prim2SF y); try discriminate.
    destruct (FloatOps.Prim2SF x); discriminate.
  - unfold units in Hx. destruct (FloatOps.Prim2SF x); try discriminate.
  - unfold units in Hx. destruct (FloatOps.Prim2SF x); try discriminate.
Qed.

Lemma ltb_units (x y : float) :
  PrimFloat.ltb x y = true ->
  exists a b, units x = Some a /\ units y = Some b /\ a < b.
Proof.
  intros H. rewrite FloatAxioms.ltb_spec in H. unfold SpecFloat.SFltb in H.
  destruct (units x) as [a|] eqn:Hx, (units y) as [b|] eqn:Hy.
  - exists a, b. repeat split.
    rewrite (units_compare _ _ Hx Hy) in H.
    destruct (Z.compare_spec a b); try lia; discriminate.
  - unfold units in Hy. destruct (FloatOps.Prim2SF y); try discriminate.
    destruct (FloatOps.Prim2SF x); discriminate.
  - unfold units in Hx. destruct (FloatOps.Prim2SF x); try discriminate.
  - unfold units in Hx. destruct (FloatOps.Prim2SF x); try discriminate.
Qed.

(** [is_nan] is "has no units". *)
Lemma is_nan_units (x : float) :
  PrimFloat.is_nan x = false <-> exists a, units x = Some a.
Proof.
  unfold PrimFloat.is_nan. rewrite negb_false_iff. split.
  - intros H. rewrite FloatAxioms.eqb_spec in H. unfold SpecFloat.SFeqb in H.
    unfold units. destruct (FloatOps.Prim2SF x); try discriminate;
      eexists; reflexivity.
  - intros (a & Ha). rewrite (units_eqb _ _ Ha Ha). apply Z.eqb_refl.
Qed.

(** ** The sign of a quotient *)

Lemma shr_1_nonneg (mrs : SpecFloat.shr_record) :
  0 <= SpecFloat.shr_m mrs -> 0 <= SpecFloat.shr_m (SpecFloat.shr_1 mrs).
Proof.
  destruct mrs as [M r s]. cbn [SpecFloat.shr_m]. intros HM.
  rewrite shr_1_spec by assumption. cbn [SpecFloat.shr_m].
  apply Z.div_pos; lia.
Qed.

Lemma shr_nonneg (mrs : SpecFloat.shr_record) (e n : Z) :
  0 <= SpecFloat.shr_m mrs -> 0 <= SpecFloat.shr_m (fst (SpecFloat.shr mrs e n)).
Proof.
  intros HM. unfold SpecFloat.shr. destruct n as [|p|p]; cbn [fst]; try assumption.
  rewrite iter_pos_nat. induction (Pos.to_nat p) as [|k IH]; [assumption|].
  rewrite Nat.iter_succ. now apply shr_1_nonneg.
Qed.

Lemma shr_record_of_loc_m (m : Z) (l : SpecFloat.location) :
  SpecFloat.shr_m (SpecFloat.shr_record_of_loc m l) = m.
Proof. destruct l as [|[| |]]; reflexivity. Qed.

Lemma round_nearest_even_nonneg (m : Z) (l : SpecFloat.location) :
  0 <= m -> 0 <= SpecFloat.round_nearest_even m l.
Proof.
  intros Hm. destruct l as [|[| |]]; cbn [SpecFloat.round_nearest_even]; try lia.
  destruct (Z.even m); lia.
Qed.

(** [binary_round_aux] on a mantissa that is not negative gives a double
    of the sign asked for, never NaN. *)
Lemma binary_round_aux_sign (s : bool) (mz ez : Z) (lz : SpecFloat.location) :
  0 <= mz ->
  exists r, 0 <= r /\
    units_of_spec (SpecFloat.binary_round_aux prec emax s mz ez lz)
    = Some (signed s r).
Proof.
  intros Hmz. unfold SpecFloat.binary_round_aux, SpecFloat.shr_fexp.
  pose proof (@shr_nonneg (SpecFloat.shr_record_of_loc mz lz) ez
                (fexp (SpecFloat.Zdigits2 mz + ez) - ez)) as H1.
  rewrite shr_record_of_loc_m in H1. specialize (H1 Hmz).
  destruct (SpecFloat.shr (SpecFloat.shr_record_of_loc mz lz) ez
              (fexp (SpecFloat.Zdigits2 mz + ez) - ez)) as [mrs' e'].
  cbn [fst] in H1.
  pose proof (@round_nearest_even_nonneg (SpecFloat.shr_m mrs')
                (SpecFloat.loc_of_shr_record mrs') H1) as Hq.
  set (q := SpecFloat.round_nearest_even (SpecFloat.shr_m mrs')
              (SpecFloat.loc_of_shr_record mrs')) in *.
  pose proof (@shr_nonneg (SpecFloat.shr_record_of_loc q SpecFloat.loc_Exact) e'
                (fexp (SpecFloat.Zdigits2 q + e') - e')) as H2.
  rewrite shr_record_of_loc_m in H2. specialize (H2 Hq).
  destruct (SpecFloat.shr (SpecFloat.shr_record_of_loc q SpecFloat.loc_Exact) e'
              (fexp (SpecFloat.Zdigits2 q + e') - e')) as [mrs'' e''].
  cbn [fst] in H2.
  destruct (SpecFloat.shr_m mrs'') as [|m|m]; [| |lia].
  - exists 0. split; [lia|]. destruct s; reflexivity.
  - destruct (e'' <=? emax - prec); cbn [units_of_spec].
    + eexists. split; [|reflexivity].
      apply Z.mul_nonneg_nonneg; [lia|apply Z.pow_nonneg; lia].
    + eexists. split; [|reflexivity]. apply Z.lt_le_incl, infinity_units_pos.
Qed.

Lemma SFdiv_core_nonneg (mx my : positive) (ex ey : Z) :
  0 <= fst (fst (SpecFloat.SFdiv_core_binary prec emax (Zpos mx) ex (Zpos my) ey)).
Proof.
  unfold SpecFloat.SFdiv_core_binary.
  set (s := ex - ey - _).
  set (m' := match s with Z.pos _ => Z.shiftl (Zpos mx) s | 0 => Zpos mx | Z.neg _ => 0 end).
  assert (Hm' : 0 <= m').
  { unfold m'. destruct s; try lia. apply Z.shiftl_nonneg. lia. }
  pose proof (Z_div_mod m' (Zpos my) ltac:(lia)) as Hdm.
  destruct (Z.div_eucl m' (Zpos my)) as [q r]. cbn [fst].
  destruct Hdm as [Heq Hr]. nia.
Qed.

(** The quotient of a double that is not negative by a positive finite
    double is not negative (and not NaN). *)
Lemma units_div_nonneg (x y : float) (a b : Z) :
  units x = Some a -> 0 <= a ->
  units y = Some b -> 0 < b < INFINITY_UNITS ->
  exists r, units (PrimFloat.div x y) = Some r /\ 0 <= r.
Proof.
  pose proof infinity_units_pos as Hinf.
  unfold units. rewrite FloatAxioms.div_spec.
  pose proof (FloatAxioms.Prim2SF_valid x) as Hvx.
  pose proof (FloatAxioms.Prim2SF_valid y) as Hvy.
  destruct (FloatOps.Prim2SF x) as [sx|sx| |sx mx ex],
           (FloatOps.Prim2SF y) as [sy|sy| |sy my ey];
    cbn [units_of_spec]; intros Hx Ha Hy Hb; try discriminate;
    apply some_units_inj in Hx; apply some_units_inj in Hy;
    cbn [SpecFloat.valid_binary] in Hvx, Hvy;
    try (pose proof (finite_units_bounds _ _ Hvx) as Hbx);
    try (pose proof (finite_units_bounds _ _ Hvy) as Hby);
    try lia;
    try (destruct sx); try (destruct sy); cbn [signed] in *; try lia;
    try (exists 0; split; [reflexivity|lia]);
    try (exists INFINITY_UNITS; split; [reflexivity|lia]).
  unfold FloatAxioms.SF64div, SpecFloat.SFdiv.
  pose proof (SFdiv_core_nonneg mx my ex ey) as Hq.
  destruct (SpecFloat.SFdiv_core_binary prec emax (Zpos mx) ex (Zpos my) ey)
    as [[mz ez] lz].
  cbn [fst] in Hq. cbn [xorb].
  destruct (@binary_round_aux_sign false mz ez lz Hq) as (r & Hr & Hu).
  exists r. split; [exact Hu|exact Hr].
Qed.

(** ** Net pay against gross pay, in doubles *)

Lemma units_zero : units PrimFloat.zero = Some 0.
Proof. vm_compute. reflexivity. Qed.

Lemma units_one : units PrimFloat.one = Some (2 ^ (- UNIT_EXPONENT)).
Proof. vm_compute. reflexivity. Qed.

Lemma units_infinity : units PrimFloat.infinity = Some INFINITY_UNITS.
Proof. vm_compute. reflexivity. Qed.

Lemma unit_scale_pos : 0 < 2 ^ (- UNIT_EXPONENT).
Proof. rewrite unit_exponent_value. apply pow2_pos. lia. Qed.

Lemma unit_scale_lt_infinity : 2 ^ (- UNIT_EXPONENT) < INFINITY_UNITS.
Proof.
  rewrite unit_exponent_value, infinity_units_value. apply pow2_lt; lia.
Qed.

(** A double rounds to itself. *)
Lemma round_units_of_float (x : float) (a : Z) :
  units x = Some a -> round_units a = a.
Proof. apply round_units_of_spec, FloatAxioms.Prim2SF_valid. Qed.

(** A product of two finite doubles. *)
Lemma mul_units_finite (a b : Z) :
  Z.abs a < INFINITY_UNITS -> Z.abs b < INFINITY_UNITS ->
  mul_units a b = Some (round_units (a * b / 2 ^ (- UNIT_EXPONENT))).
Proof.
  intros Ha Hb. unfold mul_units.
  destruct (Z.eqb_spec (Z.abs a) INFINITY_UNITS); [lia|].
  destruct (Z.eqb_spec (Z.abs b) INFINITY_UNITS); [lia|]. reflexivity.
Qed.

(** A sum of two doubles of which the first is finite and the second is
    not plus infinity is the rounded sum, or minus infinity. *)
Lemma add_units_finite (a b : Z) :
  Z.abs a < INFINITY_UNITS -> Z.abs b < INFINITY_UNITS ->
  add_units a b = Some (round_units (a + b)).
Proof.
  intros Ha Hb. unfold add_units.
  destruct (Z.eqb_spec a INFINITY_UNITS); [lia|].
  destruct (Z.eqb_spec a (- INFINITY_UNITS)); [lia|].
  destruct (Z.eqb_spec b INFINITY_UNITS); [lia|].
  destruct (Z.eqb_spec b (- INFINITY_UNITS)); [lia|]. reflexivity.
Qed.

(** A product by a finite double other than zero is never NaN. *)
Lemma mul_units_by_constant (a c : Z) :
  c <> 0 -> Z.abs c < INFINITY_UNITS -> exists r, mul_units a c = Some r.
Proof.
  intros Hc Hfin. unfold mul_units.
  destruct (Z.eqb_spec (Z.abs c) INFINITY_UNITS); [lia|].
  destruct (Z.eqb_spec c 0); [lia|].
  destruct (Z.eqb_spec (Z.abs a) INFINITY_UNITS) as [E|E]; cbn [orb].
  - destruct (Z.eqb_spec a 0) as [E0|E0]; [|eexists; reflexivity].
    pose proof infinity_units_pos. lia.
  - eexists; reflexivity.
Qed.

(** The exact quotient of a product by the unit, bounded by a factor. *)
Lemma scaled_product_bounds (a c : Z) :
  0 <= a -> 0 <= c <= 2 ^ (- UNIT_EXPONENT) ->
  0 <= a * c / 2 ^ (- UNIT_EXPONENT) <= a.
Proof.
  intros Ha Hc. pose proof unit_scale_pos as HS.
  split.
  - apply Z.div_pos; nia.
  - apply Z.div_le_upper_bound; nia.
Qed.

Lemma units_float_max_zero (s : float) (su : Z) :
  units s = Some su ->
  units (float_max PrimFloat.zero s) = Some (Z.max 0 su).
Proof.
  intros Hs. unfold float_max.
  change (PrimFloat.eqb PrimFloat.zero PrimFloat.zero) with true. cbv iota.
  rewrite (units_eqb _ _ Hs Hs), Z.eqb_refl.
  rewrite (units_ltb _ _ units_zero Hs), (units_ltb _ _ Hs units_zero).
  destruct (Z.ltb_spec 0 su) as [H1|H1].
  - rewrite Hs. f_equal. lia.
  - destruct (Z.ltb_spec su 0) as [H2|H2].
    + rewrite units_zero. f_equal. lia.
    + assert (su = 0) by lia. subst su.
      rewrite (units_add _ _ units_zero Hs). reflexivity.
Qed.

(** Net pay against gross pay, on the doubles of one iteration: when the
    gross amount is finite and not negative, the rates lie between 0 and 1
    and the deduction for dependents is not NaN, what is left after the
    contribution and the tax does not exceed the gross amount. *)
Lemma net_below_gross (g k14 k15 dd : float) (G c14 c15 D : Z) :
  units g = Some G -> 0 <= G < INFINITY_UNITS ->
  units k14 = Some c14 -> 0 <= c14 <= 2 ^ (- UNIT_EXPONENT) ->
  units k15 = Some c15 -> 0 < c15 < INFINITY_UNITS ->
  units dd = Some D ->
  exists n,
    units (PrimFloat.sub (PrimFloat.sub g (PrimFloat.mul g k14))
             (PrimFloat.mul
                (float_max PrimFloat.zero
                   (PrimFloat.sub (PrimFloat.sub g (PrimFloat.mul g k14)) dd))
                k15))
    = Some n /\ n <= G.
Proof.
  intros Hg HG Hk14 Hc14 Hk15 Hc15 Hdd.
  pose proof infinity_units_pos as Hinf.
  pose proof unit_scale_pos as HS.
  pose proof unit_scale_lt_infinity as HSI.
  pose proof (round_units_of_float _ Hg) as HrG.
  (* the contribution *)
  pose proof (units_mul _ _ Hg Hk14) as Hp.
  rewrite mul_units_finite in Hp by lia.
  pose proof (@scaled_product_bounds G c14 ltac:(lia) Hc14) as Hpb.
  set (P := round_units (G * c14 / 2 ^ (- UNIT_EXPONENT))) in *.
  assert (HP : 0 <= P <= G).
  { unfold P. split.
    - apply round_units_pos. lia.
    - rewrite <- HrG at 2. apply round_units_mono. lia. }
  (* gross less contribution *)
  pose proof (units_sub _ _ Hg Hp) as Ha. unfold sub_units in Ha.
  rewrite add_units_finite in Ha by lia.
  set (A := round_units (G + - P)) in *.
  assert (HA : 0 <= A <= G).
  { unfold A. split.
    - apply round_units_pos. lia.
    - rewrite <- HrG at 2. apply round_units_mono. lia. }
  (* the taxable base *)
  pose proof (units_range _ Hdd) as HD.
  assert (Hs : exists su, units (PrimFloat.sub (PrimFloat.sub g (PrimFloat.mul g k14)) dd)
                          = Some su).
  { rewrite (units_sub _ _ Ha Hdd). unfold sub_units, add_units.
    destruct (Z.eqb_spec A INFINITY_UNITS); [lia|].
    destruct (Z.eqb_spec A (- INFINITY_UNITS)); [lia|].
    destruct (- D =? INFINITY_UNITS); [eexists; reflexivity|].
    destruct (- D =? - INFINITY_UNITS); eexists; reflexivity. }
  destruct Hs as (su & Hs).
  pose proof (units_float_max_zero _ Hs) as Ht.
  pose proof (units_range _ Ht) as HT.
  set (T := Z.max 0 su) in *.
  assert (HT0 : 0 <= T) by (unfold T; lia).
  (* the tax *)
  assert (Hi : exists I, units (PrimFloat.mul
                                  (float_max PrimFloat.zero
                                     (PrimFloat.sub (PrimFloat.sub g (PrimFloat.mul g k14)) dd))
                                  k15) = Some I /\ 0 <= I).
  { rewrite (units_mul _ _ Ht Hk15). unfold mul_units.
    destruct (Z.eqb_spec (Z.abs c15) INFINITY_UNITS); [lia|].
    destruct (Z.eqb_spec c15 0); [lia|].
    destruct (Z.eqb_spec (Z.abs T) INFINITY_UNITS) as [E|E]; cbn [orb].
    - destruct (Z.eqb_spec T 0); [lia|]. eexists. split; [reflexivity|].
      rewrite (Z.sgn_pos T), (Z.sgn_pos c15) by lia. lia.
    - eexists. split; [reflexivity|]. apply round_units_pos.
      apply Z.div_pos; nia. }
  destruct Hi as (I & Hi & HI).
  pose proof (units_range _ Hi) as HIr.
  (* what is left *)
  rewrite (units_sub _ _ Ha Hi). unfold sub_units, add_units.
  destruct (Z.eqb_spec A INFINITY_UNITS); [lia|].
  destruct (Z.eqb_spec A (- INFINITY_UNITS)); [lia|].
  destruct (Z.eqb_spec (- I) INFINITY_UNITS); [lia|].
  destruct (Z.eqb_spec (- I) (- INFINITY_UNITS)).
  - eexists. split; [reflexivity|]. lia.
  - eexists. split; [reflexivity|].
    rewrite <- HrG. apply round_units_mono. lia.
Qed.

Section NetGross64.
Variable thisYear : Z.
Variable host_pow : float -> Z -> float.

Local Abbreviation B64 := (Binary64 host_pow).

Lemma previd_percent_units :
  exists c, units (PREVID_PERCENT (N := B64)) = Some c /\
            0 <= c <= 2 ^ (- UNIT_EXPONENT).
Proof.
  eexists. split; [vm_compute; reflexivity|].
  vm_compute. split; discriminate.
Qed.

Lemma ir_flat_percent_units :
  exists c, units (IR_FLAT_PERCENT (N := B64)) = Some c /\
            0 < c < INFINITY_UNITS.
Proof.
  eexists. split; [vm_compute; reflexivity|].
  vm_compute. split; reflexivity.
Qed.

Lemma deductionDependents_units (p : Args float) :
  PrimFloat.is_nan (dependents p) = false ->
  exists D, units (deductionDependents (N := B64) p) = Some D.
Proof.
  intros Hd. apply is_nan_units in Hd as (d & Hd).
  unfold deductionDependents. cbn [mul Binary64].
  assert (H1 : exists c, units (DEPENDENT_DEDUCTION (N := B64)) = Some c /\
                         c <> 0 /\ Z.abs c < INFINITY_UNITS).
  { eexists. split; [vm_compute; reflexivity|].
    split; [discriminate|vm_compute; reflexivity]. }
  assert (H2 : exists c, units (lit (Number := B64) 12) = Some c /\
                         c <> 0 /\ Z.abs c < INFINITY_UNITS).
  { eexists. split; [vm_compute; reflexivity|].
    split; [discriminate|vm_compute; reflexivity]. }
  destruct H1 as (c1 & Hc1 & Hn1 & Hf1), H2 as (c2 & Hc2 & Hn2 & Hf2).
  destruct (@mul_units_by_constant d c1 Hn1 Hf1) as (r1 & Hr1).
  pose proof (units_mul _ _ Hd Hc1) as Hm1. rewrite Hr1 in Hm1.
  destruct (@mul_units_by_constant r1 c2 Hn2 Hf2) as (r2 & Hr2).
  exists r2. now rewrite (units_mul _ _ Hm1 Hc2).
Qed.

Lemma netAnnual_le_grossAnnual (p : Args float) (t : Z) :
  PrimFloat.is_nan (dependents p) = false ->
  PrimFloat.leb 0 (grossAnnual (N := B64) p t) = true ->
  PrimFloat.ltb (grossAnnual (N := B64) p t) PrimFloat.infinity = true ->
  PrimFloat.leb (netAnnual (N := B64) p t) (grossAnnual (N := B64) p t) = true.
Proof.
  intros Hd H0 Hfin.
  apply leb_units in H0 as (z & G & Hz & Hg & H0).
  change (units 0%float) with (units PrimFloat.zero) in Hz.
  rewrite units_zero in Hz. apply some_units_inj in Hz. subst z.
  apply ltb_units in Hfin as (G' & I & Hg' & Hi & Hfin).
  rewrite Hg in Hg'. apply some_units_inj in Hg'. subst G'.
  rewrite units_infinity in Hi. apply some_units_inj in Hi. subst I.
  destruct previd_percent_units as (c14 & Hk14 & Hc14).
  destruct ir_flat_percent_units as (c15 & Hk15 & Hc15).
  destruct (deductionDependents_units p Hd) as (D & HD).
  destruct (@net_below_gross _ _ _ _ G c14 c15 D Hg ltac:(lia) Hk14 Hc14 Hk15 Hc15 HD)
    as (n & Hn & Hle).
  assert (Hnet : units (netAnnual (N := B64) p t) = Some n) by exact Hn.
  rewrite (units_leb _ _ Hnet Hg). now apply Z.leb_le.
Qed.

(** C7, as the code has it in doubles. At every offset [t] from 0 to
    [years] at which the gross annual amount is a finite number that is
    not negative, the net annual amount is at most the gross annual
    amount, for every scenario whose count of dependents is a number (not
    NaN), whatever the host's [Math.pow]. *)
Theorem net_le_gross_double (p : Args float) :
  PrimFloat.is_nan (dependents p) = false ->
  exists r, projectScenario (N := B64) thisYear p = Some r /\
    forall t, 0 <= t <= years_of p ->
      exists g n,
        at_index (grossSeries r) t = Some g /\
        at_index (netSeries r) t = Some n /\
        (PrimFloat.leb 0 g = true -> PrimFloat.ltb g PrimFloat.infinity = true ->
         PrimFloat.leb n g = true).
Proof.
  intros Hd. returns_projection.
  intros t Ht. simpl.
  exists (grossAnnual (N := B64) p t), (netAnnual (N := B64) p t).
  read_entries.
  repeat split. now apply netAnnual_le_grossAnnual.
Qed.

End NetGross64.

Lemma net_le_gross_double_witness :
  PrimFloat.is_nan (dependents (example_args (N := Binary64 pow_by_mul))) = false /\
  exists r g n,
    projectScenario (N := Binary64 pow_by_mul) 2026
      (example_args (N := Binary64 pow_by_mul)) = Some r /\
    at_index (grossSeries r) 0 = Some g /\
    at_index (netSeries r) 0 = Some n /\
    PrimFloat.leb 0 g = true /\ PrimFloat.ltb g PrimFloat.infinity = true /\
    PrimFloat.leb n g = true.
Proof.
  assert (Hd : PrimFloat.is_nan (dependents (example_args (N := Binary64 pow_by_mul))) = false)
    by reflexivity.
  split; [exact Hd|].
  destruct (@net_le_gross_double 2026 pow_by_mul
              (example_args (N := Binary64 pow_by_mul)) Hd) as (r & Hr & Hall).
  destruct (Hall 0 ltac:(unfold years_of, example_args; simpl; lia))
    as (g & n & Hg & Hn & Hle).
  exists r, g, n. split; [exact Hr|]. split; [exact Hg|]. split; [exact Hn|].
  rewrite projectScenario_returns in Hr. injection Hr as <-.
  cbn in Hg. injection Hg as <-.
  split; [reflexivity|]. split; [reflexivity|]. exact (Hle eq_refl eq_refl).
Defined.

(** C7, as the specification words it, fails. With inputs that are not
    negative and a basic salary of 100 adjusted by -200% a year, the
    gross amount at [t = 1] is -1200 and the net amount -1032: the
    contribution "deducted" is negative. With a base salary of 1e308 and
    no growth the gross amount is Infinity and the net amount NaN, which
    is not at most anything. *)
Lemma net_above_gross :
  inputs_nonneg64 example_negative_growth /\
  inputs_nonneg64 example_overflow /\
  exists r r' g n g' n',
    projectScenario (N := Binary64 pow_by_mul) 2026 example_negative_growth = Some r /\
    at_index (grossSeries r) 1 = Some g /\ at_index (netSeries r) 1 = Some n /\
    g = (-1200)%float /\ n = (-1032)%float /\
    PrimFloat.leb n g = false /\ PrimFloat.ltb g n = true /\
    projectScenario (N := Binary64 pow_by_mul) 2026 example_overflow = Some r' /\
    at_index (grossSeries r') 0 = Some g' /\ at_index (netSeries r') 0 = Some n' /\
    g' = PrimFloat.infinity /\ PrimFloat.is_nan n' = true /\
    PrimFloat.leb n' g' = false.
Proof.
  split; [repeat split|]. split; [repeat split|].
  do 6 eexists.
  split; [apply projectScenario_returns|].
  split; [reflexivity|]. split; [reflexivity|].
  split; [reflexivity|]. split; [reflexivity|].
  split; [reflexivity|]. split; [reflexivity|].
  split; [apply projectScenario_returns|].
  repeat split.
Qed.

(** ** The counters of the loop, as doubles *)

(** A mantissa of 53 binary digits at an exponent within range is a
    double. *)
Lemma bounded_53_digits (m : positive) (e : Z) :
  Zpos (digits m) = 53 -> -1074 <= e <= 971 ->
  SpecFloat.bounded prec emax m e = true.
Proof.
  intros Hd He. unfold SpecFloat.bounded, SpecFloat.canonical_mantissa.
  apply andb_true_iff. split.
  - apply Z.eqb_eq. rewrite fexp_spec, Hd. lia.
  - apply Z.leb_le. change (emax - prec) with 971. lia.
Qed.

(** The whole numbers up to [2^53] are doubles. *)
Lemma round_units_integer (N : Z) :
  0 <= N <= 2 ^ 53 ->
  round_units (N * 2 ^ (- UNIT_EXPONENT)) = N * 2 ^ (- UNIT_EXPONENT).
Proof.
  intros HN. destruct N as [|n|n]; [reflexivity| |lia].
  destruct (Z.eq_dec (Zpos n) (2 ^ 53)) as [E|E].
  - rewrite E. vm_compute. reflexivity.
  - pose proof (digits2_bounds n) as [Hlo Hhi].
    assert (Hd : Zpos (digits n) <= 53).
    { assert (H : 2 ^ (Zpos (digits n) - 1) < 2 ^ 53) by lia.
      apply pow2_lt_inv in H; lia. }
    destruct (Z.eq_dec (Zpos (digits n)) 53) as [E53|E53].
    + pose proof (@bounded_53_digits n 0 E53 ltac:(lia)) as Hb.
      pose proof (round_units_exact _ _ Hb) as Hr.
      now rewrite Z.sub_0_l in Hr.
    + assert (Hk : exists k : positive, Zpos k = 53 - Zpos (digits n)).
      { exists (Z.to_pos (53 - Zpos (digits n))). rewrite Z2Pos.id; lia. }
      destruct Hk as (k & Hk).
      assert (Hb : SpecFloat.bounded prec emax (Pos.iter xO n k) (- Zpos k) = true).
      { apply bounded_53_digits; [rewrite iter_xO_digits|]; lia. }
      pose proof (round_units_exact _ _ Hb) as Hr.
      rewrite iter_xO_value in Hr.
      assert (Ev : Zpos n * 2 ^ Zpos k * 2 ^ (- Zpos k - UNIT_EXPONENT)
                   = Zpos n * 2 ^ (- UNIT_EXPONENT)).
      { rewrite <- Z.mul_assoc. f_equal. rewrite unit_exponent_value.
        rewrite <- pow2_split by lia. f_equal. lia. }
      now rewrite Ev in Hr.
Qed.

Lemma units_two : units PrimFloat.two = Some (2 * 2 ^ (- UNIT_EXPONENT)).
Proof. vm_compute. reflexivity. Qed.

(** The conversion of a whole number up to [2^53] is exact. *)
Lemma float_of_pos_units (p : positive) :
  Zpos p <= 2 ^ 53 ->
  units (float_of_pos p) = Some (Zpos p * 2 ^ (- UNIT_EXPONENT)).
Proof.
  pose proof unit_scale_pos as HS. pose proof unit_scale_lt_infinity as HSI.
  pose proof infinity_units_pos as Hinf.
  assert (Hfin : forall N, 0 <= N <= 2 ^ 53 ->
                 Z.abs (N * 2 ^ (- UNIT_EXPONENT)) < INFINITY_UNITS).
  { intros N HN. rewrite infinity_units_value, unit_exponent_value in *.
    change (- -2148) with 2148 in *.
    change (2 ^ 3172) with (2 ^ 1024 * 2 ^ 2148).
    assert (0 < 2 ^ 2148) by (apply pow2_pos; lia).
    assert (2 ^ 53 < 2 ^ 1024) by (apply pow2_lt; lia).
    rewrite Z.abs_eq by nia. nia. }
  induction p as [p IH|p IH|]; intros Hp; cbn [float_of_pos].
  - specialize (IH ltac:(lia)).
    pose proof (units_mul _ _ units_two IH) as Hm.
    rewrite mul_units_finite in Hm
      by (first [apply (Hfin (Zpos p)); lia | apply (Hfin 2); lia]).
    replace (2 * 2 ^ (- UNIT_EXPONENT) * (Zpos p * 2 ^ (- UNIT_EXPONENT))
             / 2 ^ (- UNIT_EXPONENT))
      with (2 * Zpos p * 2 ^ (- UNIT_EXPONENT)) in Hm
      by (rewrite Z.mul_assoc, Z.div_mul by lia; ring).
    rewrite round_units_integer in Hm by lia.
    pose proof (units_add _ _ Hm units_one) as Ha.
    rewrite add_units_finite in Ha
      by (first [apply (Hfin (2 * Zpos p)); lia | rewrite Z.abs_eq; lia]).
    replace (2 * Zpos p * 2 ^ (- UNIT_EXPONENT) + 2 ^ (- UNIT_EXPONENT))
      with (Zpos p~1 * 2 ^ (- UNIT_EXPONENT)) in Ha
      by (rewrite Pos2Z.inj_xI; ring).
    now rewrite round_units_integer in Ha by lia.
  - specialize (IH ltac:(lia)).
    pose proof (units_mul _ _ units_two IH) as Hm.
    rewrite mul_units_finite in Hm
      by (first [apply (Hfin (Zpos p)); lia | apply (Hfin 2); lia]).
    replace (2 * 2 ^ (- UNIT_EXPONENT) * (Zpos p * 2 ^ (- UNIT_EXPONENT))
             / 2 ^ (- UNIT_EXPONENT))
      with (Zpos p~0 * 2 ^ (- UNIT_EXPONENT)) in Hm
      by (rewrite Z.mul_assoc, Z.div_mul by lia; rewrite Pos2Z.inj_xO; ring).
    now rewrite round_units_integer in Hm by lia.
  - rewrite units_one. now rewrite Z.mul_1_l.
Qed.

Lemma float_of_Z_units (t : Z) :
  0 <= t <= 2 ^ 53 ->
  units (float_of_Z t) = Some (t * 2 ^ (- UNIT_EXPONENT)).
Proof.
  intros Ht. destruct t as [|p|p]; [apply units_zero| |lia].
  now apply float_of_pos_units.
Qed.

(** The counter of the loop is not negative and does not decrease. *)
Lemma counter_nonneg_le (t : Z) :
  0 <= t < 2 ^ 53 -> nonneg_le (float_of_Z t) (float_of_Z (t + 1)).
Proof.
  intros Ht. pose proof unit_scale_pos as HS.
  exists (t * 2 ^ (- UNIT_EXPONENT)), ((t + 1) * 2 ^ (- UNIT_EXPONENT)).
  split; [apply float_of_Z_units; lia|].
  split; [apply float_of_Z_units; lia|]. nia.
Qed.

(** A double that counts a positive finite number of units is a finite
    positive one. *)
Lemma positive_finite_spec (x : float) (a : Z) :
  units x = Some a -> 0 < a < INFINITY_UNITS ->
  exists m e, FloatOps.Prim2SF x = SpecFloat.S754_finite false m e.
Proof.
  unfold units. intros Hu Ha.
  destruct (FloatOps.Prim2SF x) as [s|s| |s m e]; cbn [units_of_spec] in Hu;
    try discriminate; apply some_units_inj in Hu.
  - lia.
  - destruct s; cbn [signed] in Hu; lia.
  - destruct s; [|now exists m, e].
    cbn [signed] in Hu.
    pose proof (Z.pow_nonneg 2 (e - UNIT_EXPONENT) ltac:(lia)).
    nia.
Qed.

Lemma max_safe_integer_value : MAX_SAFE_INTEGER = 2 ^ 53 - 1.
Proof. reflexivity. Qed.

(** A zero times a counter of the loop is that zero. *)
Lemma zero_times_counter (z : float) (t : Z) :
  is_zero64 z -> 0 <= t <= 2 ^ 53 ->
  PrimFloat.mul z (float_of_Z t) = z.
Proof.
  intros Hz Ht.
  destruct (Z.eq_dec t 0) as [->|Hne].
  - destruct Hz as [-> | ->]; reflexivity.
  - pose proof unit_scale_pos as HS.
    destruct (@positive_finite_spec (float_of_Z t) (t * 2 ^ (- UNIT_EXPONENT)))
      as (m & e & Hm).
    + apply float_of_Z_units. lia.
    + split; [nia|]. rewrite infinity_units_value, unit_exponent_value.
      change (- -2148) with 2148.
      replace (2 ^ 3172) with (2 ^ 1024 * 2 ^ 2148) by (rewrite <- Z.pow_add_r; [reflexivity|lia|lia]).
      apply Z.mul_lt_mono_pos_r; [apply Z.pow_pos_nonneg; lia|].
      apply Z.le_lt_trans with (2 ^ 53); [lia|].
      apply Z.pow_lt_mono_r; lia.
    + apply FloatAxioms.Prim2SF_inj.
      rewrite FloatAxioms.mul_spec, Hm.
      destruct Hz as [-> | ->]; reflexivity.
Qed.

(** ** No growth, in doubles *)

Section NoGrowth64.
Variable thisYear : Z.
Variable host_pow : float -> Z -> float.
(** The host's [Math.pow(1, t)] is 1. *)
Hypothesis host_pow_one : forall t, host_pow PrimFloat.one t = PrimFloat.one.

Local Abbreviation B64 := (Binary64 host_pow).

Lemma growth_of_zero (o : option float) (t : Z) :
  zero_or_absent o -> 0 <= t <= MAX_SAFE_INTEGER ->
  PrimFloat.mul (or_default o (lit (Number := B64) 0)) (float_of_Z t)
  = PrimFloat.mul (or_default o (lit (Number := B64) 0)) (float_of_Z 0).
Proof.
  intros Ho Ht.
  assert (Hz : is_zero64 (or_default o (lit (Number := B64) 0)))
    by (destruct o as [x|]; [exact Ho|left; reflexivity]).
  pose proof max_safe_integer_value as HM.
  rewrite (@zero_times_counter _ t Hz) by lia.
  symmetry. apply (@zero_times_counter _ 0 Hz). lia.
Qed.

Lemma ratio_of_zero (o : option float) :
  zero_or_absent o ->
  PrimFloat.add (lit (Number := B64) 1)
                (PrimFloat.div (or_default o (lit (Number := B64) 0)) (lit (Number := B64) 100))
  = PrimFloat.one.
Proof.
  destruct o as [x|]; simpl; [intros [-> | ->]|intros _]; reflexivity.
Qed.

Lemma grossAnnual_no_growth64 (p : Args float) (t : Z) :
  growth_zero64 p -> 0 <= t <= MAX_SAFE_INTEGER ->
  grossAnnual (N := B64) p t = grossAnnual (N := B64) p 0.
Proof.
  intros (Hb & Hg & Hv) Ht.
  unfold grossAnnual, grossMonthly, basicYear, gepiTotalYear, gepiPointYear, viYear.
  unfold basicAnnualPctReaj_of, gepiCentsAnnual_of, viReajAnnual_of.
  cbn [add sub mul div Math_pow of_Z Binary64].
  rewrite (ratio_of_zero _ Hb), !host_pow_one.
  now rewrite (growth_of_zero _ Hg Ht), (growth_of_zero _ Hv Ht).
Qed.

Lemma netAnnual_no_growth64 (p : Args float) (t : Z) :
  growth_zero64 p -> 0 <= t <= MAX_SAFE_INTEGER ->
  netAnnual (N := B64) p t = netAnnual (N := B64) p 0.
Proof.
  intros Hz Ht. unfold netAnnual, ir, taxable, previd.
  now rewrite (grossAnnual_no_growth64 Hz Ht).
Qed.

(** C5, as the code has it in doubles. With the three growth parameters
    zero (or absent), a horizon of at most [2^53 - 1] years and a host whose
    [Math.pow(1, t)] is 1, every entry of the gross series is the same
    double as entry 0, and every entry of the net series the same double
    as entry 0 (so the two compare equal, [===], unless it is NaN). *)
Theorem no_growth_same_double (p : Args float) :
  growth_zero64 p -> years_of p <= MAX_SAFE_INTEGER ->
  exists r, projectScenario (N := B64) thisYear p = Some r /\
    forall t, 0 <= t <= years_of p ->
      exists g n,
        at_index (grossSeries r) t = Some g /\
        at_index (grossSeries r) 0 = Some g /\
        at_index (netSeries r) t = Some n /\
        at_index (netSeries r) 0 = Some n.
Proof.
  intros Hz Hy. returns_projection.
  intros t Ht. simpl.
  exists (grossAnnual (N := B64) p 0), (netAnnual (N := B64) p 0).
  read_entries.
  rewrite (grossAnnual_no_growth64 Hz) by lia.
  rewrite (netAnnual_no_growth64 Hz) by lia.
  repeat split.
Qed.

End NoGrowth64.

(** C5, as the specification words it, fails in doubles: with a base
    salary of 1e308 and no growth the gross amount overflows to Infinity,
    the net amount is [Infinity - Infinity = NaN] at every offset, and no
    entry of the net series equals ([===]) entry 0. *)
Lemma no_growth_net_nan :
  growth_zero64 example_overflow /\
  exists r n0 n1,
    projectScenario (N := Binary64 pow_by_mul) 2026 example_overflow = Some r /\
    at_index (netSeries r) 0 = Some n0 /\
    at_index (netSeries r) 1 = Some n1 /\
    PrimFloat.is_nan n0 = true /\
    PrimFloat.eqb n0 n0 = false /\ PrimFloat.eqb n1 n0 = false.
Proof.
  split; [repeat split; left; reflexivity|].
  eexists; eexists; eexists.
  split; [apply projectScenario_returns|].
  repeat split.
Qed.

Lemma pow_by_mul_one (t : Z) : pow_by_mul PrimFloat.one t = PrimFloat.one.
Proof.
  assert (H : forall p, Pos.iter (PrimFloat.mul PrimFloat.one) PrimFloat.one p
                        = PrimFloat.one).
  { intros p. apply Pos.iter_invariant; [|reflexivity].
    intros x ->. reflexivity. }
  destruct t as [|p|p]; simpl; [reflexivity|apply H|].
  rewrite H. reflexivity.
Qed.

Lemma no_growth_same_double_witness :
  (forall t, pow_by_mul PrimFloat.one t = PrimFloat.one) /\
  growth_zero64 example_overflow /\
  years_of example_overflow <= MAX_SAFE_INTEGER /\
  exists r, projectScenario (N := Binary64 pow_by_mul) 2026 example_overflow = Some r /\
    forall t, 0 <= t <= years_of example_overflow ->
      exists g n,
        at_index (grossSeries r) t = Some g /\
        at_index (grossSeries r) 0 = Some g /\
        at_index (netSeries r) t = Some n /\
        at_index (netSeries r) 0 = Some n.
Proof.
  pose proof pow_by_mul_one as Hpow.
  split; [exact Hpow|].
  assert (Hz : growth_zero64 example_overflow) by (repeat split; left; reflexivity).
  assert (Hy : years_of example_overflow <= MAX_SAFE_INTEGER)
    by (unfold years_of, MAX_SAFE_INTEGER; simpl; lia).
  split; [exact Hz|]. split; [exact Hy|].
  exact (no_growth_same_double 2026 pow_by_mul Hpow Hz Hy).
Defined.

(** ** The gross series, in doubles *)

Lemma nonneg_le_refl (x : float) : PrimFloat.leb 0 x = true -> nonneg_le x x.
Proof.
  intros H0. apply leb_units in H0 as (z & a & Hz & Ha & H0).
  change (units 0%float) with (units PrimFloat.zero) in Hz.
  rewrite units_zero in Hz. apply some_units_inj in Hz. subst z.
  exists a, a. repeat split; try assumption. lia.
Qed.

Lemma nonneg_le_leb (x y : float) : nonneg_le x y -> PrimFloat.leb x y = true.
Proof.
  intros (a & b & Ha & Hb & Hab). rewrite (units_leb _ _ Ha Hb).
  apply Z.leb_le. lia.
Qed.

Lemma leb_nonneg_le (x y : float) :
  PrimFloat.leb 0 x = true -> PrimFloat.leb x y = true -> nonneg_le x y.
Proof.
  intros H0 H1. apply leb_units in H0 as (z & a & Hz & Ha & H0).
  change (units 0%float) with (units PrimFloat.zero) in Hz.
  rewrite units_zero in Hz. apply some_units_inj in Hz. subst z.
  apply leb_units in H1 as (a' & b & Ha' & Hb & H1).
  rewrite Ha in Ha'. apply some_units_inj in Ha'. subst a'.
  exists a, b. repeat split; assumption.
Qed.

(** A sum of doubles that are not negative is the rounded sum. *)
Lemma add_units_nonneg (a b : Z) :
  0 <= a <= INFINITY_UNITS -> 0 <= b <= INFINITY_UNITS ->
  add_units a b = Some (round_units (a + b)).
Proof.
  intros Ha Hb. pose proof infinity_units_pos as Hinf. unfold add_units.
  destruct (Z.eqb_spec a INFINITY_UNITS) as [E|E].
  - destruct (Z.eqb_spec b (- INFINITY_UNITS)); [lia|].
    now rewrite round_units_saturates by lia.
  - destruct (Z.eqb_spec a (- INFINITY_UNITS)); [lia|].
    destruct (Z.eqb_spec b INFINITY_UNITS) as [E'|E'].
    + now rewrite round_units_saturates by lia.
    + destruct (Z.eqb_spec b (- INFINITY_UNITS)); [lia|]. reflexivity.
Qed.

Lemma nonneg_le_add (x x' y y' : float) :
  nonneg_le x x' -> nonneg_le y y' ->
  nonneg_le (PrimFloat.add x y) (PrimFloat.add x' y').
Proof.
  intros (a & a' & Ha & Ha' & Haa) (b & b' & Hb & Hb' & Hbb).
  pose proof (units_range _ Ha'). pose proof (units_range _ Hb').
  exists (round_units (a + b)), (round_units (a' + b')).
  split; [rewrite (units_add _ _ Ha Hb); apply add_units_nonneg; lia|].
  split; [rewrite (units_add _ _ Ha' Hb'); apply add_units_nonneg; lia|].
  split; [apply round_units_pos; lia|apply round_units_mono; lia].
Qed.

(** Products of doubles that are not negative keep their order, where
    neither product is NaN. *)
Lemma mul_units_nonneg_mono (a a' b b' r r' : Z) :
  0 <= a <= a' -> a' <= INFINITY_UNITS ->
  0 <= b <= b' -> b' <= INFINITY_UNITS ->
  mul_units a b = Some r -> mul_units a' b' = Some r' -> 0 <= r <= r'.
Proof.
  intros Ha Ha' Hb Hb' Hr Hr'.
  pose proof infinity_units_pos as Hinf. pose proof unit_scale_pos as HS.
  assert (Hr0 : 0 <= r <= INFINITY_UNITS).
  { unfold mul_units in Hr.
    destruct ((Z.abs a =? INFINITY_UNITS) || (Z.abs b =? INFINITY_UNITS)).
    - destruct (Z.eqb_spec a 0); [discriminate|].
      destruct (Z.eqb_spec b 0); [discriminate|]. cbn [orb] in Hr.
      apply some_units_inj in Hr. subst r.
      rewrite (Z.sgn_pos a), (Z.sgn_pos b) by lia. lia.
    - apply some_units_inj in Hr. subst r. split.
      + apply round_units_pos, Z.div_pos; nia.
      + apply round_units_le_infinity. }
  split; [lia|].
  unfold mul_units in Hr'.
  destruct (Z.eqb_spec (Z.abs a') INFINITY_UNITS) as [Ea|Ea];
    [|destruct (Z.eqb_spec (Z.abs b') INFINITY_UNITS) as [Eb|Eb]]; cbn [orb] in Hr'.
  - destruct (Z.eqb_spec a' 0); [discriminate|].
    destruct (Z.eqb_spec b' 0); [discriminate|]. cbn [orb] in Hr'.
    apply some_units_inj in Hr'. subst r'.
    rewrite (Z.sgn_pos a'), (Z.sgn_pos b') by lia. lia.
  - destruct (Z.eqb_spec a' 0); [discriminate|].
    destruct (Z.eqb_spec b' 0); [discriminate|]. cbn [orb] in Hr'.
    apply some_units_inj in Hr'. subst r'.
    rewrite (Z.sgn_pos a'), (Z.sgn_pos b') by lia. lia.
  - apply some_units_inj in Hr'. subst r'.
    rewrite mul_units_finite in Hr by lia.
    apply some_units_inj in Hr. subst r.
    apply round_units_mono, Z.div_le_mono; [lia|]. nia.
Qed.

Lemma mul_units_nonneg (a b r : Z) :
  0 <= a <= INFINITY_UNITS -> 0 <= b <= INFINITY_UNITS ->
  mul_units a b = Some r -> 0 <= r.
Proof.
  intros Ha Hb Hr.
  assert (H : 0 <= r <= r)
    by (apply (@mul_units_nonneg_mono a a b b r r); (assumption || lia)).
  lia.
Qed.

Lemma nonneg_le_mul (x x' y y' : float) :
  nonneg_le x x' -> nonneg_le y y' ->
  PrimFloat.is_nan (PrimFloat.mul x y) = false ->
  PrimFloat.is_nan (PrimFloat.mul x' y') = false ->
  nonneg_le (PrimFloat.mul x y) (PrimFloat.mul x' y').
Proof.
  intros (a & a' & Ha & Ha' & Haa) (b & b' & Hb & Hb' & Hbb) Hn Hn'.
  apply is_nan_units in Hn as (r & Hr). apply is_nan_units in Hn' as (r' & Hr').
  pose proof (units_range _ Ha'). pose proof (units_range _ Hb').
  exists r, r'. split; [exact Hr|]. split; [exact Hr'|].
  rewrite (units_mul _ _ Ha Hb) in Hr. rewrite (units_mul _ _ Ha' Hb') in Hr'.
  apply (@mul_units_nonneg_mono a a' b b' r r'); try assumption; lia.
Qed.

Lemma is_nan_add (x y : float) :
  PrimFloat.is_nan (PrimFloat.add x y) = false ->
  PrimFloat.is_nan x = false /\ PrimFloat.is_nan y = false.
Proof.
  intros H. apply is_nan_units in H as (r & Hr).
  apply units_add_inv in Hr as (a & b & Ha & Hb).
  split; apply is_nan_units; eexists; eassumption.
Qed.

Lemma is_nan_mul (x y : float) :
  PrimFloat.is_nan (PrimFloat.mul x y) = false ->
  PrimFloat.is_nan x = false /\ PrimFloat.is_nan y = false.
Proof.
  intros H. apply is_nan_units in H as (r & Hr).
  apply units_mul_inv in Hr as (a & b & Ha & Hb).
  split; apply is_nan_units; eexists; eassumption.
Qed.

Lemma leb_trans64 (x y z : float) :
  PrimFloat.leb x y = true -> PrimFloat.leb y z = true -> PrimFloat.leb x z = true.
Proof.
  intros H1 H2.
  apply leb_units in H1 as (a & b & Ha & Hb & Hab).
  apply leb_units in H2 as (b' & c & Hb' & Hc & Hbc).
  rewrite Hb in Hb'. apply some_units_inj in Hb'. subst b'.
  rewrite (units_leb _ _ Ha Hc). apply Z.leb_le. lia.
Qed.

Lemma nonneg_zero_one : nonneg_le PrimFloat.zero PrimFloat.one.
Proof. apply leb_nonneg_le; reflexivity. Qed.

(** Multiplying by one changes nothing. *)
Lemma mul_units_one (a : Z) :
  - INFINITY_UNITS <= a <= INFINITY_UNITS -> round_units a = a ->
  mul_units (2 ^ (- UNIT_EXPONENT)) a = Some a.
Proof.
  intros Ha Hr. pose proof infinity_units_pos as Hinf.
  pose proof unit_scale_pos as HS. pose proof unit_scale_lt_infinity as HSI.
  unfold mul_units.
  destruct (Z.eqb_spec (Z.abs (2 ^ (- UNIT_EXPONENT))) INFINITY_UNITS); [lia|].
  destruct (Z.eqb_spec (2 ^ (- UNIT_EXPONENT)) 0); [lia|].
  destruct (Z.eqb_spec (Z.abs a) INFINITY_UNITS) as [E|E]; cbn [orb].
  - destruct (Z.eqb_spec a 0); [lia|]. f_equal.
    rewrite (Z.sgn_pos (2 ^ (- UNIT_EXPONENT))) by lia.
    destruct (Z_lt_le_dec a 0).
    + rewrite (Z.sgn_neg a) by lia. lia.
    + rewrite (Z.sgn_pos a) by lia. lia.
  - f_equal. rewrite Z.mul_comm, Z.div_mul by lia. exact Hr.
Qed.

Lemma mul_units_positive (a b : Z) :
  0 < a -> 0 < b -> exists r, mul_units a b = Some r.
Proof.
  intros Ha Hb. unfold mul_units.
  destruct ((Z.abs a =? INFINITY_UNITS) || (Z.abs b =? INFINITY_UNITS));
    [|eexists; reflexivity].
  destruct (Z.eqb_spec a 0); [lia|]. destruct (Z.eqb_spec b 0); [lia|].
  eexists; reflexivity.
Qed.

(** A product by a factor at least one is at least the other factor. *)
Lemma mul_ge_one (b y : float) :
  PrimFloat.leb PrimFloat.one b = true -> PrimFloat.leb PrimFloat.one y = true ->
  PrimFloat.leb y (PrimFloat.mul b y) = true /\
  PrimFloat.leb PrimFloat.one (PrimFloat.mul b y) = true.
Proof.
  intros Hb Hy. pose proof unit_scale_pos as HS.
  apply leb_units in Hb as (s & bu & Hs & Hbu & Hb).
  rewrite units_one in Hs. apply some_units_inj in Hs. subst s.
  apply leb_units in Hy as (s & yu & Hs & Hyu & Hy).
  rewrite units_one in Hs. apply some_units_inj in Hs. subst s.
  pose proof (units_range _ Hyu) as Hyr. pose proof (units_range _ Hbu) as Hbr.
  pose proof (@mul_units_one yu Hyr (round_units_of_float _ Hyu)) as H1.
  destruct (@mul_units_positive bu yu ltac:(lia) ltac:(lia)) as (r & Hr).
  assert (Hle : 0 <= yu <= r).
  { apply (@mul_units_nonneg_mono (2 ^ (- UNIT_EXPONENT)) bu yu yu yu r);
      try assumption; lia. }
  pose proof (units_mul _ _ Hbu Hyu) as Hm. rewrite Hr in Hm.
  rewrite (units_leb _ _ Hyu Hm), (units_leb _ _ units_one Hm).
  split; apply Z.leb_le; lia.
Qed.

Lemma pow_by_mul_iter (b : float) (q : positive) :
  PrimFloat.leb PrimFloat.one b = true ->
  PrimFloat.leb PrimFloat.one (Pos.iter (PrimFloat.mul b) PrimFloat.one q) = true.
Proof.
  intros Hb. induction q as [|q IH] using Pos.peano_ind.
  - cbn [Pos.iter]. apply mul_ge_one; [exact Hb|reflexivity].
  - rewrite Pos.iter_succ. now apply mul_ge_one.
Qed.

(** [pow_by_mul] on a base at least one does not decrease with the
    exponent. *)
Lemma pow_by_mul_grows (b : float) (t : Z) :
  PrimFloat.leb PrimFloat.one b = true -> 0 <= t ->
  PrimFloat.leb (pow_by_mul b t) (pow_by_mul b (t + 1)) = true.
Proof.
  intros Hb Ht. destruct t as [|q|q]; [| |lia].
  - change (pow_by_mul b (0 + 1)) with (PrimFloat.mul b PrimFloat.one).
    change (pow_by_mul b 0) with PrimFloat.one.
    apply mul_ge_one; [exact Hb|reflexivity].
  - replace (Zpos q + 1) with (Zpos (Pos.succ q)) by lia.
    cbn [pow_by_mul]. rewrite Pos.iter_succ.
    apply mul_ge_one; [exact Hb|now apply pow_by_mul_iter].
Qed.

Section GrossGrowth64.
Variable thisYear : Z.
Variable host_pow : float -> Z -> float.
(** The host's [Math.pow(b, 0)] is 1, and for a base of at least 1
    [Math.pow(b, t)] does not decrease with [t]. *)
Hypothesis host_pow_zero : forall b, host_pow b 0 = PrimFloat.one.
Hypothesis host_pow_grows : forall b t,
  PrimFloat.leb PrimFloat.one b = true -> 0 <= t ->
  PrimFloat.leb (host_pow b t) (host_pow b (t + 1)) = true.

Local Abbreviation B64 := (Binary64 host_pow).

Lemma host_pow_ge_one (b : float) (t : Z) :
  PrimFloat.leb PrimFloat.one b = true -> 0 <= t ->
  PrimFloat.leb PrimFloat.one (host_pow b t) = true.
Proof.
  intros Hb Ht. revert t Ht. apply natlike_ind.
  - rewrite host_pow_zero. reflexivity.
  - intros t Ht IH. apply (leb_trans64 IH). now apply host_pow_grows.
Qed.

Lemma host_pow_nonneg_le (b : float) (t : Z) :
  PrimFloat.leb PrimFloat.one b = true -> 0 <= t ->
  nonneg_le (host_pow b t) (host_pow b (t + 1)).
Proof.
  intros Hb Ht. apply leb_nonneg_le; [|now apply host_pow_grows].
  apply (@leb_trans64 _ PrimFloat.one); [reflexivity|now apply host_pow_ge_one].
Qed.

(** [1 + x / 100] is at least 1 when [x] is not negative. *)
Lemma ratio_ge_one (x : float) :
  PrimFloat.leb 0 x = true ->
  PrimFloat.leb PrimFloat.one
    (PrimFloat.add (lit (Number := B64) 1)
                   (PrimFloat.div x (lit (Number := B64) 100))) = true.
Proof.
  intros Hx. pose proof unit_scale_pos as HS. pose proof unit_scale_lt_infinity as HSI.
  apply leb_units in Hx as (z & a & Hz & Ha & H0).
  change (units 0%float) with (units PrimFloat.zero) in Hz.
  rewrite units_zero in Hz. apply some_units_inj in Hz. subst z.
  assert (Hc : exists c, units (lit (Number := B64) 100) = Some c /\
                         0 < c < INFINITY_UNITS).
  { eexists. split; [vm_compute; reflexivity|]. vm_compute. split; reflexivity. }
  destruct Hc as (c & Hc & Hcb).
  destruct (units_div_nonneg _ _ Ha H0 Hc Hcb) as (q & Hq & Hq0).
  pose proof (units_range _ Hq) as Hqr.
  change (lit (Number := B64) 1) with PrimFloat.one.
  pose proof (units_add _ _ units_one Hq) as Hsum.
  rewrite add_units_nonneg in Hsum by lia.
  rewrite (units_leb _ _ units_one Hsum). apply Z.leb_le.
  rewrite <- (round_units_of_float _ units_one) at 1.
  apply round_units_mono. lia.
Qed.

Lemma grossAnnual_step64 (p : Args float) (t : Z) :
  inputs_nonneg64 p -> growth_nonneg64 p -> 0 <= t < MAX_SAFE_INTEGER ->
  PrimFloat.is_nan (grossAnnual (N := B64) p t) = false ->
  PrimFloat.is_nan (grossAnnual (N := B64) p (t + 1)) = false ->
  PrimFloat.leb (grossAnnual (N := B64) p t) (grossAnnual (N := B64) p (t + 1)) = true.
Proof.
  intros (Hb & Hgv & Hgp & Hvi & Hhd & _) (Hpct & Hgc & Hvr) Ht.
  unfold grossAnnual, grossMonthly, basicYear, gepiTotalYear, gepiPointYear, viYear.
  change (basicAnnualPctReaj_of (N := B64) p)
    with (or_default (basicAnnualPctReaj p) 0%float).
  change (gepiCentsAnnual_of (N := B64) p)
    with (or_default (gepiCentsAnnual p) 0%float).
  change (viReajAnnual_of (N := B64) p)
    with (or_default (viReajAnnual p) 0%float).
  cbn [add sub mul div Math_pow of_Z Binary64].
  set (ratio := PrimFloat.add (lit (Number := B64) 1)
                  (PrimFloat.div (or_default (basicAnnualPctReaj p) 0%float)
                                 (lit (Number := B64) 100))).
  set (gc := or_default (gepiCentsAnnual p) 0%float) in *.
  set (vr := or_default (viReajAnnual p) 0%float) in *.
  intros Hn Hn'.
  apply is_nan_mul in Hn as [Hn _]. apply is_nan_mul in Hn' as [Hn' _].
  pose proof Hn as Hgm. pose proof Hn' as Hgm'.
  apply is_nan_add in Hn as [Hn Hv]. apply is_nan_add in Hn' as [Hn' Hv'].
  apply is_nan_add in Hn as [Hbas Hgepi]. apply is_nan_add in Hn' as [Hbas' Hgepi'].
  pose proof Hgepi as Hgpy. pose proof Hgepi' as Hgpy'.
  apply is_nan_mul in Hgpy as [Hgpy _]. apply is_nan_mul in Hgpy' as [Hgpy' _].
  apply is_nan_add in Hgpy as [_ Hgct]. apply is_nan_add in Hgpy' as [_ Hgct'].
  apply is_nan_add in Hv as [Hvh Hvt]. apply is_nan_add in Hv' as [_ Hvt'].
  assert (Hratio : PrimFloat.leb PrimFloat.one ratio = true)
    by (apply ratio_ge_one; exact Hpct).
  assert (HT : nonneg_le (float_of_Z t) (float_of_Z (t + 1)))
    by (apply counter_nonneg_le; pose proof max_safe_integer_value; lia).
  apply nonneg_le_leb.
  apply nonneg_le_mul.
  - apply nonneg_le_add; [apply nonneg_le_add|apply nonneg_le_add].
    + apply nonneg_le_mul; try assumption.
      * now apply nonneg_le_refl.
      * apply host_pow_nonneg_le; [exact Hratio|lia].
    + apply nonneg_le_mul; try assumption.
      * apply nonneg_le_add; [now apply nonneg_le_refl|].
        apply nonneg_le_mul; try assumption. now apply nonneg_le_refl.
      * now apply nonneg_le_refl.
    + apply nonneg_le_mul; try assumption; now apply nonneg_le_refl.
    + apply nonneg_le_mul; try assumption. now apply nonneg_le_refl.
  - apply nonneg_le_refl. reflexivity.
  - apply is_nan_units.
    apply is_nan_units in Hgm as (m & Hm).
    assert (H12 : exists c, units (lit (Number := B64) 12) = Some c /\
                            c <> 0 /\ Z.abs c < INFINITY_UNITS).
    { eexists. split; [vm_compute; reflexivity|].
      split; [discriminate|vm_compute; reflexivity]. }
    destruct H12 as (c & Hc & Hc0 & Hcf).
    destruct (@mul_units_by_constant m c Hc0 Hcf) as (r & Hr).
    exists r. now rewrite (units_mul _ _ Hm Hc).
  - apply is_nan_units.
    apply is_nan_units in Hgm' as (m & Hm).
    assert (H12 : exists c, units (lit (Number := B64) 12) = Some c /\
                            c <> 0 /\ Z.abs c < INFINITY_UNITS).
    { eexists. split; [vm_compute; reflexivity|].
      split; [discriminate|vm_compute; reflexivity]. }
    destruct H12 as (c & Hc & Hc0 & Hcf).
    destruct (@mul_units_by_constant m c Hc0 Hcf) as (r & Hr).
    exists r. now rewrite (units_mul _ _ Hm Hc).
Qed.

(** C6, as the code has it in doubles. With monetary and count inputs and
    growth parameters that are not negative, a horizon of at most
    [2^53 - 1] years and a host whose [Math.pow] gives 1 at exponent 0 and does not
    decrease with the exponent on a base of at least 1:
    [grossSeries[t] <= grossSeries[t+1]] for every [t < years] at which
    neither amount is NaN. *)
Theorem gross_series_monotone_double (p : Args float) :
  inputs_nonneg64 p -> growth_nonneg64 p -> years_of p <= MAX_SAFE_INTEGER ->
  exists r, projectScenario (N := B64) thisYear p = Some r /\
    forall t, 0 <= t < years_of p ->
      exists g g',
        at_index (grossSeries r) t = Some g /\
        at_index (grossSeries r) (t + 1) = Some g' /\
        (PrimFloat.is_nan g = false -> PrimFloat.is_nan g' = false ->
         PrimFloat.leb g g' = true).
Proof.
  intros Hin Hgrow Hy. returns_projection.
  intros t Ht. simpl.
  exists (grossAnnual (N := B64) p t), (grossAnnual (N := B64) p (t + 1)).
  read_entries.
  repeat split. apply grossAnnual_step64; try assumption. lia.
Qed.

End GrossGrowth64.

Lemma example_vi_growth_nonneg :
  inputs_nonneg64 (example_vi_growth (N := Binary64 pow_by_mul)) /\
  growth_nonneg64 (example_vi_growth (N := Binary64 pow_by_mul)).
Proof. split; repeat split. Defined.

Lemma gross_series_monotone_double_witness :
  (forall b, pow_by_mul b 0 = PrimFloat.one) /\
  (forall b t, PrimFloat.leb PrimFloat.one b = true -> 0 <= t ->
     PrimFloat.leb (pow_by_mul b t) (pow_by_mul b (t + 1)) = true) /\
  inputs_nonneg64 (example_vi_growth (N := Binary64 pow_by_mul)) /\
  growth_nonneg64 (example_vi_growth (N := Binary64 pow_by_mul)) /\
  years_of (example_vi_growth (N := Binary64 pow_by_mul)) <= MAX_SAFE_INTEGER /\
  exists r g g',
    projectScenario (N := Binary64 pow_by_mul) 2026
      (example_vi_growth (N := Binary64 pow_by_mul)) = Some r /\
    at_index (grossSeries r) 0 = Some g /\
    at_index (grossSeries r) 1 = Some g' /\
    PrimFloat.is_nan g = false /\ PrimFloat.is_nan g' = false /\
    PrimFloat.leb g g' = true.
Proof.
  assert (H0 : forall b, pow_by_mul b 0 = PrimFloat.one) by reflexivity.
  pose proof pow_by_mul_grows as H1.
  destruct example_vi_growth_nonneg as [Hin Hgrow].
  assert (Hy : years_of (example_vi_growth (N := Binary64 pow_by_mul)) <= MAX_SAFE_INTEGER)
    by (unfold years_of, MAX_SAFE_INTEGER; simpl; lia).
  split; [exact H0|]. split; [exact H1|]. split; [exact Hin|].
  split; [exact Hgrow|]. split; [exact Hy|].
  destruct (@gross_series_monotone_double 2026 pow_by_mul H0 H1
              (example_vi_growth (N := Binary64 pow_by_mul)) Hin Hgrow Hy)
    as (r & Hr & Hall).
  destruct (Hall 0 ltac:(unfold years_of, example_vi_growth; simpl; lia))
    as (g & g' & Hg & Hg' & Hle).
  exists r, g, g'. split; [exact Hr|]. split; [exact Hg|]. split; [exact Hg'|].
  rewrite projectScenario_returns in Hr. injection Hr as <-.
  cbn in Hg, Hg'. injection Hg as <-. injection Hg' as <-.
  split; [reflexivity|]. split; [reflexivity|]. exact (Hle eq_refl eq_refl).
Defined.

(** C6, as the specification words it, fails in doubles. With a base
    salary of 0 and a basic growth of 1e308 percent a year (the other
    inputs those of the default scenario, none negative), the compound
    factor overflows to Infinity at [t = 2], the basic salary of that
    year is [0 * Infinity = NaN], and the gross series is
    [27600, 27600, NaN]: its last step is not [<=]. *)
Lemma gross_series_nan_step :
  inputs_nonneg64 example_nan_growth /\ growth_nonneg64 example_nan_growth /\
  exists r g1 g2,
    projectScenario (N := Binary64 pow_by_mul) 2026 example_nan_growth = Some r /\
    grossSeries r = [27600%float; g1; g2] /\
    g1 = 27600%float /\ PrimFloat.is_nan g2 = true /\
    PrimFloat.leb g1 g2 = false.
Proof.
  split; [repeat split|]. split; [repeat split|].
  do 3 eexists. split; [apply projectScenario_returns|].
  split; [reflexivity|]. repeat split.
Qed.

(** ** Net pay, dependents and the sign of net pay, in doubles *)

Lemma units_neg_infinity : units PrimFloat.neg_infinity = Some (- INFINITY_UNITS).
Proof. vm_compute. reflexivity. Qed.

(** A difference whose first term is finite decreases with the second. *)
Lemma sub_units_antitone (A D D' r r' : Z) :
  Z.abs A < INFINITY_UNITS ->
  - INFINITY_UNITS <= D -> D <= D' -> D' <= INFINITY_UNITS ->
  sub_units A D = Some r -> sub_units A D' = Some r' -> r' <= r.
Proof.
  intros HA HD HDD HD' Hr Hr'. pose proof infinity_units_pos as Hinf.
  unfold sub_units, add_units in *.
  destruct (Z.eqb_spec A INFINITY_UNITS); [lia|].
  destruct (Z.eqb_spec A (- INFINITY_UNITS)); [lia|].
  destruct (Z.eqb_spec (- D') INFINITY_UNITS) as [E1|E1];
    destruct (Z.eqb_spec (- D) INFINITY_UNITS) as [E2|E2];
    try destruct (Z.eqb_spec (- D') (- INFINITY_UNITS)) as [E3|E3];
    try destruct (Z.eqb_spec (- D) (- INFINITY_UNITS)) as [E4|E4];
    apply some_units_inj in Hr; apply some_units_inj in Hr'; subst r r';
    try lia;
    try apply round_units_le_infinity; try apply round_units_ge_infinity.
  apply round_units_mono. lia.
Qed.

Lemma sub_units_finite_first (A D : Z) :
  Z.abs A < INFINITY_UNITS -> exists r, sub_units A D = Some r.
Proof.
  intros HA. unfold sub_units, add_units.
  destruct (Z.eqb_spec A INFINITY_UNITS); [lia|].
  destruct (Z.eqb_spec A (- INFINITY_UNITS)); [lia|].
  destruct (- D =? INFINITY_UNITS); [eexists; reflexivity|].
  destruct (- D =? - INFINITY_UNITS); eexists; reflexivity.
Qed.

(** The tax on a base that is not negative, at a positive finite rate. *)
Lemma tax_units (T c15 : Z) :
  0 <= T <= INFINITY_UNITS -> 0 < c15 < INFINITY_UNITS ->
  exists I, mul_units T c15 = Some I /\ 0 <= I <= INFINITY_UNITS /\
            (T < INFINITY_UNITS ->
             I = round_units (T * c15 / 2 ^ (- UNIT_EXPONENT))) /\
            (T = INFINITY_UNITS -> I = INFINITY_UNITS).
Proof.
  intros HT Hc. pose proof infinity_units_pos as Hinf. pose proof unit_scale_pos as HS.
  unfold mul_units.
  destruct (Z.eqb_spec (Z.abs c15) INFINITY_UNITS); [lia|].
  destruct (Z.eqb_spec c15 0); [lia|].
  destruct (Z.eqb_spec (Z.abs T) INFINITY_UNITS) as [E|E]; cbn [orb].
  - destruct (Z.eqb_spec T 0); [lia|]. eexists. split; [reflexivity|].
    rewrite (Z.sgn_pos T), (Z.sgn_pos c15) by lia. repeat split; lia.
  - eexists. split; [reflexivity|]. repeat split; try lia.
    + apply round_units_pos, Z.div_pos; nia.
    + apply round_units_le_infinity.
Qed.

Lemma tax_units_mono (T T' c15 I I' : Z) :
  0 <= T' <= T -> T <= INFINITY_UNITS -> 0 < c15 < INFINITY_UNITS ->
  mul_units T c15 = Some I -> mul_units T' c15 = Some I' -> I' <= I.
Proof.
  intros HT HTi Hc HI HI'. pose proof unit_scale_pos as HS.
  destruct (@tax_units T c15 ltac:(lia) Hc) as (J & HJ & HJr & HJf & HJi).
  destruct (@tax_units T' c15 ltac:(lia) Hc) as (J' & HJ' & HJr' & HJf' & HJi').
  rewrite HJ in HI. rewrite HJ' in HI'.
  apply some_units_inj in HI. apply some_units_inj in HI'. subst J J'.
  destruct (Z.eq_dec T INFINITY_UNITS) as [E|E].
  - rewrite (HJi E). lia.
  - rewrite HJf, HJf' by lia. apply round_units_mono, Z.div_le_mono; [lia|nia].
Qed.

(** Gross less contribution: a finite double between zero and gross. *)
Lemma after_contribution (g k14 : float) (G c14 : Z) :
  units g = Some G -> Z.abs G < INFINITY_UNITS ->
  units k14 = Some c14 -> 0 <= c14 <= 2 ^ (- UNIT_EXPONENT) ->
  exists A, units (PrimFloat.sub g (PrimFloat.mul g k14)) = Some A /\
            Z.abs A <= Z.abs G /\ (0 <= G -> 0 <= A).
Proof.
  intros Hg HG Hk Hc.
  pose proof infinity_units_pos as Hinf. pose proof unit_scale_pos as HS.
  pose proof unit_scale_lt_infinity as HSI.
  pose proof (round_units_of_float _ Hg) as HrG.
  pose proof (units_mul _ _ Hg Hk) as Hp.
  rewrite mul_units_finite in Hp by lia.
  set (P := round_units (G * c14 / 2 ^ (- UNIT_EXPONENT))) in *.
  assert (HP : (0 <= G -> 0 <= P <= G) /\ (G <= 0 -> G <= P <= 0)).
  { unfold P. split; intros H0.
    - pose proof (@scaled_product_bounds G c14 H0 Hc).
      split; [apply round_units_pos; lia|].
      rewrite <- HrG at 2. apply round_units_mono. lia.
    - assert (Hq : G <= G * c14 / 2 ^ (- UNIT_EXPONENT) <= 0).
      { split.
        - apply Z.div_le_lower_bound; nia.
        - apply Z.div_le_upper_bound; nia. }
      split.
      + rewrite <- HrG at 1. apply round_units_mono. lia.
      + rewrite <- round_units_zero. apply round_units_mono. lia. }
  pose proof (units_sub _ _ Hg Hp) as Ha. unfold sub_units in Ha.
  rewrite add_units_finite in Ha by lia.
  exists (round_units (G + - P)). split; [exact Ha|].
  destruct (Z_le_gt_dec 0 G) as [H0|H0].
  - destruct HP as [HP _]. specialize (HP H0).
    assert (0 <= round_units (G + - P)) by (apply round_units_pos; lia).
    assert (round_units (G + - P) <= G)
      by (rewrite <- HrG at 2; apply round_units_mono; lia).
    lia.
  - destruct HP as [_ HP]. specialize (HP ltac:(lia)).
    assert (round_units (G + - P) <= 0)
      by (rewrite <- round_units_zero; apply round_units_mono; lia).
    assert (G <= round_units (G + - P))
      by (rewrite <- HrG at 1; apply round_units_mono; lia).
    lia.
Qed.

(** The net amount of one iteration as a function of the deduction for
    dependents: it does not decrease with the deduction, and it is not
    negative when gross and deduction are not. *)
Lemma net_in_deduction (g k14 k15 dd dd' : float) (G c14 c15 D D' : Z) :
  units g = Some G -> Z.abs G < INFINITY_UNITS ->
  units k14 = Some c14 -> 0 <= c14 <= 2 ^ (- UNIT_EXPONENT) ->
  units k15 = Some c15 -> 0 < c15 <= 2 ^ (- UNIT_EXPONENT) ->
  units dd = Some D -> units dd' = Some D' -> D <= D' ->
  let net (x : float) :=
    PrimFloat.sub (PrimFloat.sub g (PrimFloat.mul g k14))
      (PrimFloat.mul
         (float_max PrimFloat.zero
            (PrimFloat.sub (PrimFloat.sub g (PrimFloat.mul g k14)) x))
         k15) in
  exists n n', units (net dd) = Some n /\ units (net dd') = Some n' /\ n <= n' /\
               (0 <= G -> 0 <= D -> 0 <= n).
Proof.
  intros Hg HG Hk14 Hc14 Hk15 Hc15 Hdd Hdd' HDD net.
  pose proof infinity_units_pos as Hinf. pose proof unit_scale_pos as HS.
  pose proof unit_scale_lt_infinity as HSI.
  destruct (@after_contribution g k14 G c14 Hg HG Hk14 Hc14) as (A & Ha & HA & HA0).
  pose proof (round_units_of_float _ Ha) as HrA.
  pose proof (units_range _ Hdd) as HDr. pose proof (units_range _ Hdd') as HDr'.
  destruct (@sub_units_finite_first A D ltac:(lia)) as (su & Hsu).
  destruct (@sub_units_finite_first A D' ltac:(lia)) as (su' & Hsu').
  pose proof (@sub_units_antitone A D D' su su' ltac:(lia) ltac:(lia) HDD ltac:(lia)
                Hsu Hsu') as Hss.
  pose proof (units_sub _ _ Ha Hdd) as Hs. rewrite Hsu in Hs.
  pose proof (units_sub _ _ Ha Hdd') as Hs'. rewrite Hsu' in Hs'.
  pose proof (units_float_max_zero _ Hs) as Ht.
  pose proof (units_float_max_zero _ Hs') as Ht'.
  pose proof (units_range _ Ht) as HTr. pose proof (units_range _ Ht') as HTr'.
  destruct (@tax_units (Z.max 0 su) c15 ltac:(lia) ltac:(lia)) as (I & HI & HIr & HIf & HIi).
  destruct (@tax_units (Z.max 0 su') c15 ltac:(lia) ltac:(lia)) as (I' & HI' & HIr' & _).
  pose proof (@tax_units_mono (Z.max 0 su) (Z.max 0 su') c15 I I'
                ltac:(lia) ltac:(lia) ltac:(lia) HI HI') as HII.
  pose proof (units_mul _ _ Ht Hk15) as Hi. rewrite HI in Hi.
  pose proof (units_mul _ _ Ht' Hk15) as Hi'. rewrite HI' in Hi'.
  destruct (@sub_units_finite_first A I ltac:(lia)) as (n & Hn).
  destruct (@sub_units_finite_first A I' ltac:(lia)) as (n' & Hn').
  pose proof (@sub_units_antitone A I' I n' n ltac:(lia) ltac:(lia) HII ltac:(lia)
                Hn' Hn) as Hnn.
  exists n, n'. unfold net.
  split; [now rewrite (units_sub _ _ Ha Hi)|].
  split; [now rewrite (units_sub _ _ Ha Hi')|].
  split; [exact Hnn|].
  intros HG0 HD0. specialize (HA0 HG0).
  (* the base is at most what is left of gross, and so is the tax *)
  assert (Hsu_le : su <= A).
  { assert (E : sub_units A 0 = Some A).
    { unfold sub_units. rewrite add_units_finite by lia.
      now rewrite Z.add_0_r, HrA. }
    apply (@sub_units_antitone A 0 D A su); try assumption; lia. }
  assert (HT : 0 <= Z.max 0 su <= A) by lia.
  assert (HIA : I <= A).
  { rewrite HIf by lia. rewrite <- HrA. apply round_units_mono.
    pose proof (@scaled_product_bounds (Z.max 0 su) c15 ltac:(lia) ltac:(lia)). lia. }
  unfold sub_units in Hn. rewrite add_units_finite in Hn by lia.
  apply some_units_inj in Hn. subst n. apply round_units_pos. lia.
Qed.

Section NetDependents64.
Variable thisYear : Z.
Variable host_pow : float -> Z -> float.

Local Abbreviation B64 := (Binary64 host_pow).

Lemma ir_flat_percent_below_one :
  exists c, units (IR_FLAT_PERCENT (N := B64)) = Some c /\
            0 < c <= 2 ^ (- UNIT_EXPONENT).
Proof.
  eexists. split; [vm_compute; reflexivity|].
  vm_compute. split; [reflexivity|discriminate].
Qed.

Lemma deduction_constants :
  exists c1 c2,
    units (DEPENDENT_DEDUCTION (N := B64)) = Some c1 /\
    units (lit (Number := B64) 12) = Some c2 /\
    0 < c1 < INFINITY_UNITS /\ 0 < c2 < INFINITY_UNITS.
Proof.
  eexists; eexists. split; [vm_compute; reflexivity|].
  split; [vm_compute; reflexivity|]. vm_compute. repeat split.
Qed.

(** The deduction for dependents does not decrease with their number. *)
Lemma deductionDependents_mono (p : Args float) (d d' : float) :
  PrimFloat.leb 0 d = true -> PrimFloat.leb d d' = true ->
  nonneg_le (deductionDependents (N := B64) (with_dependents p d))
            (deductionDependents (N := B64) (with_dependents p d')).
Proof.
  intros H0 Hle.
  pose proof (@leb_nonneg_le d d' H0 Hle) as Hdd.
  destruct deduction_constants as (c1 & c2 & Hc1 & Hc2 & Hb1 & Hb2).
  assert (Hk1 : nonneg_le (DEPENDENT_DEDUCTION (N := B64)) (DEPENDENT_DEDUCTION (N := B64)))
    by (exists c1, c1; repeat split; (assumption || lia)).
  assert (Hk2 : nonneg_le (lit (Number := B64) 12) (lit (Number := B64) 12))
    by (exists c2, c2; repeat split; (assumption || lia)).
  assert (Hnan : forall x, PrimFloat.is_nan x = false ->
                 PrimFloat.is_nan (PrimFloat.mul x (DEPENDENT_DEDUCTION (N := B64))) = false /\
                 PrimFloat.is_nan (PrimFloat.mul x (lit (Number := B64) 12)) = false).
  { intros x Hx. apply is_nan_units in Hx as (a & Ha).
    split; apply is_nan_units.
    - destruct (@mul_units_by_constant a c1 ltac:(lia) ltac:(lia)) as (r & Hr).
      exists r. now rewrite (units_mul _ _ Ha Hc1).
    - destruct (@mul_units_by_constant a c2 ltac:(lia) ltac:(lia)) as (r & Hr).
      exists r. now rewrite (units_mul _ _ Ha Hc2). }
  assert (Hd : PrimFloat.is_nan d = false /\ PrimFloat.is_nan d' = false).
  { destruct Hdd as (a & b & Ha & Hb & _).
    split; apply is_nan_units; eexists; eassumption. }
  destruct Hd as [Hd Hd'].
  unfold deductionDependents. cbn [dependents with_dependents mul Binary64].
  apply nonneg_le_mul; try assumption.
  - apply nonneg_le_mul; try assumption; now apply Hnan.
  - apply Hnan. now apply Hnan.
  - apply Hnan. now apply Hnan.
Qed.

Lemma finite_units (g : float) :
  PrimFloat.ltb PrimFloat.neg_infinity g = true ->
  PrimFloat.ltb g PrimFloat.infinity = true ->
  exists G, units g = Some G /\ Z.abs G < INFINITY_UNITS.
Proof.
  intros Hlo Hhi.
  apply ltb_units in Hlo as (m & G & Hm & Hg & Hlo).
  rewrite units_neg_infinity in Hm. apply some_units_inj in Hm. subst m.
  apply ltb_units in Hhi as (G' & i & Hg' & Hi & Hhi).
  rewrite Hg in Hg'. apply some_units_inj in Hg'. subst G'.
  rewrite units_infinity in Hi. apply some_units_inj in Hi. subst i.
  exists G. split; [exact Hg|lia].
Qed.

Lemma netAnnual_dependents (p : Args float) (d d' : float) (t : Z) :
  PrimFloat.leb 0 d = true -> PrimFloat.leb d d' = true ->
  PrimFloat.ltb PrimFloat.neg_infinity (grossAnnual (N := B64) p t) = true ->
  PrimFloat.ltb (grossAnnual (N := B64) p t) PrimFloat.infinity = true ->
  PrimFloat.leb (netAnnual (N := B64) (with_dependents p d) t)
                (netAnnual (N := B64) (with_dependents p d') t) = true.
Proof.
  intros H0 Hle Hlo Hhi.
  destruct (@finite_units _ Hlo Hhi) as (G & Hg & HG).
  destruct (previd_percent_units host_pow) as (c14 & Hk14 & Hc14).
  destruct ir_flat_percent_below_one as (c15 & Hk15 & Hc15).
  destruct (@deductionDependents_mono p d d' H0 Hle) as (D & D' & HD & HD' & HDD).
  destruct (@net_in_deduction _ _ _ _ _ G c14 c15 D D' Hg HG Hk14 Hc14 Hk15 Hc15
              HD HD' ltac:(lia)) as (n & n' & Hn & Hn' & Hnn & _).
  assert (E : units (netAnnual (N := B64) (with_dependents p d) t) = Some n) by exact Hn.
  assert (E' : units (netAnnual (N := B64) (with_dependents p d') t) = Some n') by exact Hn'.
  rewrite (units_leb _ _ E E'). now apply Z.leb_le.
Qed.

Lemma netAnnual_nonneg (p : Args float) (t : Z) :
  PrimFloat.leb 0 (dependents p) = true ->
  PrimFloat.leb 0 (grossAnnual (N := B64) p t) = true ->
  PrimFloat.ltb (grossAnnual (N := B64) p t) PrimFloat.infinity = true ->
  PrimFloat.leb 0 (netAnnual (N := B64) p t) = true.
Proof.
  intros Hd H0 Hhi.
  apply leb_units in H0 as (z & G & Hz & Hg & H0).
  change (units 0%float) with (units PrimFloat.zero) in Hz.
  rewrite units_zero in Hz. apply some_units_inj in Hz. subst z.
  apply ltb_units in Hhi as (G' & i & Hg' & Hi & Hhi).
  rewrite Hg in Hg'. apply some_units_inj in Hg'. subst G'.
  rewrite units_infinity in Hi. apply some_units_inj in Hi. subst i.
  destruct (previd_percent_units host_pow) as (c14 & Hk14 & Hc14).
  destruct ir_flat_percent_below_one as (c15 & Hk15 & Hc15).
  pose proof (nonneg_le_leb (nonneg_le_refl Hd)) as Hdd.
  destruct (@deductionDependents_mono p _ _ Hd Hdd) as (D & D' & HD & HD' & HDD).
  assert (HDp : units (deductionDependents (N := B64) p) = Some D) by exact HD.
  destruct (@net_in_deduction _ _ _ _ _ G c14 c15 D D Hg ltac:(lia) Hk14 Hc14 Hk15 Hc15
              HDp HDp ltac:(lia)) as (n & n' & Hn & _ & _ & Hpos).
  assert (E : units (netAnnual (N := B64) p t) = Some n) by exact Hn.
  rewrite (@units_leb 0%float (netAnnual (N := B64) p t) 0 n units_zero E).
  apply Z.leb_le. apply Hpos; lia.
Qed.

(** X5. More dependents leave every gross amount as it is and, wherever
    the gross amount is finite, never lower the net amount. *)
Theorem dependents_raise_net_double (p : Args float) (d d' : float) :
  PrimFloat.leb 0 d = true -> PrimFloat.leb d d' = true ->
  exists r r',
    projectScenario (N := B64) thisYear (with_dependents p d) = Some r /\
    projectScenario (N := B64) thisYear (with_dependents p d') = Some r' /\
    grossSeries r' = grossSeries r /\
    forall t, 0 <= t <= years_of p ->
      exists g n n',
        at_index (grossSeries r) t = Some g /\
        at_index (netSeries r) t = Some n /\
        at_index (netSeries r') t = Some n' /\
        (PrimFloat.ltb PrimFloat.neg_infinity g = true ->
         PrimFloat.ltb g PrimFloat.infinity = true ->
         PrimFloat.leb n n' = true).
Proof.
  intros H0 Hle.
  exists {| labels := map (fun t => String_of (thisYear + t)) (offsets 0 (iterations p));
            grossSeries := map (grossAnnual (N := B64) p) (offsets 0 (iterations p));
            netSeries := map (netAnnual (N := B64) (with_dependents p d))
                             (offsets 0 (iterations p)) |}.
  exists {| labels := map (fun t => String_of (thisYear + t)) (offsets 0 (iterations p));
            grossSeries := map (grossAnnual (N := B64) p) (offsets 0 (iterations p));
            netSeries := map (netAnnual (N := B64) (with_dependents p d'))
                             (offsets 0 (iterations p)) |}.
  split; [apply (projectScenario_returns (N := B64) thisYear (with_dependents p d))|].
  split; [apply (projectScenario_returns (N := B64) thisYear (with_dependents p d'))|].
  split; [reflexivity|].
  intros t Ht. simpl.
  exists (grossAnnual (N := B64) p t),
         (netAnnual (N := B64) (with_dependents p d) t),
         (netAnnual (N := B64) (with_dependents p d') t).
  read_entries.
  repeat split. intros Hlo Hhi. now apply netAnnual_dependents.
Qed.

(** X4. With a count of dependents that is not negative, wherever the
    gross amount is a finite number that is not negative the net amount
    lies between zero and the gross amount. *)
Theorem net_between_zero_and_gross (p : Args float) :
  PrimFloat.leb 0 (dependents p) = true ->
  exists r, projectScenario (N := B64) thisYear p = Some r /\
    forall t, 0 <= t <= years_of p ->
      exists g n,
        at_index (grossSeries r) t = Some g /\
        at_index (netSeries r) t = Some n /\
        (PrimFloat.leb 0 g = true -> PrimFloat.ltb g PrimFloat.infinity = true ->
         PrimFloat.leb 0 n = true /\ PrimFloat.leb n g = true).
Proof.
  intros Hd. returns_projection.
  intros t Ht. simpl.
  exists (grossAnnual (N := B64) p t), (netAnnual (N := B64) p t).
  read_entries.
  repeat split.
  - now apply netAnnual_nonneg.
  - apply netAnnual_le_grossAnnual; try assumption.
    apply leb_units in Hd as (z & a & _ & Ha & _).
    apply is_nan_units. now exists a.
Qed.

End NetDependents64.

Lemma dependents_raise_net_double_witness :
  PrimFloat.leb 0 0 = true /\ PrimFloat.leb 0 2 = true /\
  exists r r' g n n',
    projectScenario (N := Binary64 pow_by_mul) 2026
      (with_dependents (example_vi_growth (N := Binary64 pow_by_mul)) 0%float) = Some r /\
    projectScenario (N := Binary64 pow_by_mul) 2026
      (with_dependents (example_vi_growth (N := Binary64 pow_by_mul)) 2%float) = Some r' /\
    at_index (grossSeries r) 1 = Some g /\
    at_index (netSeries r) 1 = Some n /\
    at_index (netSeries r') 1 = Some n' /\
    PrimFloat.ltb PrimFloat.neg_infinity g = true /\
    PrimFloat.ltb g PrimFloat.infinity = true /\
    PrimFloat.leb n n' = true.
Proof.
  assert (H0 : PrimFloat.leb 0 0 = true) by reflexivity.
  assert (H2 : PrimFloat.leb 0 2 = true) by reflexivity.
  split; [exact H0|]. split; [exact H2|].
  destruct (@dependents_raise_net_double 2026 pow_by_mul
              (example_vi_growth (N := Binary64 pow_by_mul)) 0%float 2%float H0 H2)
    as (r & r' & Hr & Hr' & _ & Hall).
  destruct (Hall 1 ltac:(unfold years_of, example_vi_growth; simpl; lia))
    as (g & n & n' & Hg & Hn & Hn' & Hle).
  exists r, r', g, n, n'.
  split; [exact Hr|]. split; [exact Hr'|]. split; [exact Hg|].
  split; [exact Hn|]. split; [exact Hn'|].
  rewrite projectScenario_returns in Hr. injection Hr as <-.
  cbn in Hg. injection Hg as <-.
  split; [reflexivity|]. split; [reflexivity|]. exact (Hle eq_refl eq_refl).
Defined.

Lemma net_between_zero_and_gross_witness :
  PrimFloat.leb 0 (dependents (example_args (N := Binary64 pow_by_mul))) = true /\
  exists r g n,
    projectScenario (N := Binary64 pow_by_mul) 2026
      (example_args (N := Binary64 pow_by_mul)) = Some r /\
    at_index (grossSeries r) 0 = Some g /\
    at_index (netSeries r) 0 = Some n /\
    PrimFloat.leb 0 g = true /\ PrimFloat.ltb g PrimFloat.infinity = true /\
    PrimFloat.leb 0 n = true /\ PrimFloat.leb n g = true.
Proof.
  assert (Hd : PrimFloat.leb 0 (dependents (example_args (N := Binary64 pow_by_mul))) = true)
    by reflexivity.
  split; [exact Hd|].
  destruct (@net_between_zero_and_gross 2026 pow_by_mul
              (example_args (N := Binary64 pow_by_mul)) Hd) as (r & Hr & Hall).
  destruct (Hall 0 ltac:(unfold years_of, example_args; simpl; lia))
    as (g & n & Hg & Hn & Hle).
  exists r, g, n. split; [exact Hr|]. split; [exact Hg|]. split; [exact Hn|].
  rewrite projectScenario_returns in Hr. injection Hr as <-.
  cbn in Hg. injection Hg as <-.
  split; [reflexivity|]. split; [reflexivity|]. exact (Hle eq_refl eq_refl).
Defined.

(** ** What the initializer falls back on *)

Section Fallback.
Variable host_pow : float -> Z -> float.


End Fallback.
